(** * TeXPen: the resumable, chunked model downloader

    A shallow embedding of [services/downloader/v2/ChunkStore.ts],
    [services/downloader/v2/DownloadJob.ts], the scheduler
    ([v2/DownloadScheduler], the variant with a quota handler) and the
    [DownloadManager] that finalises a download into the Cache API.

    Numbers are JavaScript numbers restricted to the integers ([Z]) with an
    explicit [NaN]; blobs and [Uint8Array]s are byte lists; the two IndexedDB
    object stores and the Cache API cache are finite maps.  Asynchronous code
    is modelled by explicit state passing: a job runs against the store and
    returns the new store (the scheduler serialises the runs for one URL),
    and the scheduler is a transition system whose events are the calls of
    [download] and the settling of a running job.

    The browser is modelled as far as the code depends on it: [fetch] is a
    function from the request to a rejection or a response whose body is a
    list of reads that ends normally or with an error; an IndexedDB
    transaction either commits or aborts as a whole, and aborts with
    [QuotaExceededError] when the chunk table would outgrow the origin's
    quota; [cache.put] stores a response or rejects when its body stream
    fails.  Wall-clock readings ([lastModified], the download speed) and the
    progress callbacks are left out: nothing else depends on them.

    The last part of the file embeds the earlier downloader as well:
    [services/downloader/db.ts] and the [DownloadManager] that fetches by
    itself and keeps its chunks in one record per URL. *)

From Stdlib Require Import ZArith Lia List String Ascii.
From stdpp Require Import base gmap strings list fin_maps pretty.

Open Scope Z_scope.

(** Bytes of a [Blob] or a [Uint8Array]. *)
Abbreviation Bytes := (list Byte.byte).

#[global] Instance byte_eq_dec : EqDecision Byte.byte.
Proof.
  intros a b. destruct (decide (Byte.to_N a = Byte.to_N b)) as [H|H].
  - left. apply (f_equal Byte.of_N) in H. rewrite !Byte.of_to_N in H. congruence.
  - right. congruence.
Defined.

(* ===================================================================== *)
(** ** JavaScript values used by the downloader *)
(* ===================================================================== *)
Module JS.

(** A JavaScript number: an integer or [NaN] (what [parseInt] returns on a
    string with no leading digits). *)
Inductive num : Type :=
| Num (z : Z)
| NaN.

#[global] Instance num_eq_dec : EqDecision num.
Proof. solve_decision. Defined.

(** [a + b] *)
Definition add (a b : num) : num :=
  match a, b with
  | Num x, Num y => Num (x + y)
  | _, _ => NaN
  end.

(** [a || 0] on numbers: [0] and [NaN] are falsy. *)
Definition or0 (a : num) : num :=
  match a with
  | Num z => Num z
  | NaN => Num 0
  end.

(** [a !== b] between numbers: [NaN] differs from everything. *)
Definition strict_ne (a b : num) : bool :=
  match a, b with
  | Num x, Num y => negb (x =? y)
  | _, _ => true
  end.

(** [a >= b] between numbers: every comparison with [NaN] is false. *)
Definition ge (a b : num) : bool :=
  match a, b with
  | Num x, Num y => y <=? x
  | _, _ => false
  end.

(** [String(n)] / [n.toString()] / template interpolation. *)
Definition toString (a : num) : string :=
  match a with
  | Num z => pretty z
  | NaN => "NaN"
  end.

(** Truthiness of a string: only the empty string is falsy. *)
Definition truthy (s : string) : bool :=
  match s with
  | EmptyString => false
  | String _ _ => true
  end.

(** Truthiness of [headers.get(name)]: [null] and the empty string are falsy. *)
Definition present (h : option string) : option string :=
  match h with
  | Some s => if truthy s then Some s else None
  | None => None
  end.

Definition is_space (a : ascii) : bool :=
  let n := Z.of_nat (nat_of_ascii a) in
  ((9 <=? n) && (n <=? 13)) || (n =? 32).

Definition digit_of (a : ascii) : option Z :=
  let n := Z.of_nat (nat_of_ascii a) in
  if (48 <=? n) && (n <=? 57) then Some (n - 48) else None.

Fixpoint skip_spaces (s : string) : string :=
  match s with
  | String a s' => if is_space a then skip_spaces s' else s
  | EmptyString => s
  end.

(** Value of the longest prefix of decimal digits; [None] when there is none. *)
Fixpoint digits_prefix (s : string) (acc : option Z) : option Z :=
  match s with
  | String a s' =>
      match digit_of a with
      | Some d => digits_prefix s' (Some (10 * default 0 acc + d))
      | None => acc
      end
  | EmptyString => acc
  end.

(** [parseInt(s, 10)]: leading white space, an optional sign, then the
    longest run of decimal digits; [NaN] when no digit follows. *)
Definition parseInt (s : string) : num :=
  let s1 := skip_spaces s in
  let '(sign, s2) :=
    match s1 with
    | String "-" r => (-1, r)
    | String "+" r => (1, r)
    | _ => (1, s1)
    end in
  match digits_prefix s2 None with
  | Some n => Num (sign * n)
  | None => NaN
  end.

Fixpoint take_digits (s : string) : string :=
  match s with
  | String a s' =>
      match digit_of a with
      | Some _ => String a (take_digits s')
      | None => EmptyString
      end
  | EmptyString => EmptyString
  end.

(** [s.match(/\*\/(\d+)/)]: the capture group of the leftmost occurrence of
    a star, a slash and at least one digit; the digits are matched greedily. *)
Fixpoint match_star_slash_digits (s : string) : option string :=
  match s with
  | EmptyString => None
  | String a s' =>
      match a, s' with
      | "*"%char, String "/" s'' =>
          match take_digits s'' with
          | EmptyString => match_star_slash_digits s'
          | d => Some d
          end
      | _, _ => match_star_slash_digits s'
      end
  end.

(** What the code can throw or reject with. *)
Inductive Error : Type :=
| QuotaExceededError                         (* DOMException of IndexedDB *)
| AbortError                                 (* the AbortController fired *)
| NetworkError                               (* fetch / body read rejected *)
| FetchFailed (status : Z)                   (* "Fetch failed: <status>" *)
| ETagMismatch                               (* "ETag mismatch, restart required" *)
| NoResponseBody                             (* "No response body" *)
| MissingChunk (index : Z) (url : string)    (* "Missing chunk <i> for <url>" *)
| MetadataMissing (url : string)             (* "Download failed: Metadata missing" *)
| IntegrityCheckFailed (downloaded : Z) (total : num).

#[global] Instance Error_eq_dec : EqDecision Error.
Proof. solve_decision. Defined.

(** [e.name] *)
Definition name (e : Error) : string :=
  match e with
  | QuotaExceededError => "QuotaExceededError"
  | AbortError => "AbortError"
  | NetworkError => "TypeError"
  | _ => "Error"
  end.

(** [blob.size], [value.byteLength] *)
Definition size (b : Bytes) : Z := Z.of_nat (length b).

(** [new Blob(parts)] *)
Definition Blob (parts : list Bytes) : Bytes := concat parts.

End JS.
Export JS.

(* ===================================================================== *)
(** ** v2/ChunkStore.ts *)
(* ===================================================================== *)
Module ChunkStore.

(** A record of the [metadata] object store.  [lastModified] is a reading of
    the wall clock that no operation consults; it is left out. *)
Record Metadata : Type := mkMetadata {
  url : string;
  totalBytes : num;
  downloadedBytes : Z;
  chunkCount : Z;
  etag : option string
}.

#[global] Instance Metadata_eq_dec : EqDecision Metadata.
Proof. solve_decision. Defined.

(** The IndexedDB database [texpen-downloads-v2]: the [metadata] store keyed
    by URL, the [chunks] store keyed by [[url, index]], and the origin's
    storage quota in bytes ([None]: unlimited). *)
Record DB : Type := mkDB {
  metadata : gmap string Metadata;
  chunks : gmap (string * Z) Bytes;
  quota : option Z
}.

Definition empty : DB := mkDB ∅ ∅ None.

(** Bytes held by the chunk table. *)
Definition usage (cs : gmap (string * Z) Bytes) : Z :=
  map_fold (fun _ b acc => acc + size b) 0 cs.

Definition within_quota (q : option Z) (cs : gmap (string * Z) Bytes) : bool :=
  match q with
  | None => true
  | Some limit => usage cs <=? limit
  end.

(** The metadata update of [appendChunk] (lines 55-101). *)
Definition updated_meta (old : option Metadata) (u : string) (chunk : Bytes)
    (index : Z) (total : num) (tag : option string) : Metadata :=
  let meta :=
    match old with
    | Some m => m
    | None => mkMetadata u total 0 0 tag
    end in
  let count := Z.max (chunkCount meta) (index + 1) in
  let downloaded :=
    if index =? 0 then size chunk
    else downloadedBytes meta + size chunk   (* [|| 0] is the identity here *)
    in
  mkMetadata (url meta) total downloaded count (etag meta).

(** [appendChunk(url, chunk, index, totalBytes, etag)]: one read-write
    transaction over both stores.  When the write would exceed the quota the
    transaction aborts with [QuotaExceededError] and neither store changes. *)
Definition appendChunk (db : DB) (u : string) (chunk : Bytes) (index : Z)
    (total : num) (tag : option string) : Error + DB :=
  let chunks' := <[(u, index) := chunk]> (chunks db) in
  if within_quota (quota db) chunks' then
    let meta := updated_meta (metadata db !! u) u chunk index total tag in
    inr (mkDB (<[u := meta]> (metadata db)) chunks' (quota db))
  else inl QuotaExceededError.

Definition getMetadata (db : DB) (u : string) : option Metadata :=
  metadata db !! u.

(** [clear(url)]: deletes every chunk whose key lies in
    [IDBKeyRange.bound([url, 0], [url, Infinity])], then the metadata. *)
Definition clear (db : DB) (u : string) : DB :=
  mkDB (delete u (metadata db))
       (filter (fun kv => ¬ (kv.1.1 = u ∧ 0 ≤ kv.1.2)) (chunks db))
       (quota db).

(** What one call of the stream's [pull(controller)] does. *)
Inductive Signal : Type :=
| Enqueue (b : Bytes)
| Close
| ErrorSignal (e : Error).

(** [pull] of the stream returned by [getStream(url, expectedChunks)], at the
    closure's current [index]; returns the signal and the new [index].  (A
    stored [Blob] is always truthy; a lookup in the map cannot throw.) *)
Definition pull (db : DB) (u : string) (expectedChunks index : Z) : Signal * Z :=
  if expectedChunks <=? index then (Close, index)
  else
    match chunks db !! (u, index) with
    | None => (ErrorSignal (MissingChunk index u), index)
    | Some chunk => (Enqueue chunk, index + 1)
    end.

(** How a drained stream ended. *)
Inductive StreamEnd : Type :=
| Closed
| Errored (e : Error)
| Unfinished.

#[global] Instance StreamEnd_eq_dec : EqDecision StreamEnd.
Proof. solve_decision. Defined.

(** A reader that calls [read()] until the stream is done or fails:
    everything enqueued, and how the stream ended.  [fuel] bounds the number
    of pulls. *)
Fixpoint drain (fuel : nat) (db : DB) (u : string) (expectedChunks index : Z)
    : list Bytes * StreamEnd :=
  match fuel with
  | O => ([], Unfinished)
  | S fuel' =>
      match pull db u expectedChunks index with
      | (Close, _) => ([], Closed)
      | (ErrorSignal e, _) => ([], Errored e)
      | (Enqueue b, index') =>
          let '(bs, fin) := drain fuel' db u expectedChunks index' in
          (b :: bs, fin)
      end
  end.

(** [getStream(url, expectedChunks)] read to its end: [expectedChunks + 1]
    pulls always suffice. *)
Definition getStream (db : DB) (u : string) (expectedChunks : Z)
    : list Bytes * StreamEnd :=
  drain (S (Z.to_nat expectedChunks)) db u expectedChunks 0.

End ChunkStore.

(* ===================================================================== *)
(** ** The HTTP side: what [fetch] is given and what it answers *)
(* ===================================================================== *)
Module Http.

(** The request headers the job sets: only [Range]. *)
Record Request : Type := mkRequest {
  req_url : string;
  range : option string
}.

#[global] Instance Request_eq_dec : EqDecision Request.
Proof. solve_decision. Defined.

(** The response headers the job reads. *)
Record Headers : Type := mkHeaders {
  content_length : option string;
  content_range : option string;
  etag_header : option string
}.

(** A body stream: the values [reader.read()] yields, then either
    [done] ([None]) or a rejection ([Some e]: the connection broke, or the
    request was aborted). *)
Definition Body : Type := list Bytes * option Error.

Record Response : Type := mkResponse {
  status : Z;
  headers : Headers;
  body : option Body
}.

(** [response.ok] *)
Definition ok (r : Response) : bool := (200 <=? status r) && (status r <=? 299).

(** [fetch(url, { signal, headers })]: rejects or answers. *)
Definition Fetch : Type := Request -> Error + Response.

End Http.

(* ===================================================================== *)
(** ** v2/DownloadJob.ts *)
(* ===================================================================== *)
Module DownloadJob.
Import ChunkStore Http.

Inductive DownloadStatus : Type :=
| pending
| running
| paused
| completed
| error.

#[global] Instance DownloadStatus_eq_dec : EqDecision DownloadStatus.
Proof. solve_decision. Defined.

(** [DownloadProgress]; [speed] is derived from the wall clock and left out. *)
Record DownloadProgress : Type := mkProgress {
  loaded : Z;
  total : num
}.

(** The fields of a [DownloadJob] that its own methods read and write.  The
    quota handler is modelled by the answer it resolves to. *)
Record Job : Type := mkJob {
  id : string;
  status : DownloadStatus;
  progress : DownloadProgress;
  last_error : option Error;
  memoryChunks : list Bytes;
  isMemoryMode : bool;
  quotaHandler : option bool
}.

(** [new DownloadJob(url, store)] *)
Definition new (u : string) : Job :=
  mkJob u pending (mkProgress 0 (Num 0)) None [] false None.

Definition setQuotaHandler (j : Job) (h : bool) : Job :=
  mkJob (id j) (status j) (progress j) (last_error j) (memoryChunks j)
        (isMemoryMode j) (Some h).

Definition set_status (j : Job) (s : DownloadStatus) (e : option Error) : Job :=
  mkJob (id j) s (progress j) e (memoryChunks j) (isMemoryMode j) (quotaHandler j).

Definition set_progress (j : Job) (p : DownloadProgress) : Job :=
  mkJob (id j) (status j) p (last_error j) (memoryChunks j) (isMemoryMode j)
        (quotaHandler j).

Definition add_loaded (j : Job) (n : Z) : Job :=
  set_progress j (mkProgress (loaded (progress j) + n) (total (progress j))).

Definition push_memory (j : Job) (bs : list Bytes) : Job :=
  mkJob (id j) (status j) (progress j) (last_error j) (memoryChunks j ++ bs)
        (isMemoryMode j) (quotaHandler j).

Definition enter_memory_mode (j : Job) : Job :=
  mkJob (id j) (status j) (progress j) (last_error j) (memoryChunks j) true
        (quotaHandler j).

(** [bufferSize]: 5MB buffered before a flush. *)
Definition bufferSize : Z := 5 * 1024 * 1024.

(** What a run of the job works on: the job object, the chunk store, and
    the requests it has issued so far (a ghost trace). *)
Record Run : Type := mkRun {
  job : Job;
  db : DB;
  requests : list Request
}.

(** The local variables of [_execute] that the read loop and [flush] share. *)
Record Loop : Type := mkLoop {
  run : Run;
  pendingChunks : list Bytes;
  pendingSize : Z;
  chunkIndex : Z
}.

Definition with_job (l : Loop) (j : Job) : Loop :=
  mkLoop (mkRun j (db (run l)) (requests (run l)))
         (pendingChunks l) (pendingSize l) (chunkIndex l).

Definition with_db (l : Loop) (d : DB) : Loop :=
  mkLoop (mkRun (job (run l)) d (requests (run l)))
         (pendingChunks l) (pendingSize l) (chunkIndex l).

Definition with_index (l : Loop) (i : Z) : Loop :=
  mkLoop (run l) (pendingChunks l) (pendingSize l) i.

(** [pendingChunks = []; pendingSize = 0] *)
Definition reset_pending (l : Loop) : Loop :=
  mkLoop (run l) [] 0 (chunkIndex l).

(** The closure [flush] (lines 172-220).  Returns the state it leaves and
    the error it throws, if any. *)
Definition flush (totalSize : num) (tag : option string) (l : Loop)
    : Loop * option Error :=
  match pendingChunks l with
  | [] => (l, None)
  | _ :: _ =>
      let blob := Blob (pendingChunks l) in
      let j := job (run l) in
      if isMemoryMode j then
        (reset_pending (with_job l (push_memory j [blob])), None)
      else
        (* [chunkIndex++] is evaluated before the call is made *)
        let index := chunkIndex l in
        let l1 := with_index l (index + 1) in
        match appendChunk (db (run l)) (id j) blob index totalSize tag with
        | inr db' => (reset_pending (with_db l1 db'), None)
        | inl e =>
            if bool_decide (name e = "QuotaExceededError") then
              match quotaHandler j with
              | Some allowed =>
                  if allowed then
                    let l2 := with_job l1 (enter_memory_mode j) in
                    (* recover the chunks already in the store *)
                    let '(values, fin) :=
                      getStream (db (run l2)) (id j) (chunkIndex l2) in
                    let l3 :=
                      with_job l2
                        (push_memory (job (run l2))
                           (map (fun v => Blob [v]) values)) in
                    match fin with
                    | Closed =>
                        let l4 := with_db l3 (clear (db (run l3)) (id j)) in
                        let l5 :=
                          with_job l4 (push_memory (job (run l4)) [blob]) in
                        (reset_pending (with_index l5 (chunkIndex l5 + 1)), None)
                    | _ => (l3, Some e)
                    end
                  else (l1, Some e)
              | None => (l1, Some e)
              end
            else (l1, Some e)
        end
  end.

(** The read loop (lines 225-250) over the values the body yields (a
    [Uint8Array] is always truthy, so every value is buffered). *)
Fixpoint consume (totalSize : num) (tag : option string)
    (reads : list Bytes) (fin : option Error) (l : Loop)
    : Loop * option Error :=
  match reads with
  | [] =>
      match fin with
      | None => flush totalSize tag l
      | Some e => (l, Some e)
      end
  | value :: reads' =>
      let l1 :=
        mkLoop (mkRun (add_loaded (job (run l)) (size value))
                      (db (run l)) (requests (run l)))
               (pendingChunks l ++ [value])
               (pendingSize l + size value)
               (chunkIndex l) in
      if bufferSize <=? pendingSize l1 then
        match flush totalSize tag l1 with
        | (l2, None) => consume totalSize tag reads' fin l2
        | (l2, Some e) => (l2, Some e)
        end
      else consume totalSize tag reads' fin l1
  end.

(** How a call of [_execute] ends. *)
Inductive Completion : Type :=
| Returned
| Threw (e : Error)
| OutOfFuel.

#[global] Instance Completion_eq_dec : EqDecision Completion.
Proof. solve_decision. Defined.

(** The [Range] header of a resumed request. *)
Definition range_header (startByte : Z) : string :=
  "bytes=" +:+ pretty startByte +:+ "-".

(** [serverSize] of a 416 answer: the number after the star and slash of
    [Content-Range], when the header is there and matches. *)
Definition server_size (h : Headers) : option num :=
  match present (content_range h) with
  | Some contentRange =>
      match match_star_slash_digits contentRange with
      | Some digits => Some (parseInt digits)
      | None => None
      end
  | None => None
  end.

(** Step 1 of [_execute] (lines 84-96): [startByte], [chunkIndex] and the
    store after the resumption check. *)
Definition resumption (d : DB) (u : string) : Z * Z * DB :=
  match getMetadata d u with
  | Some meta =>
      if 0 <? downloadedBytes meta then
        (downloadedBytes meta, chunkCount meta, d)
      else (0, 0, clear d u)
  | None => (0, 0, d)
  end.

(** [totalSize] (lines 134-137). *)
Definition total_size (response : Response) (meta : option Metadata)
    (startByte : Z) : num :=
  match present (content_length (headers response)) with
  | Some contentLength => add (parseInt contentLength) (Num startByte)
  | None =>
      or0 (match meta with
           | Some m => totalBytes m
           | None => Num 0
           end)
  end.

(** [meta && meta.etag && etag && meta.etag !== etag] (line 140). *)
Definition etag_changed (meta : option Metadata) (tag : option string) : bool :=
  match meta with
  | Some m =>
      match present (etag m), present tag with
      | Some old, Some new_ => negb (String.eqb old new_)
      | _, _ => false
      end
  | None => false
  end.

(** The rest of [_execute] once the response is [ok] (lines 134-251). *)
Definition receive (response : Response) (meta : option Metadata)
    (startByte chunkIndex0 : Z) (r1 : Run) : Run * Completion :=
  let u := id (job r1) in
  let totalSize := total_size response meta startByte in
  let tag := etag_header (headers response) in
  if etag_changed meta tag then
    (mkRun (job r1) (clear (db r1) u) (requests r1), Threw ETagMismatch)
  else
    (* 200 although a range was asked for: the server ignored it *)
    let ignored := (0 <? startByte) && (Http.status response =? 200) in
    let db2 := if ignored then clear (db r1) u else db r1 in
    let startByte' := if ignored then 0 else startByte in
    let chunkIndex' := if ignored then 0 else chunkIndex0 in
    let r2 :=
      mkRun (set_progress (job r1) (mkProgress startByte' totalSize))
            db2 (requests r1) in
    match body response with
    | None => (r2, Threw NoResponseBody)
    | Some (reads, fin) =>
        let '(l, thrown) :=
          consume totalSize tag reads fin (mkLoop r2 [] 0 chunkIndex') in
        match thrown with
        | None => (run l, Returned)
        | Some e => (run l, Threw e)
        end
    end.

(** [_execute()] (lines 82-251).  [fuel] bounds the depth of the recursive
    restart after a 416 answer. *)
Fixpoint _execute (fuel : nat) (fetch : Fetch) (r : Run) : Run * Completion :=
  match fuel with
  | O => (r, OutOfFuel)
  | S fuel' =>
      let u := id (job r) in
      (* 1. Check for resumption *)
      let meta := getMetadata (db r) u in
      let '(startByte, chunkIndex0, db1) := resumption (db r) u in
      let req :=
        mkRequest u (if 0 <? startByte then Some (range_header startByte)
                     else None) in
      let r1 := mkRun (job r) db1 (requests r ++ [req]) in
      match fetch req with
      | inl e => (r1, Threw e)
      | inr response =>
          if negb (ok response) then
            if Http.status response =? 416 then
              let done :=
                match server_size (headers response) with
                | Some serverSize =>
                    if ge (Num startByte) serverSize then Some serverSize
                    else None
                | None => None
                end in
              match done with
              | Some (Num serverSize) =>
                  (mkRun (set_progress (job r1)
                            (mkProgress serverSize (Num serverSize)))
                         (db r1) (requests r1),
                   Returned)
              | _ =>
                  _execute fuel' fetch
                    (mkRun (job r1) (clear (db r1) u) (requests r1))
              end
            else (r1, Threw (FetchFailed (Http.status response)))
          else receive response meta startByte chunkIndex0 r1
      end
  end.

(** Which callback [start()] ends up invoking, and with what. *)
Inductive Outcome : Type :=
| Complete (result : option Bytes)     (* onCompleteCallback(result?) *)
| Failed (e : Error)                   (* onErrorCallback(e) *)
| Paused                               (* aborted: no callback *)
| Ignored                              (* already running or completed *)
| Diverges.                            (* the restart recursion never ends *)

#[global] Instance Outcome_eq_dec : EqDecision Outcome.
Proof. solve_decision. Defined.

(** [start()] (lines 48-74). *)
Definition start (fuel : nat) (fetch : Fetch) (r : Run) : Run * Outcome :=
  match status (job r) with
  | running | completed => (r, Ignored)
  | _ =>
      let r0 := mkRun (set_status (job r) running None) (db r) (requests r) in
      match _execute fuel fetch r0 with
      | (r1, Returned) =>
          let j := set_status (job r1) completed None in
          (mkRun j (db r1) (requests r1),
           Complete (if isMemoryMode j then Some (Blob (memoryChunks j))
                     else None))
      | (r1, Threw e) =>
          if bool_decide (name e = "AbortError") then
            (mkRun (set_status (job r1) paused None) (db r1) (requests r1),
             Paused)
          else
            (mkRun (set_status (job r1) error (Some e)) (db r1) (requests r1),
             Failed e)
      | (r1, OutOfFuel) => (r1, Diverges)
      end
  end.

End DownloadJob.

(* ===================================================================== *)
(** ** The Cache API cache ([caches.open(cacheName)]) *)
(* ===================================================================== *)
Module CacheStorage.
Import ChunkStore.

(** A stored response: its bytes and the headers the downloader sets and
    reads. *)
Record CachedResponse : Type := mkCached {
  body : Bytes;
  content_length : option string;
  content_type : option string
}.

#[global] Instance CachedResponse_eq_dec : EqDecision CachedResponse.
Proof. solve_decision. Defined.

(** The body a [Response] is constructed from: a blob, or a stream (given by
    what it yields when read to its end). *)
Inductive BodyInit : Type :=
| FromBlob (b : Bytes)
| FromStream (values : list Bytes) (fin : StreamEnd).

(** [cache.put(url, response)]: reads the body to its end and stores the
    response; rejects, storing nothing, when the body stream fails.  (A
    stream of [getStream] is never [Unfinished].) *)
Definition put (c : gmap string CachedResponse) (u : string) (b : BodyInit)
    (len type : option string) : Error + gmap string CachedResponse :=
  match b with
  | FromBlob bytes => inr (<[u := mkCached bytes len type]> c)
  | FromStream values Closed => inr (<[u := mkCached (concat values) len type]> c)
  | FromStream _ (Errored e) => inl e
  | FromStream _ Unfinished => inl NetworkError
  end.

End CacheStorage.

(* ===================================================================== *)
(** ** v2/DownloadScheduler (the variant with [setQuotaHandler]) *)
(* ===================================================================== *)
Module DownloadScheduler.
Import DownloadJob.

Definition MAX_CONCURRENT : Z := 3.

(** The promise a call of [waitForJob] returns. *)
Inductive PromiseState : Type :=
| Unsettled
| Fulfilled (result : option Bytes)
| RejectedWith (e : Error).

#[global] Instance PromiseState_eq_dec : EqDecision PromiseState.
Proof. solve_decision. Defined.

(** The three closures one call of [waitForJob] hands to [setCallbacks]:
    they forward progress to that caller's listener (named by a number) and
    settle that call's promise (an index into [promises]). *)
Record Callbacks : Type := mkCallbacks {
  promise : nat;
  onProgress : option nat
}.

(** A job object on the heap: the job and the callbacks last set on it. *)
Record JobObject : Type := mkJobObject {
  the_job : Job;
  callbacks : option Callbacks
}.

(** The singleton scheduler.  Job objects live in [heap] and are referred
    to by their index, so that [jobs] and [queue] share them. *)
Record Scheduler : Type := mkScheduler {
  heap : list JobObject;
  jobs : gmap string nat;
  queue : list nat;
  activeCount : Z;
  quotaHandler : option bool;
  promises : list PromiseState
}.

Definition init : Scheduler := mkScheduler [] ∅ [] 0 None [].

Definition setQuotaHandler (s : Scheduler) (h : bool) : Scheduler :=
  mkScheduler (heap s) (jobs s) (queue s) (activeCount s) (Some h) (promises s).

(** The synchronous part of [job.start()]: up to the first [await]. *)
Definition start_sync (o : JobObject) : JobObject :=
  match status (the_job o) with
  | running | completed => o
  | _ => mkJobObject (set_status (the_job o) running None) (callbacks o)
  end.

Definition start_ref (h : list JobObject) (r : nat) : list JobObject :=
  match h !! r with
  | Some o => <[r := start_sync o]> h
  | None => h
  end.

(** [processQueue()]: the recursion shifts one queued job per call. *)
Fixpoint processQueue_loop (q : list nat) (h : list JobObject) (active : Z)
    : list nat * list JobObject * Z :=
  if MAX_CONCURRENT <=? active then (q, h, active)
  else
    match q with
    | [] => (q, h, active)
    | r :: q' => processQueue_loop q' (start_ref h r) (active + 1)
    end.

Definition processQueue (s : Scheduler) : Scheduler :=
  let '(q, h, a) := processQueue_loop (queue s) (heap s) (activeCount s) in
  mkScheduler h (jobs s) q a (quotaHandler s) (promises s).

(** [waitForJob(job, onProgress)]: a new promise, and [setCallbacks]
    replaces whatever callbacks the job had. *)
Definition waitForJob (s : Scheduler) (r : nat) (listener : option nat)
    : Scheduler * nat :=
  let p := length (promises s) in
  let h :=
    match heap s !! r with
    | Some o => <[r := mkJobObject (the_job o) (Some (mkCallbacks p listener))]> (heap s)
    | None => heap s
    end in
  (mkScheduler h (jobs s) (queue s) (activeCount s) (quotaHandler s)
               (promises s ++ [Unsettled]),
   p).

(** [download(url, onProgress)]; returns the promise handed to the caller. *)
Definition download (s : Scheduler) (u : string) (listener : option nat)
    : Scheduler * nat :=
  match jobs s !! u with
  | Some r => waitForJob s r listener
  | None =>
      let j0 := DownloadJob.new u in
      let j :=
        match quotaHandler s with
        | Some h => DownloadJob.setQuotaHandler j0 h
        | None => j0
        end in
      let r := length (heap s) in
      let s1 :=
        mkScheduler (heap s ++ [mkJobObject j None]) (<[u := r]> (jobs s))
                    (queue s ++ [r]) (activeCount s) (quotaHandler s)
                    (promises s) in
      waitForJob (processQueue s1) r listener
  end.

(** [resolve(result)] / [reject(err)] of a promise. *)
Definition settle_promise (ps : list PromiseState) (p : nat)
    (v : PromiseState) : list PromiseState :=
  match ps !! p with
  | Some Unsettled => <[p := v]> ps
  | _ => ps
  end.

(** The bookkeeping shared by the completion and the error closure:
    [jobs.delete(job.id); activeCount--; processQueue()], then the promise
    of the closure is settled. *)
Definition closure (s : Scheduler) (u : string) (c : Callbacks)
    (v : PromiseState) : Scheduler :=
  let s1 :=
    processQueue
      (mkScheduler (heap s) (delete u (jobs s)) (queue s) (activeCount s - 1)
                   (quotaHandler s) (promises s)) in
  mkScheduler (heap s1) (jobs s1) (queue s1) (activeCount s1) (quotaHandler s1)
              (settle_promise (promises s1) (promise c) v).

Definition set_job (s : Scheduler) (r : nat) (o : JobObject) : Scheduler :=
  mkScheduler (<[r := o]> (heap s)) (jobs s) (queue s) (activeCount s)
              (quotaHandler s) (promises s).

(** The end of the asynchronous part of [start()] of the running job [r]:
    the job sets its status and invokes the callback it holds.  [None] when
    [r] is not a running job. *)
Definition settle (s : Scheduler) (r : nat) (o : Outcome) : option Scheduler :=
  match heap s !! r with
  | Some obj =>
      if bool_decide (status (the_job obj) = running) then
        match o with
        | Complete result =>
            let obj' := mkJobObject (set_status (the_job obj) completed None)
                                    (callbacks obj) in
            let s1 := set_job s r obj' in
            Some match callbacks obj with
                 | Some c => closure s1 (id (the_job obj)) c (Fulfilled result)
                 | None => s1
                 end
        | Failed e =>
            let obj' := mkJobObject (set_status (the_job obj) error (Some e))
                                    (callbacks obj) in
            let s1 := set_job s r obj' in
            Some match callbacks obj with
                 | Some c => closure s1 (id (the_job obj)) c (RejectedWith e)
                 | None => s1
                 end
        | Paused =>
            Some (set_job s r (mkJobObject (set_status (the_job obj) paused None)
                                           (callbacks obj)))
        | Ignored | Diverges => None
        end
      else None
  | None => None
  end.

(** Number of job objects whose status is [st]. *)
Definition count_status (st : DownloadStatus) (h : list JobObject) : Z :=
  Z.of_nat (length (filter (fun o => status (the_job o) = st) h)).

(** Jobs in state [running] / [paused]. *)
Definition running_count (s : Scheduler) : Z := count_status running (heap s).
Definition paused_count (s : Scheduler) : Z := count_status paused (heap s).

(** The states the scheduler can be in: any interleaving of calls of
    [setQuotaHandler] and [download] with running jobs completing, failing
    or being aborted. *)
Inductive reachable : Scheduler -> Prop :=
| reach_init : reachable init
| reach_handler s h : reachable s -> reachable (setQuotaHandler s h)
| reach_download s u l : reachable s -> reachable (download s u l).1
| reach_settle s r o s' : reachable s -> settle s r o = Some s' -> reachable s'.

End DownloadScheduler.

(* ===================================================================== *)
(** ** DownloadManager.ts (the variant that delegates to the scheduler) *)
(* ===================================================================== *)
Module DownloadManager.
Import ChunkStore Http DownloadJob CacheStorage.

(** The two persistent stores of the origin. *)
Record World : Type := mkWorld {
  cache : gmap string CachedResponse;
  store : DB
}.

(** How the promise of an [async] method ends. *)
Inductive Settled : Type :=
| Resolved
| Rejected (e : Error)
| NeverSettles.

#[global] Instance Settled_eq_dec : EqDecision Settled.
Proof. solve_decision. Defined.

(** [finalizeCache(url, cache, memoryBlob?)] (lines 218-254). *)
Definition finalizeCache (w : World) (u : string) (memoryBlob : option Bytes)
    : World * option Error :=
  let prepared : Error + (BodyInit * num) :=
    match memoryBlob with
    | Some blob => inr (FromBlob blob, Num (size blob))
    | None =>
        match getMetadata (store w) u with
        | None => inl (MetadataMissing u)
        | Some meta =>
            if strict_ne (Num (downloadedBytes meta)) (totalBytes meta) then
              inl (IntegrityCheckFailed (downloadedBytes meta) (totalBytes meta))
            else
              let '(values, fin) := getStream (store w) u (chunkCount meta) in
              inr (FromStream values fin, totalBytes meta)
        end
    end in
  match prepared with
  | inl e => (w, Some e)
  | inr (b, len) =>
      match put (cache w) u b (Some (toString len))
                (Some "application/octet-stream") with
      | inl e => (w, Some e)
      | inr cache' => (mkWorld cache' (clear (store w) u), None)
      end
  end.

(** [expectedSize > 0] for a cached response (lines 195-200). *)
Definition cached_nonempty (r : CachedResponse) : bool :=
  let expectedSize :=
    match present (content_length r) with
    | Some contentLength => parseInt contentLength
    | None => Num 0
    end in
  match expectedSize with
  | Num z => 0 <? z
  | NaN => false
  end.

(** Steps 2 and 3 of [downloadFile] (lines 203-215) for a caller whose URL
    the scheduler is not tracking while a slot is free: [download] then
    creates the job, hands it the quota handler, starts it at once, and the
    promise it returns is settled by the callback the job invokes; the
    result goes to [finalizeCache].  Returns the world, how the caller's
    promise ends, and the requests made. *)
Definition delegate (fuel : nat) (fetch : Fetch) (handler : option bool)
    (w : World) (u : string) : World * Settled * list Request :=
  let j0 := DownloadJob.new u in
  let j :=
    match handler with
    | Some h => DownloadJob.setQuotaHandler j0 h
    | None => j0
    end in
  let '(r, outcome) := start fuel fetch (mkRun j (store w) []) in
  let w1 := mkWorld (cache w) (db r) in
  match outcome with
  | Complete result =>
      let '(w2, thrown) := finalizeCache w1 u result in
      (w2,
       match thrown with
       | None => Resolved
       | Some e => Rejected e
       end,
       requests r)
  | Failed e => (w1, Rejected e, requests r)
  | Paused | Ignored | Diverges => (w1, NeverSettles, requests r)
  end.

(** Step 1 of [downloadFile] (lines 189-201): is a non-empty response for
    the URL already in the cache? *)
Definition cache_hit (w : World) (u : string) : bool :=
  match cache w !! u with
  | Some cachedResponse => cached_nonempty cachedResponse
  | None => false
  end.

(** [downloadFile(url, onProgress)] (lines 188-216). *)
Definition downloadFile (fuel : nat) (fetch : Fetch) (handler : option bool)
    (w : World) (u : string) : World * Settled * list Request :=
  if cache_hit w u then (w, Resolved, [])
  else delegate fuel fetch handler w u.

(** The answer of [checkCacheIntegrity]. *)
Inductive Integrity : Type :=
| IntegrityOk                                   (* { ok: true } *)
| Missing                                       (* { ok: false, missing: true } *)
| SizeMismatch (expected : num) (got : Z).      (* { ok: false, reason } *)

#[global] Instance Integrity_eq_dec : EqDecision Integrity.
Proof. solve_decision. Defined.

(** [checkCacheIntegrity(url)] (lines 256-276). *)
Definition checkCacheIntegrity (c : gmap string CachedResponse) (u : string)
    : Integrity :=
  match c !! u with
  | None => Missing
  | Some cachedResponse =>
      match present (content_length cachedResponse) with
      | Some contentLength =>
          let expectedSize := parseInt contentLength in
          let blob := body cachedResponse in
          if strict_ne (Num (size blob)) expectedSize then
            SizeMismatch expectedSize (size blob)
          else IntegrityOk
      | None => IntegrityOk
      end
  end.

End DownloadManager.

(* ===================================================================== *)
(** * Properties *)
(* ===================================================================== *)

(** ** Bytes *)

Lemma size_app (a b : Bytes) : size (a ++ b) = size a + size b.
Proof. unfold size. rewrite length_app. lia. Qed.

Lemma size_nonneg (a : Bytes) : 0 ≤ size a.
Proof. unfold size. lia. Qed.

Lemma size_zero_nil (a : Bytes) : size a = 0 → a = [].
Proof. unfold size. destruct a; simpl; [done|lia]. Qed.

Lemma concat_snoc (cl : list Bytes) (b : Bytes) :
  concat (cl ++ [b]) = concat cl ++ b.
Proof. rewrite concat_app. simpl. by rewrite app_nil_r. Qed.

Lemma drop_size_app (a b : Bytes) : drop (Z.to_nat (size a)) (a ++ b) = b.
Proof. unfold size. rewrite Nat2Z.id. apply drop_app_length. Qed.

(** ** The chunk stream *)
Section Stream.
Import ChunkStore.

(** What a drained stream yields from position [i] on: the stored chunks
    while there are some, up to [n]; it closes at [n] and fails at the first
    gap. *)
Lemma drain_spec fuel db u n i :
  0 ≤ i → (Z.to_nat (n - i) < fuel)%nat →
  ∃ out fin, drain fuel db u n i = (out, fin) ∧
    (∀ k : nat, (k < length out)%nat →
       chunks db !! (u, i + Z.of_nat k) = out !! k) ∧
    i + Z.of_nat (length out) ≤ Z.max i n ∧
    match fin with
    | Closed => n ≤ i + Z.of_nat (length out)
    | Errored e =>
        e = MissingChunk (i + Z.of_nat (length out)) u ∧
        i + Z.of_nat (length out) < n ∧
        chunks db !! (u, i + Z.of_nat (length out)) = None
    | Unfinished => False
    end.
Proof.
  revert i. induction fuel as [|fuel IH]; intros i Hi Hfuel; [lia|].
  simpl. unfold pull.
  destruct (Z.leb_spec n i) as [Hle|Hlt].
  - exists [], Closed. simpl. repeat split; try lia.
  - destruct (chunks db !! (u, i)) as [c|] eqn:Hc.
    + destruct (IH (i + 1)) as (out & fin & Hd & Hout & Hlen & Hfin); [lia|lia|].
      rewrite Hd. exists (c :: out), fin. simpl length.
      split; [done|]. split; [|split].
      * intros [|k] Hk; simpl.
        -- rewrite Z.add_0_r. done.
        -- rewrite <- Hout by (simpl in Hk; lia). f_equal. f_equal. lia.
      * lia.
      * destruct fin as [|e|]; [lia| |done].
        destruct Hfin as (-> & ? & Hnone).
        replace (i + Z.of_nat (S (length out)))
          with (i + 1 + Z.of_nat (length out)) by lia.
        done.
    + exists [], (Errored (MissingChunk i u)). simpl.
      rewrite !Z.add_0_r. repeat split; try lia; try done.
Qed.

Lemma getStream_spec db u n :
  ∃ out fin, getStream db u n = (out, fin) ∧
    (∀ k : nat, (k < length out)%nat →
       chunks db !! (u, Z.of_nat k) = out !! k) ∧
    Z.of_nat (length out) ≤ Z.max 0 n ∧
    match fin with
    | Closed => n ≤ Z.of_nat (length out)
    | Errored e =>
        e = MissingChunk (Z.of_nat (length out)) u ∧
        Z.of_nat (length out) < n ∧
        chunks db !! (u, Z.of_nat (length out)) = None
    | Unfinished => False
    end.
Proof.
  destruct (drain_spec (S (Z.to_nat n)) db u n 0)
    as (out & fin & Hd & Hout & Hlen & Hfin); [lia|lia|].
  exists out, fin. split; [done|]. split; [|split; [lia|]].
  - intros k Hk. by rewrite <- Hout.
  - destruct fin; [lia| |done]. by rewrite !Z.add_0_l in Hfin.
Qed.

(** The reader of a [getStream] stream always sees its end. *)
Lemma getStream_finishes db u n : (getStream db u n).2 ≠ Unfinished.
Proof.
  destruct (getStream_spec db u n) as (out & fin & -> & _ & _ & Hfin).
  simpl. by destruct fin.
Qed.

(** C9: the stream of [getStream(url, expectedChunks)] emits the stored
    chunks at the indices 0, 1, ... below [expectedChunks], in this order,
    and then closes; when some index in that range holds no chunk, it emits
    the chunks before the first such index [i] and then fails with the
    missing-chunk error that names [i]. *)
Theorem getStream_emits_stored_chunks_in_order db u expectedChunks :
  ((∀ i, 0 ≤ i < expectedChunks → is_Some (chunks db !! (u, i))) →
   ∃ out, getStream db u expectedChunks = (out, Closed) ∧
     length out = Z.to_nat expectedChunks ∧
     ∀ k : nat, (k < length out)%nat → out !! k = chunks db !! (u, Z.of_nat k))
  ∧
  (∀ i, 0 ≤ i < expectedChunks →
     chunks db !! (u, i) = None →
     (∀ j, 0 ≤ j < i → is_Some (chunks db !! (u, j))) →
     ∃ out, getStream db u expectedChunks = (out, Errored (MissingChunk i u)) ∧
       length out = Z.to_nat i ∧
       ∀ k : nat, (k < length out)%nat → out !! k = chunks db !! (u, Z.of_nat k)).
Proof.
  destruct (getStream_spec db u expectedChunks)
    as (out & fin & Hd & Hout & Hlen & Hfin).
  assert (Hout' : ∀ k : nat, (k < length out)%nat →
            out !! k = chunks db !! (u, Z.of_nat k)).
  { intros k Hk. symmetry. apply (Hout k Hk). }
  split.
  - intros Hall. exists out. destruct fin as [|e|]; [|exfalso|done].
    + repeat split; [done|lia|done].
    + destruct Hfin as (_ & Hlt & Hnone).
      destruct (Hall (Z.of_nat (length out))) as [c Hc]; [lia|congruence].
  - intros i Hi Hnone Hbefore. exists out.
    assert (Hlen_i : Z.of_nat (length out) = i).
    { destruct (Z.lt_trichotomy (Z.of_nat (length out)) i) as [Hlt|[Heq|Hgt]];
        [|done|].
      - exfalso. destruct fin as [|e|]; [lia| |done].
        destruct Hfin as (_ & _ & Hn).
        destruct (Hbefore (Z.of_nat (length out))) as [c Hc]; [lia|congruence].
      - exfalso. assert (Hk : (Z.to_nat i < length out)%nat) by lia.
        pose proof (Hout' _ Hk) as Heq. rewrite Z2Nat.id in Heq by lia.
        rewrite Hnone in Heq. apply lookup_lt_is_Some_2 in Hk.
        destruct Hk as [c Hc]. congruence. }
    destruct fin as [|e|]; [lia| |done].
    destruct Hfin as (He & _ & _). rewrite Hlen_i in He. subst e.
    repeat split; [done|lia|done].
Qed.

End Stream.

(** ** Sample data *)
Module Sample.
Import ChunkStore.

Definition bytes (s : string) : Bytes := list_byte_of_string s.

Definition model_url : string := "https://example.com/model.onnx".

(** Chunks 0, 1 and 3 of a download are stored; chunk 2 is not. *)
Definition gapped : DB :=
  mkDB {[ model_url := mkMetadata model_url (Num 12) 9 4 None ]}
       (<[(model_url, 3) := bytes "jkl"]>
          (<[(model_url, 1) := bytes "def"]>
             {[ (model_url, 0) := bytes "abc" ]}))
       None.

(** A download interrupted after its first chunk: 5 of 10 bytes stored. *)
Definition partial : DB :=
  mkDB {[ model_url := mkMetadata model_url (Num 10) 5 1 None ]}
       {[ (model_url, 0) := bytes "start" ]}
       None.

End Sample.

Lemma getStream_emits_stored_chunks_in_order_witness :
  (∃ out, ChunkStore.getStream Sample.gapped Sample.model_url 2
          = (out, ChunkStore.Closed) ∧ length out = 2%nat) ∧
  (∃ out, ChunkStore.getStream Sample.gapped Sample.model_url 4
          = (out, ChunkStore.Errored (MissingChunk 2 Sample.model_url)) ∧
          length out = 2%nat).
Proof.
  split.
  - destruct (getStream_emits_stored_chunks_in_order
                Sample.gapped Sample.model_url 2) as [Hall _].
    destruct Hall as (out & Hout & Hlen & _).
    + intros i Hi. assert (i = 0 ∨ i = 1) as [-> | ->] by lia;
        vm_compute; eauto.
    + exists out. split; [exact Hout|exact Hlen].
  - destruct (getStream_emits_stored_chunks_in_order
                Sample.gapped Sample.model_url 4) as [_ Hgap].
    destruct (Hgap 2) as (out & Hout & Hlen & _).
    + lia.
    + vm_compute. reflexivity.
    + intros j Hj. assert (j = 0 ∨ j = 1) as [-> | ->] by lia;
        vm_compute; eauto.
    + exists out. split; [exact Hout|exact Hlen].
Defined.

(** ** [appendChunk] *)
Section Append.
Import ChunkStore.

(** The metadata update as the specification words it: the chunk count is
    the maximum with [index + 1], the downloaded bytes grow by the size of
    the chunk whatever the index, and the total is replaced only by a
    non-zero value. *)
Definition summed_meta (old : option Metadata) (u : string) (chunk : Bytes)
    (index : Z) (total : num) (tag : option string) : Metadata :=
  let meta :=
    match old with
    | Some m => m
    | None => mkMetadata u (Num 0) 0 0 tag
    end in
  mkMetadata (url meta)
             (match total with
              | Num 0 => totalBytes meta
              | _ => total
              end)
             (downloadedBytes meta + size chunk)
             (Z.max (chunkCount meta) (index + 1))
             (etag meta).

(** C5, as the code has it: a committed [appendChunk] stores the chunk and
    leaves a metadata record whose chunk count is the maximum of the old
    count (0 when there was no record) and [index + 1], whose total is the
    value supplied (zero included), and whose downloaded bytes are the size
    of the chunk when [index] is 0 and the old value (0 when there was no
    record) plus the size of the chunk otherwise. *)
Theorem appendChunk_updates_metadata db u chunk index total tag db' :
  appendChunk db u chunk index total tag = inr db' →
  chunks db' !! (u, index) = Some chunk ∧
  ∃ meta, getMetadata db' u = Some meta ∧
    chunkCount meta
    = Z.max (from_option chunkCount 0 (getMetadata db u)) (index + 1) ∧
    totalBytes meta = total ∧
    downloadedBytes meta
    = (if decide (index = 0) then size chunk
       else from_option downloadedBytes 0 (getMetadata db u) + size chunk).
Proof.
  unfold appendChunk, getMetadata. intros Happ.
  destruct (within_quota _ _); [|done]. injection Happ as <-. simpl.
  rewrite !lookup_insert_eq. split; [done|]. eexists. split; [done|].
  unfold updated_meta. simpl.
  destruct (metadata db !! u) as [m|]; simpl;
    (split; [done|]); (split; [done|]);
    destruct (Z.eqb_spec index 0); case_decide; done.
Qed.

Lemma appendChunk_updates_metadata_witness :
  ∃ db',
    appendChunk Sample.partial Sample.model_url (Sample.bytes "end!!") 1
                (Num 10) None = inr db' ∧
    (downloadedBytes <$> getMetadata db' Sample.model_url) = Some 10 ∧
    (chunkCount <$> getMetadata db' Sample.model_url) = Some 2.
Proof.
  destruct (appendChunk Sample.partial Sample.model_url (Sample.bytes "end!!") 1
              (Num 10) None) as [e|db'] eqn:Happ;
    [vm_compute in Happ; discriminate|].
  exists db'. split; [reflexivity|].
  destruct (appendChunk_updates_metadata _ _ _ _ _ _ _ Happ)
    as (_ & meta & Hmeta & Hcount & _ & Hdown).
  rewrite Hmeta. simpl. rewrite Hcount, Hdown. split; reflexivity.
Defined.

(** C5 as stated fails: writing chunk 0 again over a record that already
    counts 5 bytes leaves [downloadedBytes = 3], where the sum rule of the
    claim gives 8; and a supplied total of 0 replaces the recorded 10. *)
Lemma appendChunk_index0_restarts_the_sum :
  ∃ db',
    appendChunk Sample.partial Sample.model_url (Sample.bytes "abc") 0
                (Num 0) None = inr db' ∧
    getMetadata db' Sample.model_url
    = Some (mkMetadata Sample.model_url (Num 0) 3 1 None) ∧
    summed_meta (getMetadata Sample.partial Sample.model_url) Sample.model_url
                (Sample.bytes "abc") 0 (Num 0) None
    = mkMetadata Sample.model_url (Num 10) 8 1 None.
Proof. eexists. split; [reflexivity|]. split; vm_compute; reflexivity. Qed.

End Append.

(** ** [checkCacheIntegrity] *)
Section Integrity.
Import CacheStorage DownloadManager.

(** C10: for a cached response without a [Content-Length] header,
    [checkCacheIntegrity] answers ok whatever the size of the stored body;
    a size mismatch is only ever reported against a header that is there. *)
Theorem checkCacheIntegrity_skips_size_without_content_length
    (c : gmap string CachedResponse) (u : string) :
  (∀ r, c !! u = Some r → content_length r = None →
        checkCacheIntegrity c u = IntegrityOk) ∧
  (∀ expected got, checkCacheIntegrity c u = SizeMismatch expected got →
     ∃ r header, c !! u = Some r ∧ content_length r = Some header ∧
       expected = parseInt header ∧ got = size (body r)).
Proof.
  unfold checkCacheIntegrity. split.
  - intros r -> ->. done.
  - intros expected got. destruct (c !! u) as [r|]; [|done].
    unfold present. destruct (content_length r) as [header|] eqn:Hcl; [|done].
    destruct (truthy header); [|done].
    destruct (strict_ne _ _); [|done].
    intros [= <- <-]. exists r, header. done.
Qed.

Lemma checkCacheIntegrity_skips_size_without_content_length_witness :
  checkCacheIntegrity
    {[ Sample.model_url := mkCached (Sample.bytes "abc") None None ]}
    Sample.model_url
  = IntegrityOk.
Proof.
  apply (checkCacheIntegrity_skips_size_without_content_length _ _)
    with (r := mkCached (Sample.bytes "abc") None None); reflexivity.
Defined.

End Integrity.

(** ** The scheduler *)
Section Scheduler.
Import DownloadJob DownloadScheduler.

Lemma filter_length_insert {A} (P : A → Prop) `{!∀ x, Decision (P x)}
    (l : list A) (i : nat) (x y : A) :
  l !! i = Some y →
  (length (filter P (<[i:=x]> l)) + (if decide (P y) then 1 else 0)
   = length (filter P l) + (if decide (P x) then 1 else 0))%nat.
Proof.
  revert i. induction l as [|a l IH]; intros [|i] Hi; simplify_eq/=.
  - rewrite !filter_cons. destruct (decide (P x)), (decide (P y)); simpl; lia.
  - rewrite !filter_cons. specialize (IH i Hi).
    destruct (decide (P a)); simpl; lia.
Qed.

Lemma count_status_insert st (h : list JobObject) r o o' :
  h !! r = Some o →
  count_status st (<[r := o']> h)
  = count_status st h
    - (if decide (status (the_job o) = st) then 1 else 0)
    + (if decide (status (the_job o') = st) then 1 else 0).
Proof.
  intros Hr. unfold count_status.
  pose proof (filter_length_insert (fun o => status (the_job o) = st) h r o' o Hr).
  repeat case_decide; lia.
Qed.

Lemma count_status_app st (h1 h2 : list JobObject) :
  count_status st (h1 ++ h2) = count_status st h1 + count_status st h2.
Proof. unfold count_status. rewrite filter_app, length_app. lia. Qed.

Lemma count_status_nonneg st h : 0 ≤ count_status st h.
Proof. unfold count_status. lia. Qed.

(** Every queued reference points at a job that has not been started. *)
Definition queued_pending (q : list nat) (h : list JobObject) : Prop :=
  ∀ r, r ∈ q → ∃ o, h !! r = Some o ∧ status (the_job o) = pending.

(** What holds of the scheduler between two events. *)
Record SchedInv (s : Scheduler) : Prop := mkSchedInv {
  inv_queue : queued_pending (queue s) (heap s);
  inv_nodup : NoDup (queue s);
  inv_callbacks : ∀ r o, heap s !! r = Some o → is_Some (callbacks o);
  inv_active : activeCount s = running_count s + paused_count s;
  inv_bound : activeCount s ≤ MAX_CONCURRENT
}.

Lemma processQueue_loop_spec q : ∀ h a,
  queued_pending q h → NoDup q → a ≤ MAX_CONCURRENT →
  ∃ q' h' a', processQueue_loop q h a = (q', h', a') ∧
    queued_pending q' h' ∧ NoDup q' ∧ a' ≤ MAX_CONCURRENT ∧
    a' - a = count_status running h' - count_status running h ∧
    count_status paused h' = count_status paused h ∧
    length h' = length h ∧
    (∀ r o, h !! r = Some o →
       ∃ o', h' !! r = Some o' ∧ callbacks o' = callbacks o).
Proof.
  induction q as [|r q IH]; intros h a Hq Hnd Ha.
  - exists [], h, a. split.
    { simpl. destruct (MAX_CONCURRENT <=? a); done. }
    repeat split; try done; try lia. eauto.
  - simpl. destruct (Z.leb_spec MAX_CONCURRENT a) as [Hfull|Hfree].
    { exists (r :: q), h, a. repeat split; try done; try lia. eauto. }
    destruct (Hq r) as (o & Ho & Hpend); [set_solver|].
    apply NoDup_cons in Hnd as [Hnotin Hnd].
    assert (Hstart : start_ref h r
                     = <[r := mkJobObject (set_status (the_job o) running None)
                                          (callbacks o)]> h).
    { unfold start_ref, start_sync. rewrite Ho, Hpend. done. }
    rewrite Hstart. set (o1 := mkJobObject _ _). set (h1 := <[r := o1]> h).
    destruct (IH h1 (a + 1))
      as (q' & h' & a' & Heq & Hq' & Hnd' & Ha' & Hrun & Hpau & Hlen & Hcb);
      [|done|lia|].
    { intros r' Hr'. destruct (Hq r') as (o' & Ho' & Hp'); [set_solver|].
      exists o'. split; [|done]. unfold h1.
      rewrite list_lookup_insert_ne; [done|]. intros ->. done. }
    exists q', h', a'. split; [done|].
    split; [done|]. split; [done|]. split; [done|].
    assert (Hr1 : count_status running h1 = count_status running h + 1).
    { unfold h1. rewrite (count_status_insert _ _ _ o) by done.
      rewrite Hpend. simpl. repeat case_decide; try done; lia. }
    assert (Hp1 : count_status paused h1 = count_status paused h).
    { unfold h1. rewrite (count_status_insert _ _ _ o) by done.
      rewrite Hpend. simpl. repeat case_decide; try done; lia. }
    split; [lia|]. split; [congruence|].
    split; [unfold h1 in Hlen; rewrite length_insert in Hlen; done|].
    intros r' o' Ho'. destruct (decide (r' = r)) as [->|Hne].
    + destruct (Hcb r o1) as (o2 & Ho2 & Hcb2).
      { unfold h1. apply list_lookup_insert_eq. by eapply lookup_lt_Some. }
      exists o2. split; [done|]. rewrite Hcb2. simplify_eq. done.
    + apply Hcb. unfold h1. rewrite list_lookup_insert_ne; done.
Qed.

Lemma processQueue_inv s :
  queued_pending (queue s) (heap s) → NoDup (queue s) →
  activeCount s = running_count s + paused_count s →
  activeCount s ≤ MAX_CONCURRENT →
  let s' := processQueue s in
  queued_pending (queue s') (heap s') ∧ NoDup (queue s') ∧
  activeCount s' = running_count s' + paused_count s' ∧
  activeCount s' ≤ MAX_CONCURRENT ∧
  length (heap s') = length (heap s) ∧
  (∀ r o, heap s !! r = Some o →
     ∃ o', heap s' !! r = Some o' ∧ callbacks o' = callbacks o).
Proof.
  intros Hq Hnd Hact Hb. unfold processQueue.
  destruct (processQueue_loop_spec (queue s) (heap s) (activeCount s))
    as (q' & h' & a' & Heq & Hq' & Hnd' & Ha' & Hrun & Hpau & Hlen & Hcb);
    [done..|].
  rewrite Heq. simpl. unfold running_count, paused_count in *. simpl.
  repeat split; try done. lia.
Qed.

Lemma init_inv : SchedInv init.
Proof.
  split; simpl; try done.
  - intros r Hr. set_solver.
  - constructor.
Qed.

Lemma waitForJob_inv s r l :
  queued_pending (queue s) (heap s) → NoDup (queue s) →
  (∀ r' o, r' ≠ r → heap s !! r' = Some o → is_Some (callbacks o)) →
  activeCount s = running_count s + paused_count s →
  activeCount s ≤ MAX_CONCURRENT →
  SchedInv (waitForJob s r l).1.
Proof.
  intros Hq Hnd Hcb Hact Hb. unfold waitForJob. simpl.
  destruct (heap s !! r) as [o|] eqn:Ho.
  - split; simpl; try done.
    + intros r' Hr'. destruct (Hq r' Hr') as (o' & Ho' & Hp).
      destruct (decide (r' = r)) as [->|Hne].
      * eexists. split; [apply list_lookup_insert_eq; by eapply lookup_lt_Some|].
        simpl. congruence.
      * exists o'. by rewrite list_lookup_insert_ne.
    + intros r' o' Ho'. destruct (decide (r' = r)) as [->|Hne].
      * rewrite list_lookup_insert_eq in Ho' by (by eapply lookup_lt_Some).
        simplify_eq. simpl. eauto.
      * rewrite list_lookup_insert_ne in Ho' by done. eauto.
    + unfold running_count, paused_count. simpl.
      rewrite !(count_status_insert _ _ _ o) by done. simpl.
      unfold running_count, paused_count in Hact.
      repeat case_decide; try done; lia.
  - split; simpl; try done.
    intros r' o' Ho'. apply (Hcb r' o'); [|done]. intros ->. congruence.
Qed.

Lemma download_inv s u l : SchedInv s → SchedInv (download s u l).1.
Proof.
  intros [Hq Hnd Hcb Hact Hb]. unfold download.
  destruct (jobs s !! u) as [r|] eqn:Hj.
  - apply waitForJob_inv; eauto.
  - set (j := match quotaHandler s with
              | Some h => DownloadJob.setQuotaHandler (DownloadJob.new u) h
              | None => DownloadJob.new u
              end).
    assert (Hpend : status j = pending).
    { unfold j. destruct (quotaHandler s); done. }
    clearbody j.
    set (s1 := mkScheduler _ _ _ _ _ _).
    destruct (processQueue_inv s1) as (Hq' & Hnd' & Hact' & Hb' & Hlen & Hcb').
    + unfold s1. simpl. intros r Hr.
      apply elem_of_app in Hr as [Hr|Hr].
      * destruct (Hq r Hr) as (o & Ho & Hp). exists o.
        split; [|done]. apply lookup_app_l_Some. done.
      * apply list_elem_of_singleton in Hr as ->.
        eexists. split; [apply list_lookup_middle; done|]. done.
    + unfold s1. simpl. apply NoDup_app. split; [done|]. split.
      * intros r Hr Hr'. apply list_elem_of_singleton in Hr' as ->.
        destruct (Hq _ Hr) as (o & Ho & _). apply lookup_lt_Some in Ho. lia.
      * apply NoDup_singleton.
    + unfold s1, running_count, paused_count in *. simpl.
      rewrite !count_status_app. unfold count_status at 2 4. simpl.
      rewrite !filter_cons, !filter_nil. cbn [the_job]. rewrite Hpend.
      repeat case_decide; try done. simpl. lia.
    + done.
    + apply waitForJob_inv; try done.
      intros r' o' Hne Ho'.
      assert (Hlt : (r' < length (heap s1))%nat).
      { rewrite <- Hlen. by eapply lookup_lt_Some. }
      apply lookup_lt_is_Some_2 in Hlt as [o Ho].
      destruct (Hcb' _ _ Ho) as (o2 & Ho2 & Hcb2). simplify_eq.
      rewrite Hcb2. unfold s1 in Ho. simpl in Ho.
      apply lookup_app_Some in Ho as [Ho|[Hge Ho]].
      * eauto.
      * exfalso. apply Hne.
        destruct (r' - length (heap s))%nat eqn:E; simpl in Ho; [lia|].
        by rewrite lookup_nil in Ho.
Qed.

Lemma queued_pending_set_running q (h : list JobObject) r o o' :
  queued_pending q h → h !! r = Some o → status (the_job o) = running →
  queued_pending q (<[r := o']> h).
Proof.
  intros Hq Ho Hrun.
  intros r' Hr'. destruct (Hq r' Hr') as (o2 & Ho2 & Hp).
  exists o2. split; [|done]. rewrite list_lookup_insert_ne; [done|].
  intros ->. simplify_eq. congruence.
Qed.

Lemma closure_inv s u c v :
  queued_pending (queue s) (heap s) → NoDup (queue s) →
  (∀ r o, heap s !! r = Some o → is_Some (callbacks o)) →
  activeCount s - 1 = running_count s + paused_count s →
  activeCount s - 1 ≤ MAX_CONCURRENT →
  SchedInv (closure s u c v).
Proof.
  intros Hq Hnd Hcb Hact Hb. unfold closure.
  set (s0 := mkScheduler (heap s) _ _ _ _ _).
  destruct (processQueue_inv s0) as (Hq' & Hnd' & Hact' & Hb' & Hlen & Hcb');
    try done.
  split; simpl; try done.
  intros r o Ho.
  assert (Hlt : (r < length (heap s0))%nat).
  { rewrite <- Hlen. by eapply lookup_lt_Some. }
  apply lookup_lt_is_Some_2 in Hlt as [o0 Ho0].
  destruct (Hcb' _ _ Ho0) as (o2 & Ho2 & Hcb2). simplify_eq.
  rewrite Hcb2. eauto.
Qed.

Lemma settle_inv s r o s' : SchedInv s → settle s r o = Some s' → SchedInv s'.
Proof.
  intros [Hq Hnd Hcb Hact Hb] Hs. unfold settle in Hs.
  destruct (heap s !! r) as [obj|] eqn:Hobj; [|done].
  case_bool_decide as Hrun; [|done].
  unfold running_count, paused_count in Hact.
  assert (Hcount : ∀ st e,
    st ≠ running →
    let h' := <[r := mkJobObject (set_status (the_job obj) st e)
                                 (callbacks obj)]> (heap s) in
    count_status running h' = count_status running (heap s) - 1 ∧
    count_status paused h'
    = count_status paused (heap s) + (if decide (st = paused) then 1 else 0)).
  { intros st e Hst h'. unfold h'.
    rewrite !(count_status_insert _ _ _ obj) by done. simpl. rewrite Hrun.
    repeat case_decide; try done; lia. }
  assert (Hcbs : ∀ o', ∀ r' o2,
    <[r := mkJobObject o' (callbacks obj)]> (heap s) !! r' = Some o2 →
    is_Some (callbacks o2)).
  { intros o' r' o2 Ho2. destruct (decide (r' = r)) as [->|Hne].
    - rewrite list_lookup_insert_eq in Ho2 by (by eapply lookup_lt_Some).
      simplify_eq. simpl. eauto.
    - rewrite list_lookup_insert_ne in Ho2 by done. eauto. }
  assert (Hqs : ∀ o', queued_pending (queue s) (<[r := o']> (heap s))).
  { intros o'. by eapply queued_pending_set_running. }
  destruct (Hcb _ _ Hobj) as [c Hc].
  destruct o as [result|e| | |]; simplify_eq.
  - destruct (Hcount completed None) as [Hr Hp]; [done|].
    rewrite Hc in *. apply closure_inv; simpl; try done.
    + apply Hcbs.
    + unfold running_count, paused_count. simpl. rewrite Hr, Hp. simpl. lia.
    + lia.
  - destruct (Hcount error (Some e)) as [Hr Hp]; [done|].
    rewrite Hc in *. apply closure_inv; simpl; try done.
    + apply Hcbs.
    + unfold running_count, paused_count. simpl. rewrite Hr, Hp. simpl. lia.
    + lia.
  - destruct (Hcount paused None) as [Hr Hp]; [done|].
    split; simpl; try done.
    + apply Hcbs.
    + unfold running_count, paused_count. simpl. rewrite Hr, Hp. simpl. lia.
Qed.

Lemma reachable_inv s : reachable s → SchedInv s.
Proof.
  induction 1 as [|s h _ IH|s u l _ IH|s r o s' _ IH Hs].
  - apply init_inv.
  - destruct IH. split; done.
  - by apply download_inv.
  - by eapply settle_inv.
Qed.

(** C8: in every state the scheduler can reach - whatever the interleaving
    of [download] calls with jobs completing, failing or being aborted - at
    most [MAX_CONCURRENT] = 3 jobs are running.  The count [activeCount]
    that gates [processQueue] never exceeds the bound, and it is exactly the
    number of jobs started and not yet reported back: one increment per job
    taken from the queue, one decrement per job that completes or fails (an
    aborted job invokes no callback and keeps its slot). *)
Theorem running_jobs_bounded s :
  reachable s →
  running_count s ≤ MAX_CONCURRENT ∧
  activeCount s = running_count s + paused_count s ∧
  activeCount s ≤ MAX_CONCURRENT.
Proof.
  intros Hs. destruct (reachable_inv s Hs) as [_ _ _ Hact Hb].
  pose proof (count_status_nonneg paused (heap s)) as Hp.
  unfold paused_count in *. repeat split; [lia|done|done].
Qed.

Lemma running_jobs_bounded_witness :
  let s4 :=
    (download (download (download (download init "a" None).1
                                  "b" None).1 "c" None).1 "d" None).1 in
  running_count s4 = 3 ∧ queue s4 = [3%nat] ∧
  running_count s4 ≤ MAX_CONCURRENT.
Proof.
  intros s4. split; [vm_compute; reflexivity|].
  split; [vm_compute; reflexivity|].
  apply (running_jobs_bounded s4). repeat constructor.
Defined.

End Scheduler.

(** ** Downloads: job, store and cache together *)
Section Download.
Import ChunkStore Http DownloadJob CacheStorage DownloadManager.

(** The store holds exactly the chunks [cl] for [u], at the indices 0, 1,
    ..., and its metadata record (absent only when there is no chunk) counts
    them and their bytes. *)
Record Layout (d : DB) (u : string) (cl : list Bytes) : Prop := mkLayout {
  lay_chunks : ∀ i, 0 ≤ i → chunks d !! (u, i) = cl !! Z.to_nat i;
  lay_meta :
    match metadata d !! u with
    | None => cl = []
    | Some m =>
        chunkCount m = Z.of_nat (length cl) ∧
        downloadedBytes m = size (concat cl)
    end
}.

Lemma appendChunk_layout d u cl blob total tag d' :
  Layout d u cl →
  appendChunk d u blob (Z.of_nat (length cl)) total tag = inr d' →
  Layout d' u (cl ++ [blob]) ∧ quota d' = quota d ∧
  ∃ m, metadata d' !! u = Some m ∧ totalBytes m = total.
Proof.
  intros [Hch Hmeta] Happ. unfold appendChunk in Happ.
  destruct (within_quota _ _); [|done]. simplify_eq. simpl.
  split; [|split; [done|]].
  - split; simpl.
    + intros i Hi. destruct (decide (i = Z.of_nat (length cl))) as [->|Hne].
      * rewrite lookup_insert_eq, Nat2Z.id.
        by rewrite list_lookup_middle.
      * rewrite lookup_insert_ne by congruence. rewrite Hch by done.
        destruct (decide (Z.to_nat i < length cl)%nat).
        -- by rewrite lookup_app_l.
        -- rewrite !lookup_ge_None_2; [done| |lia].
           rewrite length_app. simpl. lia.
    + rewrite lookup_insert_eq. unfold updated_meta. simpl.
      rewrite length_app, concat_snoc, size_app. simpl.
      destruct (metadata d !! u) as [m|]; simpl.
      * destruct Hmeta as [Hc Hd]. rewrite Hc, Hd. split; [lia|].
        destruct (Z.eqb_spec (Z.of_nat (length cl)) 0) as [H0|H0]; [|done].
        destruct cl; [done|simpl in H0; lia].
      * subst cl. simpl. split; [lia|]. done.
  - rewrite lookup_insert_eq. eexists. split; [done|]. done.
Qed.

Lemma appendChunk_unlimited d u blob i total tag :
  quota d = None → ∃ d', appendChunk d u blob i total tag = inr d'.
Proof. intros Hq. unfold appendChunk. rewrite Hq. simpl. eauto. Qed.

Lemma clear_layout d u : Layout (clear d u) u [].
Proof.
  split; simpl.
  - intros i Hi. rewrite lookup_nil. apply map_lookup_filter_None_2.
    right. intros x _ Hp. simpl in Hp. apply Hp. done.
  - by rewrite lookup_delete_eq.
Qed.

(** X1: [clear(url)] is idempotent: clearing a URL twice leaves the store as
    clearing it once does. *)
Theorem clear_idempotent d u : clear (clear d u) u = clear d u.
Proof.
  unfold clear. simpl. f_equal.
  - apply map_eq. intros k. destruct (decide (k = u)) as [->|Hne].
    + by rewrite !lookup_delete_eq.
    + by rewrite !lookup_delete_ne.
  - apply map_eq. intros k.
    destruct (filter _ (chunks d) !! k) as [b|] eqn:Hk.
    + apply map_lookup_filter_Some. split; [done|].
      by apply map_lookup_filter_Some in Hk as [_ ?].
    + apply map_lookup_filter_None. by left.
Qed.

Lemma getStream_layout d u cl :
  Layout d u cl → getStream d u (Z.of_nat (length cl)) = (cl, Closed).
Proof.
  intros [Hch _].
  destruct (getStream_spec d u (Z.of_nat (length cl)))
    as (out & fin & -> & Hout & Hlen & Hfin).
  destruct fin as [|e|]; [|exfalso|done].
  - f_equal. apply list_eq_same_length with (length cl); [lia|lia|].
    intros i x y Hi Hx Hy. rewrite <- Hout in Hx by lia.
    rewrite Hch, Nat2Z.id in Hx by lia. congruence.
  - destruct Hfin as (_ & Hlt & Hnone). rewrite Hch, Nat2Z.id in Hnone by lia.
    apply lookup_ge_None in Hnone. lia.
Qed.

Lemma getStream_layout_missing d u cl :
  Layout d u cl →
  getStream d u (Z.of_nat (length cl) + 1)
  = (cl, Errored (MissingChunk (Z.of_nat (length cl)) u)).
Proof.
  intros [Hch _].
  destruct (getStream_spec d u (Z.of_nat (length cl) + 1))
    as (out & fin & -> & Hout & Hlen & Hfin).
  assert (Hle : (length out ≤ length cl)%nat).
  { destruct (decide (length out ≤ length cl)%nat) as [|Hgt]; [done|exfalso].
    assert (Hk : (length cl < length out)%nat) by lia.
    pose proof (Hout _ Hk) as Heq. rewrite Hch, Nat2Z.id in Heq by lia.
    apply lookup_lt_is_Some_2 in Hk as [c Hc].
    rewrite Hc in Heq. apply lookup_lt_Some in Heq. lia. }
  destruct fin as [|e|]; [lia| |done].
  destruct Hfin as (-> & _ & Hnone). rewrite Hch, Nat2Z.id in Hnone by lia.
  apply lookup_ge_None in Hnone.
  assert (Hlen' : length out = length cl) by lia.
  rewrite Hlen'. f_equal.
  apply list_eq_same_length with (length cl); [lia|lia|].
  intros i x y Hi Hx Hy. rewrite <- Hout in Hx by lia.
  rewrite Hch, Nat2Z.id in Hx by lia. congruence.
Qed.

(** The state of the read loop of a job that writes to the store: the
    store holds [cl] and the next chunk index is their number. *)
Definition Sound (u : string) (cl : list Bytes) (l : Loop) : Prop :=
  Layout (db (run l)) u cl ∧ id (job (run l)) = u ∧
  isMemoryMode (job (run l)) = false ∧
  chunkIndex l = Z.of_nat (length cl).

(** [flush] either has nothing to write, or appends the buffered bytes as
    the next chunk, or throws and leaves the store as it was.  The memory
    fallback is never completed: the recovery stream is asked for one chunk
    more than the store holds. *)
Lemma flush_spec total tag u cl l l' thrown :
  Sound u cl l → flush total tag l = (l', thrown) →
  quota (db (run l')) = quota (db (run l)) ∧
  requests (run l') = requests (run l) ∧
  id (job (run l')) = u ∧
  (quota (db (run l)) = None → thrown = None) ∧
  match thrown with
  | None =>
      (pendingChunks l = [] ∧ l' = l) ∨
      (pendingChunks l ≠ [] ∧
       Sound u (cl ++ [concat (pendingChunks l)]) l' ∧
       pendingChunks l' = [] ∧
       ∃ m, metadata (db (run l')) !! u = Some m ∧ totalBytes m = total)
  | Some e => Layout (db (run l')) u cl
  end.
Proof.
  intros (Hlay & Hid & Hmem & Hidx) Hf. unfold flush in Hf.
  destruct (pendingChunks l) as [|p ps] eqn:Hp.
  { simplify_eq. split_and!; try done. by left. }
  rewrite Hmem, Hid, Hidx in Hf.
  destruct (appendChunk _ _ _ _ _ _) as [e|d'] eqn:Happ.
  - assert (Hlim : quota (db (run l)) = None → False).
    { intros Hq. destruct (appendChunk_unlimited (db (run l)) (id (job (run l)))
        (Blob (p :: ps)) (Z.of_nat (length cl)) total tag Hq) as [d' Hd'].
      congruence. }
    assert (Hkeep : ∀ j i,
      quota (db (run (with_index (with_job l j) i))) = quota (db (run l)) ∧
      requests (run (with_index (with_job l j) i)) = requests (run l) ∧
      Layout (db (run (with_index (with_job l j) i))) u cl).
    { intros. simpl. done. }
    case_bool_decide as Hname.
    + destruct (quotaHandler (job (run l))) as [[|]|] eqn:Hh.
      * simpl in Hf.
        rewrite (getStream_layout_missing _ _ _ Hlay) in Hf.
        simplify_eq. simpl. split_and!; try done; try (intros; exfalso; eauto).
      * simplify_eq. simpl. split_and!; try done; try (intros; exfalso; eauto).
      * simplify_eq. simpl. split_and!; try done; try (intros; exfalso; eauto).
    + simplify_eq. simpl. split_and!; try done; try (intros; exfalso; eauto).
  - destruct (appendChunk_layout _ _ _ _ _ _ _ Hlay Happ) as (Hlay' & Hq & Hm).
    simplify_eq. simpl. split_and!; try done.
    right. split; [done|]. unfold Sound. simpl.
    split; [|done]. split; [exact Hlay'|]. split; [done|]. split; [done|].
    rewrite length_app. simpl. lia.
Qed.

Lemma consume_spec total tag u reads fin : ∀ cl l l' thrown,
  Sound u cl l → consume total tag reads fin l = (l', thrown) →
  quota (db (run l')) = quota (db (run l)) ∧
  requests (run l') = requests (run l) ∧
  id (job (run l')) = u ∧
  (quota (db (run l)) = None → fin = None → thrown = None) ∧
  ∃ cl', Layout (db (run l')) u cl' ∧
    match thrown with
    | None =>
        fin = None ∧
        isMemoryMode (job (run l')) = false ∧
        concat cl' = concat cl ++ concat (pendingChunks l) ++ concat reads ∧
        (pendingChunks l ++ reads ≠ [] →
         ∃ m, metadata (db (run l')) !! u = Some m ∧ totalBytes m = total)
    | Some e =>
        ∃ rest,
          concat cl ++ concat (pendingChunks l) ++ concat reads
          = concat cl' ++ rest
    end.
Proof.
  induction reads as [|value reads IH]; intros cl l l' thrown Hs Hc; simpl in Hc.
  - destruct fin as [e|].
    + simplify_eq. destruct Hs as (Hlay & Hid & _). split_and!; try done.
      exists cl. split; [done|]. eauto.
    + destruct (flush_spec _ _ _ _ _ _ _ Hs Hc) as (Hq & Hr & Hid & Hlim & Hres).
      split_and!; try done; try (by intros; eauto).
      destruct thrown as [e|].
      * exists cl. split; [done|]. eexists. reflexivity.
      * destruct Hres as [[Hp ->]|(Hp & Hs' & Hp' & Hm)].
        -- destruct Hs as (Hlay & _ & Hmem & _). exists cl.
           rewrite Hp. simpl. rewrite !app_nil_r. split_and!; try done.
        -- destruct Hs' as (Hlay' & _ & Hmem' & _).
           exists (cl ++ [concat (pendingChunks l)]).
           rewrite concat_snoc. simpl. rewrite !app_nil_r.
           split_and!; try done.
  - set (l1 := mkLoop _ _ _ _) in Hc.
    assert (Hs1 : Sound u cl l1).
    { destruct Hs as (Hlay & Hid & Hmem & Hidx). unfold Sound, l1. simpl. done. }
    assert (Hdata : ∀ (x : Bytes),
      concat cl ++ concat (pendingChunks l1) ++ x
      = concat cl ++ concat (pendingChunks l) ++ value ++ x).
    { intros x. unfold l1. simpl. rewrite concat_snoc.
      by rewrite <- !app_assoc. }
    destruct (bufferSize <=? pendingSize l + size value).
    + destruct (flush total tag l1) as [l2 [e|]] eqn:Hf.
      * simplify_eq.
        destruct (flush_spec _ _ _ _ _ _ _ Hs1 Hf) as (Hq & Hr & Hid & Hlim & Hres).
        split_and!; try done; try (by intros Hn _; apply Hlim).
        exists cl. split; [done|]. simpl. rewrite <- Hdata. eauto.
      * destruct (flush_spec _ _ _ _ _ _ _ Hs1 Hf) as (Hq & Hr & Hid & Hlim & Hres).
        destruct Hres as [[Hp _]|(Hp & Hs2 & Hp2 & Hm)].
        { unfold l1 in Hp. simpl in Hp. by destruct (pendingChunks l). }
        destruct (IH _ _ _ _ Hs2 Hc) as (Hq' & Hr' & Hid' & Hlim' & cl' & Hlay' & Hres').
        unfold l1 in Hq, Hr, Hlim; simpl in Hq, Hr, Hlim.
        split_and!; try congruence;
          try (by intros Hn Hfin; apply Hlim'; [rewrite Hq; done|done]).
        exists cl'. split; [done|]. rewrite Hp2 in Hres'. simpl in *.
        rewrite concat_snoc in Hres'. rewrite <- Hdata.
        destruct thrown as [e|].
        -- destruct Hres' as [rest Hrest]. exists rest.
           rewrite <- Hrest. by rewrite <- !app_assoc.
        -- destruct Hres' as (Hf' & Hmem' & Hcat & Hmeta).
           split_and!; try done.
           ++ rewrite Hcat. by rewrite <- !app_assoc.
           ++ intros _.
              destruct reads as [|v reads'].
              ** simpl in Hc. subst fin. unfold flush in Hc. rewrite Hp2 in Hc.
                 simplify_eq. done.
              ** apply Hmeta. done.
    + destruct (IH _ _ _ _ Hs1 Hc) as (Hq' & Hr' & Hid' & Hlim' & cl' & Hlay' & Hres').
      split_and!; try done.
      exists cl'. split; [done|]. simpl. rewrite <- Hdata.
      destruct thrown as [e|]; [done|].
      destruct Hres' as (Hf' & Hmem' & Hcat & Hmeta).
      split_and!; try done. intros _. apply Hmeta.
      unfold l1. simpl. by destruct (pendingChunks l).
Qed.

(** X2: the quota fallback never completes.  Whenever the store holds the
    chunks written so far and the append of the next one is rejected, [flush]
    rethrows that error and leaves the store as it was - whether or not a
    quota handler is installed and whatever it answers: the recovery asks
    the stream for the chunk whose append has just failed. *)
Theorem quota_fallback_never_completes total tag u cl l e :
  Sound u cl l → pendingChunks l ≠ [] →
  appendChunk (db (run l)) u (Blob (pendingChunks l)) (chunkIndex l) total tag
  = inl e →
  (flush total tag l).2 = Some e ∧ db (run (flush total tag l).1) = db (run l).
Proof.
  intros (Hlay & Hid & Hmem & Hidx) Hp Happ. unfold flush.
  destruct (pendingChunks l) as [|p ps] eqn:Hpend; [done|].
  rewrite Hmem, Hid, Happ.
  case_bool_decide; [|done].
  destruct (quotaHandler (job (run l))) as [[|]|]; [|done|done].
  simpl. rewrite Hidx, (getStream_layout_missing _ _ _ Hlay). done.
Qed.

(** The body of a response delivers [target], or a prefix of it when the
    transfer is cut short. *)
Definition good_body (target : Bytes) (r : Response) : Prop :=
  match Http.body r with
  | None => True
  | Some (reads, fin) =>
      ∃ rest, target = concat reads ++ rest ∧ (fin = None → rest = [])
  end.

(** A server that serves the bytes [B] at [u] and honours [Range]: a request
    without a range is never answered 416 and an ok answer carries [B]; a
    request from byte [s] on is answered 416 only when [s] is at or past the
    end, and an ok answer carries [B] from [s] on (or the whole of [B] when
    the status is 200).  The chunking of a body and the point where a
    transfer breaks are arbitrary. *)
Definition honors (B : Bytes) (u : string) (fetch : Fetch) : Prop :=
  ∀ req r, req_url req = u → fetch req = inr r →
    match range req with
    | None => Http.status r ≠ 416 ∧ (ok r = true → good_body B r)
    | Some h =>
        ∀ s, 0 < s → h = range_header s →
          (Http.status r = 416 → size B ≤ s) ∧
          (ok r = true →
           if Http.status r =? 200 then good_body B r
           else good_body (drop (Z.to_nat s) B) r)
    end.

(** The chunks stored for [u] are a prefix of [B]. *)
Definition Stored (B : Bytes) (u : string) (d : DB) : Prop :=
  ∃ cl rest, Layout d u cl ∧ B = concat cl ++ rest.

Lemma clear_quota d u : quota (clear d u) = quota d.
Proof. done. Qed.

Lemma clear_stored B u d : Stored B u (clear d u).
Proof. exists [], B. split; [apply clear_layout|done]. Qed.

Lemma resumption_spec d u cl s i d1 :
  Layout d u cl → resumption d u = (s, i, d1) →
  quota d1 = quota d ∧
  ∃ cl1, Layout d1 u cl1 ∧ s = size (concat cl1) ∧ i = Z.of_nat (length cl1) ∧
         (cl1 = cl ∨ cl1 = []).
Proof.
  intros Hlay Hr. unfold resumption, getMetadata in Hr.
  pose proof (lay_meta _ _ _ Hlay) as Hm.
  destruct (metadata d !! u) as [m|].
  - destruct Hm as [Hc Hd]. destruct (0 <? downloadedBytes m); simplify_eq.
    + split; [done|]. exists cl. split_and!; try done. by left.
    + split; [done|]. exists []. split_and!; try done.
      * apply clear_layout.
      * by right.
  - simplify_eq. split; [done|]. exists []. split_and!; try done. by right.
Qed.

Lemma receive_layout response meta s i r1 cl1 r' c :
  Layout (db r1) (id (job r1)) cl1 → isMemoryMode (job r1) = false →
  i = Z.of_nat (length cl1) →
  receive response meta s i r1 = (r', c) →
  id (job r') = id (job r1) ∧ quota (db r') = quota (db r1) ∧
  ∃ cl', Layout (db r') (id (job r1)) cl'.
Proof.
  intros Hlay Hmem Hi Hrecv. unfold receive in Hrecv.
  destruct (etag_changed _ _).
  { injection Hrecv as <- <-. simpl. split_and!; try done.
    eexists. apply clear_layout. }
  set (ignored := (0 <? s) && (Http.status response =? 200)) in *.
  set (cl2 := if ignored then [] else cl1).
  assert (Hlay2 : Layout (if ignored then clear (db r1) (id (job r1)) else db r1)
                         (id (job r1)) cl2).
  { unfold cl2. destruct ignored; [apply clear_layout|done]. }
  assert (Hq2 : quota (if ignored then clear (db r1) (id (job r1)) else db r1)
                = quota (db r1)).
  { destruct ignored; done. }
  destruct (Http.body response) as [[reads fin]|].
  2:{ injection Hrecv as <- <-. simpl. split_and!; try done. by exists cl2. }
  destruct (consume _ _ _ _ _) as [l thrown] eqn:Hc.
  eapply (consume_spec _ _ (id (job r1)) _ _ cl2) in Hc
    as (Hq & _ & Hid' & _ & cl' & Hlay' & _).
  2:{ unfold Sound. simpl. split_and!; try done.
      unfold cl2. destruct ignored; simpl; done. }
  simpl in Hq.
  destruct thrown; injection Hrecv as <- <-; split_and!;
    try done; try congruence; by exists cl'.
Qed.

Lemma execute_layout fetch : ∀ fuel r r' c cl,
  Layout (db r) (id (job r)) cl → isMemoryMode (job r) = false →
  _execute fuel fetch r = (r', c) →
  id (job r') = id (job r) ∧ quota (db r') = quota (db r) ∧
  ∃ cl', Layout (db r') (id (job r)) cl'.
Proof.
  induction fuel as [|fuel IH]; intros r r' c cl Hlay Hmem He.
  { simpl in He. injection He as <- <-. split_and!; try done. by exists cl. }
  simpl in He.
  destruct (resumption (db r) (id (job r))) as [[s i] d1] eqn:Hres.
  destruct (resumption_spec _ _ _ _ _ _ Hlay Hres)
    as (Hq1 & cl1 & Hlay1 & Hs & Hi & _).
  set (req := mkRequest _ _) in He.
  destruct (fetch req) as [e|response].
  { injection He as <- <-. simpl. split_and!; try done. by exists cl1. }
  destruct (ok response); simpl in He.
  - eapply (receive_layout _ _ _ _ _ cl1) in He as (Hid' & Hq' & Hcl');
      simpl; try done.
    simpl in Hid', Hq', Hcl'. split_and!; try done. congruence.
  - destruct (Http.status response =? 416).
    2:{ injection He as <- <-. simpl. split_and!; try done. by exists cl1. }
    match type of He with
    | match ?done with _ => _ end = _ => destruct done as [[serverSize|]|]
    end.
    + injection He as <- <-. simpl. split_and!; try done. by exists cl1.
    + eapply (IH _ _ _ []) in He as (Hid' & Hq' & Hcl'); simpl; try done.
      * simpl in *. split_and!; try done. congruence.
      * apply clear_layout.
    + eapply (IH _ _ _ []) in He as (Hid' & Hq' & Hcl'); simpl; try done.
      * simpl in *. split_and!; try done. congruence.
      * apply clear_layout.
Qed.

(** X3: a run of a job keeps the accounting of the store: if the store holds
    chunks 0, 1, ... for the URL and its metadata counts them and their
    bytes, the same holds after [start()], whatever the server answers and
    however the run ends. *)
Theorem job_run_keeps_store_consistent fuel fetch r cl :
  Layout (db r) (id (job r)) cl → isMemoryMode (job r) = false →
  ∃ cl', Layout (db (start fuel fetch r).1) (id (job r)) cl'.
Proof.
  intros Hlay Hmem. unfold start.
  destruct (status (job r)); try (by exists cl);
    (destruct (_execute _ _ _) as [r1 c] eqn:He;
     eapply (execute_layout _ _ _ _ _ cl) in He as (_ & _ & cl' & Hlay');
       [|done|done];
     exists cl'; destruct c as [|e|]; try done; simpl;
     case_bool_decide; done).
Qed.

Lemma receive_spec B u response meta s i r1 cl1 rest1 r' c :
  Layout (db r1) u cl1 → id (job r1) = u → isMemoryMode (job r1) = false →
  s = size (concat cl1) → i = Z.of_nat (length cl1) →
  B = concat cl1 ++ rest1 →
  good_body (if (0 <? s) && (Http.status response =? 200) then B else rest1)
            response →
  receive response meta s i r1 = (r', c) →
  id (job r') = u ∧ Stored B u (db r') ∧
  requests r' = requests r1 ∧ quota (db r') = quota (db r1) ∧
  (c = Returned →
   isMemoryMode (job r') = false ∧
   ∃ cl, Layout (db r') u cl ∧ concat cl = B) ∧
  (quota (db r1) = None →
   etag_changed meta (etag_header (headers response)) = false →
   ∀ reads, Http.body response = Some (reads, None) →
     c = Returned ∧
     (reads ≠ [] →
      ∃ m, metadata (db r') !! u = Some m ∧
           totalBytes m = total_size response meta s)).
Proof.
  intros Hlay Hid Hmem Hs Hi HB Hgood Hrecv. unfold receive in Hrecv.
  rewrite Hid in Hrecv.
  destruct (etag_changed _ _) eqn:Htag.
  { injection Hrecv as <- <-. simpl. split_and!; try done. apply clear_stored. }
  set (ignored := (0 <? s) && (Http.status response =? 200)) in *.
  set (cl2 := if ignored then [] else cl1).
  set (target := if ignored then B else rest1) in *.
  assert (Hlay2 : Layout (if ignored then clear (db r1) u else db r1) u cl2).
  { unfold cl2. destruct ignored; [apply clear_layout|done]. }
  assert (HB2 : B = concat cl2 ++ target).
  { unfold cl2, target. destruct ignored; done. }
  assert (Hq2 : quota (if ignored then clear (db r1) u else db r1) = quota (db r1)).
  { destruct ignored; done. }
  unfold good_body in Hgood.
  destruct (Http.body response) as [[reads fin]|].
  2:{ injection Hrecv as <- <-. simpl. split_and!; try done. by exists cl2, target. }
  destruct (consume _ _ _ _ _) as [l thrown] eqn:Hc.
  destruct Hgood as (rest & Ht & Hfin).
  eapply (consume_spec _ _ u _ _ cl2) in Hc as (Hq & Hr & Hid' & Hlim & cl' & Hlay' & Hres).
  2:{ unfold Sound. simpl. split_and!; try done.
      unfold cl2. destruct ignored; simpl; done. }
  simpl in Hq, Hr, Hlim, Hres.
  destruct thrown as [e|]; injection Hrecv as <- <-.
  - destruct Hres as [rest' Hrest]. split_and!; try done; try congruence.
    + exists cl', (rest' ++ rest). split; [done|].
      rewrite HB2, Ht. rewrite !app_assoc. rewrite <- Hrest. done.
    + intros Hn _ reads' [= <- ->]. rewrite Hq2 in Hlim.
      by specialize (Hlim Hn eq_refl).
  - destruct Hres as (-> & Hmem' & Hcat & Hmeta).
    rewrite (Hfin eq_refl), app_nil_r in Ht.
    assert (HcatB : concat cl' = B).
    { rewrite Hcat, HB2, Ht. done. }
    split_and!; try done; try congruence.
    + exists cl', []. split; [done|]. by rewrite app_nil_r.
    + intros _. split; [done|]. eauto.
    + intros _ _ reads' [= <-]. split; [done|]. intros Hne.
      apply Hmeta. done.
Qed.

Lemma execute_spec B u fetch :
  honors B u fetch → ∀ fuel r r' c,
  id (job r) = u → isMemoryMode (job r) = false → Stored B u (db r) →
  _execute fuel fetch r = (r', c) →
  id (job r') = u ∧ Stored B u (db r') ∧ quota (db r') = quota (db r) ∧
  (c = Returned →
   isMemoryMode (job r') = false ∧
   ∃ cl, Layout (db r') u cl ∧ concat cl = B).
Proof.
  intros Hh. induction fuel as [|fuel IH]; intros r r' c Hid Hmem Hst He.
  { simpl in He. injection He as <- <-. done. }
  simpl in He. rewrite Hid in He.
  destruct Hst as (cl & rest & Hlay & HB).
  destruct (resumption (db r) u) as [[s i] d1] eqn:Hres.
  destruct (resumption_spec _ _ _ _ _ _ Hlay Hres) as (Hq1 & cl1 & Hlay1 & Hs & Hi & Hcl1).
  assert (Hrest1 : ∃ rest1, B = concat cl1 ++ rest1).
  { destruct Hcl1 as [->| ->]; [by exists rest|by exists B]. }
  destruct Hrest1 as [rest1 HB1].
  set (req := mkRequest u _) in He.
  destruct (fetch req) as [e|response] eqn:Hfetch.
  { injection He as <- <-. simpl. split_and!; try done. by exists cl1, rest1. }
  pose proof (Hh req response eq_refl Hfetch) as Hsrv.
  destruct (ok response) eqn:Hok; simpl in He.
  - (* the response is ok *)
    eapply (receive_spec B u) in He as (Hid' & Hst' & _ & Hq' & Hret & _); try done.
    + simpl in Hq'. split_and!; try done. congruence.
    + unfold req in Hsrv. simpl in Hsrv.
      destruct (Z.ltb_spec 0 s) as [Hpos|Hzero]; simpl.
      * destruct (Hsrv s Hpos eq_refl) as [_ Hgood]. specialize (Hgood eq_refl).
        destruct (Http.status response =? 200); [done|].
        rewrite HB1, Hs, drop_size_app in Hgood. done.
      * destruct Hsrv as [_ Hgood]. specialize (Hgood eq_refl).
        assert (Hnil : concat cl1 = []).
        { apply size_zero_nil. pose proof (size_nonneg (concat cl1)). lia. }
        rewrite HB1, Hnil in Hgood. done.
  - destruct (Z.eqb_spec (Http.status response) 416) as [H416|Hother].
    2:{ injection He as <- <-. simpl. split_and!; try done. by exists cl1, rest1. }
    match type of He with
    | match ?done with _ => _ end = _ => destruct done as [[serverSize|]|] eqn:Hdone
    end.
    + (* the job considers the download complete *)
      injection He as <- <-. simpl. split_and!; try done.
      { by exists cl1, rest1. }
      intros _. split; [done|]. exists cl1. split; [done|].
      unfold req in Hsrv. simpl in Hsrv.
      destruct (Z.ltb_spec 0 s) as [Hpos|Hzero].
      * destruct (Hsrv s Hpos eq_refl) as [Hfull _]. specialize (Hfull H416).
        rewrite HB1, size_app in Hfull. pose proof (size_nonneg rest1).
        rewrite (size_zero_nil rest1) in HB1 by lia.
        by rewrite app_nil_r in HB1.
      * destruct Hsrv as [Hne _]. done.
    + apply IH in He as (Hid' & Hst' & Hq' & Hret); simpl; try done.
      * simpl in Hq'. split_and!; try done. congruence.
      * apply clear_stored.
    + apply IH in He as (Hid' & Hst' & Hq' & Hret); simpl; try done.
      * simpl in Hq'. split_and!; try done. congruence.
      * apply clear_stored.
Qed.

Lemma start_spec B u fetch fuel r r' o :
  honors B u fetch →
  id (job r) = u → isMemoryMode (job r) = false → status (job r) = pending →
  Stored B u (db r) →
  start fuel fetch r = (r', o) →
  Stored B u (db r') ∧ quota (db r') = quota (db r) ∧
  ∀ result, o = Complete result →
    result = None ∧ ∃ cl, Layout (db r') u cl ∧ concat cl = B.
Proof.
  intros Hh Hid Hmem Hpend Hst Hstart. unfold start in Hstart.
  rewrite Hpend in Hstart.
  destruct (_execute _ _ _) as [r1 c] eqn:He.
  apply (execute_spec B u fetch Hh) in He as (Hid' & Hst' & Hq' & Hret); try done.
  simpl in Hq'.
  destruct c as [|e|].
  - injection Hstart as <- <-. simpl. split_and!; try done.
    intros result [= <-]. destruct (Hret eq_refl) as [Hmem' Hcl].
    rewrite Hmem'. done.
  - case_bool_decide; injection Hstart as <- <-; simpl; split_and!; done.
  - injection Hstart as <- <-. split_and!; done.
Qed.

Lemma finalizeCache_spec w u cl w' thrown :
  Layout (store w) u cl →
  finalizeCache w u None = (w', thrown) →
  match thrown with
  | None =>
      ∃ len type,
        cache w' = <[u := mkCached (concat cl) len type]> (cache w) ∧
        store w' = clear (store w) u
  | Some _ => w' = w
  end.
Proof.
  intros Hlay Hf. unfold finalizeCache, getMetadata in Hf.
  pose proof (lay_meta _ _ _ Hlay) as Hm.
  destruct (metadata (store w) !! u) as [m|].
  2:{ by injection Hf as <- <-. }
  destruct Hm as [Hc Hd].
  destruct (strict_ne _ _).
  { by injection Hf as <- <-. }
  rewrite Hc, (getStream_layout _ _ _ Hlay) in Hf. simpl in Hf.
  injection Hf as <- <-. simpl. eauto.
Qed.

Lemma finalizeCache_memory w u blob :
  ∃ len type,
    finalizeCache w u (Some blob)
    = (mkWorld (<[u := mkCached blob len type]> (cache w)) (clear (store w) u),
       None).
Proof. unfold finalizeCache. simpl. eauto. Qed.

(** The chunk store holds a prefix of [B], and a cached response for [u], if
    there is one, is [B]. *)
Definition WorldInv (B : Bytes) (u : string) (w : World) : Prop :=
  Stored B u (store w) ∧
  ∀ c, cache w !! u = Some c → CacheStorage.body c = B.

Lemma delegate_spec B u fuel fetch handler w w' settled reqs :
  honors B u fetch → WorldInv B u w →
  delegate fuel fetch handler w u = (w', settled, reqs) →
  WorldInv B u w' ∧
  (settled = Resolved → CacheStorage.body <$> cache w' !! u = Some B).
Proof.
  intros Hh [Hst Hcache] Hd. unfold delegate in Hd.
  set (j := match handler with
            | Some h => DownloadJob.setQuotaHandler (DownloadJob.new u) h
            | None => DownloadJob.new u
            end) in Hd.
  assert (Hj : id j = u ∧ isMemoryMode j = false ∧ status j = pending).
  { unfold j. destruct handler; done. }
  destruct Hj as (Hid & Hmem & Hpend).
  destruct (start _ _ _) as [r o] eqn:Hstart.
  apply (start_spec B u) in Hstart as (Hst' & _ & Hdone); try done.
  destruct o as [result|e| | |].
  - destruct (Hdone result eq_refl) as (-> & cl & Hlay & Hcat).
    destruct (finalizeCache _ _ _) as [w2 thrown] eqn:Hf.
    apply (finalizeCache_spec _ _ cl) in Hf; [|done].
    injection Hd as <- <- <-. destruct thrown as [e|].
    + subst w2. split; [|done]. split; done.
    + destruct Hf as (len & type & Hc & Hs). simpl in Hc, Hs. split.
      * split.
        -- rewrite Hs. apply clear_stored.
        -- intros c. rewrite Hc, lookup_insert_eq. intros [= <-]. done.
      * intros _. rewrite Hc, lookup_insert_eq. simpl. by rewrite Hcat.
  - injection Hd as <- <- <-. split; [|done]. split; done.
  - injection Hd as <- <- <-. split; [|done]. split; done.
  - injection Hd as <- <- <-. split; [|done]. split; done.
  - injection Hd as <- <- <-. split; [|done]. split; done.
Qed.

Lemma downloadFile_spec B u fuel fetch handler w w' settled reqs :
  honors B u fetch → WorldInv B u w →
  downloadFile fuel fetch handler w u = (w', settled, reqs) →
  WorldInv B u w' ∧
  (settled = Resolved → CacheStorage.body <$> cache w' !! u = Some B).
Proof.
  intros Hh Hinv Hd. unfold downloadFile in Hd.
  destruct (cache_hit w u) eqn:Hhit.
  - injection Hd as <- <- <-. split; [done|]. intros _.
    unfold cache_hit in Hhit. destruct Hinv as [_ Hcache].
    destruct (cache w !! u) as [c|]; [|done]. simpl. f_equal. by apply Hcache.
  - by eapply delegate_spec.
Qed.

(** One attempt at acquiring the resource: the fuel of the run, the
    network it meets, and the quota handler installed. *)
Record Attempt : Type := mkAttempt {
  att_fuel : nat;
  att_fetch : Fetch;
  att_handler : option bool
}.

Definition attempt (u : string) (w : World) (a : Attempt)
    : World * Settled * list Request :=
  downloadFile (att_fuel a) (att_fetch a) (att_handler a) w u.

(** The world after a series of attempts, whatever their outcome. *)
Definition after_attempts (u : string) (w : World) (l : list Attempt) : World :=
  foldl (fun w a => (attempt u w a).1.1) w l.

Lemma after_attempts_inv B u l : ∀ w,
  WorldInv B u w → Forall (fun a => honors B u (att_fetch a)) l →
  WorldInv B u (after_attempts u w l).
Proof.
  induction l as [|a l IH]; intros w Hinv Hall; [done|].
  apply Forall_cons in Hall as [Ha Hl]. simpl. apply IH; [|done].
  unfold attempt. destruct (downloadFile _ _ _ _ _) as [[w' s] reqs] eqn:Hd.
  by destruct (downloadFile_spec _ _ _ _ _ _ _ _ _ Ha Hinv Hd).
Qed.

(** C1: round trip.  Let a server serve the bytes [B] at [u] and honour
    [Range].  After any series of earlier attempts - each with its own
    chunking of the body, cut short at any point or not, with or without a
    quota handler - an attempt whose job runs and whose finalisation
    succeeds leaves exactly [B] in the cache under [u]. *)
Theorem download_round_trip B u (earlier : list Attempt) (final : Attempt)
    (w0 w : World) (reqs : list Request) :
  WorldInv B u w0 →
  Forall (fun a => honors B u (att_fetch a)) (earlier ++ [final]) →
  attempt u (after_attempts u w0 earlier) final = (w, Resolved, reqs) →
  CacheStorage.body <$> cache w !! u = Some B.
Proof.
  intros Hinv Hall Hfinal.
  apply Forall_app in Hall as [Hearlier Hlast].
  apply Forall_inv in Hlast.
  pose proof (after_attempts_inv B u earlier w0 Hinv Hearlier) as Hinv'.
  unfold attempt in Hfinal.
  destruct (downloadFile_spec _ _ _ _ _ _ _ _ _ Hlast Hinv' Hfinal) as [_ Hres].
  by apply Hres.
Qed.

End Download.

Import ChunkStore Http DownloadJob CacheStorage DownloadManager.

(** ** The [Range] header *)

Lemma string_length_app (s t : string) :
  String.length (s +:+ t) = (String.length s + String.length t)%nat.
Proof. induction s as [|a s IH]; simpl; [done|]. by rewrite IH. Qed.

Lemma string_app_inj_r (t s1 s2 : string) : s1 +:+ t = s2 +:+ t → s1 = s2.
Proof.
  revert s2. induction s1 as [|a s1 IH]; intros [|b s2] H; simpl in H.
  - done.
  - apply (f_equal String.length) in H. simpl in H.
    rewrite !string_length_app in H. simpl in H. exfalso. lia.
  - apply (f_equal String.length) in H. simpl in H.
    rewrite !string_length_app in H. simpl in H. exfalso. lia.
  - injection H as -> H. f_equal. by apply IH.
Qed.

(** Distinct start bytes give distinct [Range] headers. *)
Lemma range_header_inj a b : range_header a = range_header b → a = b.
Proof.
  unfold range_header. intros H.
  apply (inj (String.app "bytes=")) in H.
  apply string_app_inj_r in H.
  by apply (inj pretty) in H.
Qed.

(** ** Scenarios *)

(** Sample servers. *)
Module Servers.
Import Http.

Definition plain (n : string) : Headers := mkHeaders (Some n) None None.

(** Serves "startend!!" from byte 5 on, in two pieces. *)
Definition resumes : Fetch := fun req =>
  if bool_decide (range req = Some "bytes=5-") then
    inr (mkResponse 206 (plain "5")
           (Some ([Sample.bytes "en"; Sample.bytes "d!!"], None)))
  else inl NetworkError.

(** The same server, but the connection breaks after the first piece. *)
Definition breaks : Fetch := fun req =>
  if bool_decide (range req = Some "bytes=5-") then
    inr (mkResponse 206 (plain "5")
           (Some ([Sample.bytes "en"], Some NetworkError)))
  else inl NetworkError.

End Servers.

Lemma single_chunk_layout u total b tag q :
  Layout (mkDB {[ u := mkMetadata u total (size b) 1 tag ]} {[ (u, 0) := b ]} q)
         u [b].
Proof.
  split; simpl.
  - intros i Hi. destruct (decide (i = 0)) as [->|Hne].
    + by rewrite lookup_singleton_eq.
    + rewrite lookup_singleton_ne by congruence.
      destruct (Z.to_nat i) eqn:E; [lia|done].
  - rewrite lookup_singleton_eq. simpl. by rewrite app_nil_r.
Qed.

Lemma partial_layout :
  Layout Sample.partial Sample.model_url [Sample.bytes "start"].
Proof. apply (single_chunk_layout _ _ (Sample.bytes "start")). Qed.

Lemma resumes_honors (reads : list Bytes) (fin : option Error) rest :
  drop 5 (Sample.bytes "startend!!") = concat reads ++ rest →
  (fin = None → rest = []) →
  honors (Sample.bytes "startend!!") Sample.model_url
    (fun req =>
       if bool_decide (range req = Some "bytes=5-") then
         inr (mkResponse 206 (Servers.plain "5") (Some (reads, fin)))
       else inl NetworkError).
Proof.
  intros Hbody Hfin req r _ Hf. simpl in Hf.
  case_bool_decide as Hr; [|done]. injection Hf as <-. rewrite Hr.
  intros s Hs Hhdr. change "bytes=5-" with (range_header 5) in Hhdr.
  apply range_header_inj in Hhdr as <-.
  split; [done|]. intros _. simpl. exists rest. done.
Qed.

(** A download of "startend!!" that already holds "start": a first attempt
    breaks after two more bytes, a second one completes. *)
Lemma download_round_trip_witness :
  let w0 := mkWorld ∅ Sample.partial in
  let earlier := [mkAttempt 2 Servers.breaks None] in
  let final := mkAttempt 2 Servers.resumes (Some true) in
  (attempt Sample.model_url (after_attempts Sample.model_url w0 earlier) final).1.2
  = Resolved ∧
  CacheStorage.body <$>
    cache (attempt Sample.model_url
             (after_attempts Sample.model_url w0 earlier) final).1.1
      !! Sample.model_url
  = Some (Sample.bytes "startend!!").
Proof.
  intros w0 earlier final. split; [vm_compute; reflexivity|].
  eapply (download_round_trip (Sample.bytes "startend!!") Sample.model_url
            earlier final w0).
  - split.
    + exists [Sample.bytes "start"], (Sample.bytes "end!!").
      split; [apply partial_layout|reflexivity].
    + intros c Hc. vm_compute in Hc. discriminate.
  - repeat constructor.
    + apply (resumes_honors [Sample.bytes "en"] (Some NetworkError)
               (Sample.bytes "d!!")); [reflexivity|discriminate].
    + apply (resumes_honors [Sample.bytes "en"; Sample.bytes "d!!"] None []);
        [reflexivity|reflexivity].
  - vm_compute. reflexivity.
Defined.

(** *** Quota fallback *)
Module Quota.
Import ChunkStore Http DownloadJob.
(** Chunk 0 (3 bytes) is stored and the quota of 5 bytes leaves no room for
    a second chunk of 3 bytes. *)
Definition full : DB :=
  mkDB {[ Sample.model_url := mkMetadata Sample.model_url (Num 6) 3 1 None ]}
       {[ (Sample.model_url, 0) := Sample.bytes "abc" ]}
       (Some 5).

Definition server : Fetch := fun req =>
  if bool_decide (range req = Some "bytes=3-") then
    inr (mkResponse 206 (Servers.plain "3") (Some ([Sample.bytes "def"], None)))
  else inl NetworkError.

Definition job0 : Job :=
  DownloadJob.setQuotaHandler (DownloadJob.new Sample.model_url) true.
End Quota.

(** C2, the seed scenario on the code: chunk 0 (3 bytes) is stored, the
    append of chunk 1 fails with [QuotaExceededError] and the handler allows
    the fallback.  [chunkIndex] was already incremented when the append was
    called, so the recovery asks the stream for 2 chunks; the stream yields
    chunk 0 and then fails on the missing chunk 1, and the job rethrows the
    quota error: the store is not cleared, the job fails, and nothing is
    written to the cache. *)
Lemma quota_fallback_recovery_fails :
  let '(r, outcome) :=
    start 2 Quota.server (mkRun Quota.job0 Quota.full []) in
  outcome = Failed QuotaExceededError ∧
  isMemoryMode (job r) = true ∧
  memoryChunks (job r) = [Sample.bytes "abc"] ∧
  db r = Quota.full ∧
  getStream Quota.full Sample.model_url 2
  = ([Sample.bytes "abc"], Errored (MissingChunk 1 Sample.model_url)) ∧
  downloadFile 2 Quota.server (Some true) (mkWorld ∅ Quota.full) Sample.model_url
  = (mkWorld ∅ Quota.full, Rejected QuotaExceededError,
     [mkRequest Sample.model_url (Some "bytes=3-")]).
Proof. vm_compute. repeat split; reflexivity. Qed.

(** *** A server that ignores [Range] *)
Module Ignoring.
Import Http.
(** Answers every request, ranged or not, with 200 and the whole body. *)
Definition server : Fetch := fun _ =>
  inr (mkResponse 200 (Servers.plain "10")
         (Some ([Sample.bytes "0123456789"], None))).
End Ignoring.

(** C3 on the code: the store holds 5 of 10 bytes and the server answers
    the ranged request with 200 and the 10 bytes.  The job clears the store
    and stores the body from offset 0, but [totalSize] was computed before
    [startByte] was reset: the recorded total is 10 + 5 = 15, and
    finalisation rejects with the integrity error 10 != 15.  Nothing is
    cached. *)
Lemma ignored_range_records_wrong_total :
  let '(w, settled, reqs) :=
    downloadFile 2 Ignoring.server None (mkWorld ∅ Sample.partial)
                 Sample.model_url in
  settled = Rejected (IntegrityCheckFailed 10 (Num 15)) ∧
  cache w !! Sample.model_url = None ∧
  getMetadata (store w) Sample.model_url
  = Some (mkMetadata Sample.model_url (Num 15) 10 1 None) ∧
  getStream (store w) Sample.model_url 1
  = ([Sample.bytes "0123456789"], Closed) ∧
  reqs = [mkRequest Sample.model_url (Some "bytes=5-")].
Proof. vm_compute. repeat split; reflexivity. Qed.

(** *** 416 Range Not Satisfiable *)

(** The request a job resuming at [s] sends. *)
Definition ranged (u : string) (s : Z) : Request :=
  mkRequest u (Some (range_header s)).

Lemma resumption_resume d u m :
  getMetadata d u = Some m → 0 < downloadedBytes m →
  resumption d u = (downloadedBytes m, chunkCount m, d).
Proof.
  intros Hm Hpos. unfold resumption. rewrite Hm.
  destruct (Z.ltb_spec 0 (downloadedBytes m)); [done|lia].
Qed.

Lemma quota_fallback_never_completes_witness :
  let l := mkLoop (mkRun Quota.job0 Quota.full []) [Sample.bytes "def"] 3 1 in
  (flush (Num 6) None l).2 = Some QuotaExceededError ∧
  db (run (flush (Num 6) None l).1) = Quota.full.
Proof.
  intros l.
  apply (quota_fallback_never_completes (Num 6) None Sample.model_url
           [Sample.bytes "abc"] l QuotaExceededError).
  - split; [apply (single_chunk_layout _ _ (Sample.bytes "abc"))|].
    split; [reflexivity|]. split; reflexivity.
  - discriminate.
  - reflexivity.
Defined.

Lemma job_run_keeps_store_consistent_witness :
  ∃ cl, Layout (db (start 2 Servers.breaks
                      (mkRun (DownloadJob.new Sample.model_url)
                             Sample.partial [])).1)
               Sample.model_url cl.
Proof.
  apply (job_run_keeps_store_consistent 2 Servers.breaks
           (mkRun (DownloadJob.new Sample.model_url) Sample.partial [])
           [Sample.bytes "start"]).
  - apply partial_layout.
  - reflexivity.
Defined.

Lemma execute_416_complete fuel fetch r m answer n :
  getMetadata (db r) (id (job r)) = Some m → 0 < downloadedBytes m →
  fetch (ranged (id (job r)) (downloadedBytes m)) = inr answer →
  Http.status answer = 416 →
  server_size (headers answer) = Some (Num n) → n ≤ downloadedBytes m →
  _execute (S fuel) fetch r
  = (mkRun (set_progress (job r) (mkProgress n (Num n))) (db r)
           (requests r ++ [ranged (id (job r)) (downloadedBytes m)]),
     Returned).
Proof.
  intros Hm Hpos Hf H416 Hsize Hle. simpl.
  rewrite (resumption_resume _ _ _ Hm Hpos).
  destruct (Z.ltb_spec 0 (downloadedBytes m)) as [_|]; [|lia].
  unfold ranged in Hf. rewrite Hf. unfold ok. rewrite H416. simpl.
  rewrite Hsize. simpl. destruct (Z.leb_spec n (downloadedBytes m)); [done|lia].
Qed.

(** The 416 answer does not show that the download is complete. *)
Definition restart_needed (answer : Response) (startByte : Z) : Prop :=
  match server_size (headers answer) with
  | Some (Num n) => startByte < n
  | Some NaN | None => True
  end.

Lemma execute_416_restart fuel fetch r m answer :
  getMetadata (db r) (id (job r)) = Some m → 0 < downloadedBytes m →
  fetch (ranged (id (job r)) (downloadedBytes m)) = inr answer →
  Http.status answer = 416 →
  restart_needed answer (downloadedBytes m) →
  _execute (S fuel) fetch r
  = _execute fuel fetch
      (mkRun (job r) (clear (db r) (id (job r)))
             (requests r ++ [ranged (id (job r)) (downloadedBytes m)])).
Proof.
  intros Hm Hpos Hf H416 Hneed. simpl.
  rewrite (resumption_resume _ _ _ Hm Hpos).
  destruct (Z.ltb_spec 0 (downloadedBytes m)) as [_|]; [|lia].
  unfold ranged in Hf. rewrite Hf. unfold ok. rewrite H416. simpl.
  unfold restart_needed in Hneed.
  destruct (server_size (headers answer)) as [[n|]|]; simpl; try done.
  destruct (Z.leb_spec n (downloadedBytes m)); [lia|done].
Qed.

Lemma execute_fresh fuel fetch r response :
  getMetadata (db r) (id (job r)) = None →
  fetch (mkRequest (id (job r)) None) = inr response →
  ok response = true →
  _execute (S fuel) fetch r
  = receive response None 0 0
      (mkRun (job r) (db r) (requests r ++ [mkRequest (id (job r)) None])).
Proof.
  intros Hm Hf Hok. simpl. unfold resumption. rewrite Hm. simpl.
  rewrite Hf, Hok. done.
Qed.

Lemma finalizeCache_complete w u cl m :
  Layout (store w) u cl → getMetadata (store w) u = Some m →
  totalBytes m = Num (size (concat cl)) →
  finalizeCache w u None
  = (mkWorld (<[u := mkCached (concat cl)
                               (Some (toString (Num (size (concat cl)))))
                               (Some "application/octet-stream")]> (cache w))
             (clear (store w) u),
     None).
Proof.
  intros Hlay Hm Htotal. unfold finalizeCache. rewrite Hm.
  pose proof (lay_meta _ _ _ Hlay) as Hmeta. unfold getMetadata in Hm.
  rewrite Hm in Hmeta. destruct Hmeta as [Hc Hd].
  rewrite Htotal, Hd. simpl. rewrite Z.eqb_refl. simpl.
  rewrite Hc, (getStream_layout _ _ _ Hlay). done.
Qed.

Lemma start_pending fuel fetch r :
  status (job r) = pending →
  start fuel fetch r
  = match _execute fuel fetch
            (mkRun (set_status (job r) running None) (db r) (requests r)) with
    | (r1, Returned) =>
        let j := set_status (job r1) completed None in
        (mkRun j (db r1) (requests r1),
         Complete (if isMemoryMode j then Some (Blob (memoryChunks j)) else None))
    | (r1, Threw e) =>
        if bool_decide (name e = "AbortError") then
          (mkRun (set_status (job r1) paused None) (db r1) (requests r1), Paused)
        else
          (mkRun (set_status (job r1) error (Some e)) (db r1) (requests r1),
           Failed e)
    | (r1, OutOfFuel) => (r1, Diverges)
    end.
Proof. intros Hp. unfold start. rewrite Hp. done. Qed.

(** C4, as the code has it.  The store records [downloadedBytes = d > 0]
    and the server answers the ranged request with 416.  When the answer
    carries [Content-Range: */n] with [n <= d] (as with d = 100, n = 50),
    the job returns at once as complete: one request, the store untouched,
    and [downloadFile] ends as the finalisation of the chunks already stored
    ends.  Only when the header is absent, does not match, or [d < n] does
    the job clear the store and send a second request, without [Range];
    when that one is answered ok with a non-empty body whose
    [Content-Length] is right (and the quota is not hit), that body becomes
    the cached response, the store ends without metadata, and exactly two
    requests were made. *)
Theorem range_not_satisfiable_restart fuel fetch handler w u m answer :
  cache_hit w u = false →
  getMetadata (store w) u = Some m → 0 < downloadedBytes m →
  fetch (ranged u (downloadedBytes m)) = inr answer →
  Http.status answer = 416 →
  (∀ n, server_size (headers answer) = Some (Num n) → n ≤ downloadedBytes m →
     downloadFile (S fuel) fetch handler w u
     = (let '(w', thrown) := finalizeCache w u None in
        (w',
         match thrown with
         | None => Resolved
         | Some e => Rejected e
         end,
         [ranged u (downloadedBytes m)])))
  ∧
  (restart_needed answer (downloadedBytes m) →
   ∀ fresh reads,
     fetch (mkRequest u None) = inr fresh → ok fresh = true →
     Http.body fresh = Some (reads, None) → reads ≠ [] →
     total_size fresh None 0 = Num (size (concat reads)) →
     quota (store w) = None →
     ∃ w', downloadFile (S (S fuel)) fetch handler w u
           = (w', Resolved, [ranged u (downloadedBytes m); mkRequest u None]) ∧
       CacheStorage.body <$> cache w' !! u = Some (concat reads) ∧
       getMetadata (store w') u = None).
Proof.
  intros Hhit Hm Hpos Hf H416.
  set (j := match handler with
            | Some h => DownloadJob.setQuotaHandler (DownloadJob.new u) h
            | None => DownloadJob.new u
            end).
  assert (Hj : id j = u ∧ isMemoryMode j = false ∧ status j = pending).
  { unfold j. destruct handler; done. }
  destruct Hj as (Hid & Hmem & Hpend).
  split.
  - intros n Hsize Hle. unfold downloadFile. rewrite Hhit. unfold delegate.
    fold j. rewrite start_pending by done. cbn [job db requests].
    rewrite (execute_416_complete fuel fetch
               (mkRun (set_status j running None) (store w) []) m answer n);
      simpl; try rewrite Hid; try done.
    rewrite Hmem. destruct w as [c d]. simpl.
    destruct (finalizeCache _ _ _) as [w' thrown]. done.
  - intros Hneed fresh reads Hfresh Hok Hbody Hreads Htotal Hquota.
    unfold downloadFile. rewrite Hhit. unfold delegate.
    fold j. rewrite start_pending by done. cbn [job db requests].
    rewrite (execute_416_restart (S fuel) fetch
               (mkRun (set_status j running None) (store w) []) m answer);
      cbn [job db requests set_status id]; try rewrite Hid; try done.
    rewrite (execute_fresh fuel fetch _ fresh);
      cbn [job db requests set_status id]; try rewrite Hid; try done.
    2:{ unfold getMetadata, clear. simpl. apply lookup_delete_eq. }
    destruct (receive _ _ _ _ _) as [r' c] eqn:Hrecv.
    eapply (receive_spec (concat reads) u _ _ _ _ _ [] (concat reads)) in Hrecv
      as (Hid' & _ & Hreqs & Hq' & Hret & Hgo); simpl; try done.
    2:{ apply clear_layout. }
    2:{ unfold good_body. rewrite Hbody. exists []. by rewrite app_nil_r. }
    simpl in Hreqs, Hq', Hgo.
    destruct (Hgo Hquota eq_refl reads Hbody) as [-> Hmeta].
    destruct (Hret eq_refl) as (Hmem' & cl & Hlay & Hcat).
    destruct (Hmeta Hreads) as (m' & Hm' & Htot'). rewrite Htotal in Htot'.
    simpl. rewrite Hmem'.
    rewrite (finalizeCache_complete _ u cl m'); simpl; try done.
    2:{ by rewrite Hcat. }
    eexists. split; [by rewrite Hreqs|]. simpl.
    split; [by rewrite lookup_insert_eq, Hcat|].
    unfold getMetadata. simpl. apply lookup_delete_eq.
Qed.

Module Shrunk.
Import ChunkStore Http.
(** 100 bytes of a 200-byte resource are stored as chunk 0. *)
Definition chunk : Bytes := replicate 100 Byte.x61.

Definition hundred (total : Z) : DB :=
  mkDB {[ Sample.model_url := mkMetadata Sample.model_url (Num total) 100 1 None ]}
       {[ (Sample.model_url, 0) := chunk ]}
       None.

(** Answers a ranged request with 416 and the given [Content-Range], and a
    request without a range with 13 fresh bytes. *)
Definition server (contentRange : option string) : Fetch := fun req =>
  match range req with
  | Some _ => inr (mkResponse 416 (mkHeaders None contentRange None) None)
  | None =>
      inr (mkResponse 200 (Servers.plain "13")
             (Some ([Sample.bytes "fresh content"], None)))
  end.
End Shrunk.

Lemma range_not_satisfiable_restart_witness :
  (∃ w', downloadFile 2 (Shrunk.server (Some "bytes */150")) None
           (mkWorld ∅ (Shrunk.hundred 200)) Sample.model_url
         = (w', Resolved,
            [ranged Sample.model_url 100; mkRequest Sample.model_url None]) ∧
     CacheStorage.body <$> cache w' !! Sample.model_url
     = Some (concat [Sample.bytes "fresh content"]) ∧
     getMetadata (store w') Sample.model_url = None) ∧
  downloadFile 1 (Shrunk.server (Some "bytes */50")) None
    (mkWorld ∅ (Shrunk.hundred 200)) Sample.model_url
  = (mkWorld ∅ (Shrunk.hundred 200),
     Rejected (IntegrityCheckFailed 100 (Num 200)),
     [ranged Sample.model_url 100]).
Proof.
  split.
  - destruct (range_not_satisfiable_restart 0
                (Shrunk.server (Some "bytes */150")) None
                (mkWorld ∅ (Shrunk.hundred 200)) Sample.model_url
                (mkMetadata Sample.model_url (Num 200) 100 1 None)
                (mkResponse 416 (mkHeaders None (Some "bytes */150") None) None))
      as [_ Hrestart];
      [reflexivity|reflexivity|reflexivity|reflexivity|reflexivity|].
    apply Hrestart
      with (fresh := mkResponse 200 (Servers.plain "13")
                       (Some ([Sample.bytes "fresh content"], None)))
           (reads := [Sample.bytes "fresh content"]);
      [vm_compute; reflexivity|reflexivity|reflexivity|reflexivity|discriminate
      |reflexivity|reflexivity].
  - destruct (range_not_satisfiable_restart 0
                (Shrunk.server (Some "bytes */50")) None
                (mkWorld ∅ (Shrunk.hundred 200)) Sample.model_url
                (mkMetadata Sample.model_url (Num 200) 100 1 None)
                (mkResponse 416 (mkHeaders None (Some "bytes */50") None) None))
      as [Hcomplete _];
      [reflexivity|reflexivity|reflexivity|reflexivity|reflexivity|].
    rewrite (Hcomplete 50); [reflexivity|reflexivity|vm_compute; discriminate].
Defined.

(** C4 as stated fails: with [downloadedBytes = 100] and
    [Content-Range: */50] the job makes the ranged request only and clears
    nothing.  With a recorded total of 200 the acquisition is rejected by the
    integrity check and the store keeps its metadata; with a recorded total
    of 100 the 100 stale bytes, not the fresh body, become the cached
    response. *)
Lemma range_not_satisfiable_past_server_size_completes :
  downloadFile 2 (Shrunk.server (Some "bytes */50")) None
    (mkWorld ∅ (Shrunk.hundred 200)) Sample.model_url
  = (mkWorld ∅ (Shrunk.hundred 200),
     Rejected (IntegrityCheckFailed 100 (Num 200)),
     [ranged Sample.model_url 100])
  ∧
  downloadFile 2 (Shrunk.server (Some "bytes */50")) None
    (mkWorld ∅ (Shrunk.hundred 100)) Sample.model_url
  = (mkWorld {[ Sample.model_url :=
                  mkCached Shrunk.chunk (Some "100")
                           (Some "application/octet-stream") ]}
             (mkDB ∅ ∅ None),
     Resolved,
     [ranged Sample.model_url 100]).
Proof. split; vm_compute; reflexivity. Qed.

(** *** Cleanup

    C7, as the code has it: whenever [finalizeCache] succeeds - from the
    chunk store or from a memory blob - the store holds no metadata for the
    URL afterwards; hence so does every [downloadFile] that resolves after
    delegating to the scheduler, that is, unless it returned at once because
    the cache already held a non-empty response. *)
Theorem resolved_acquisition_leaves_no_metadata :
  (∀ w u result w',
     finalizeCache w u result = (w', None) →
     getMetadata (store w') u = None) ∧
  (∀ fuel fetch handler w u w' reqs,
     cache_hit w u = false →
     downloadFile fuel fetch handler w u = (w', Resolved, reqs) →
     getMetadata (store w') u = None).
Proof.
  assert (Hfin : ∀ w u result w',
    finalizeCache w u result = (w', None) → getMetadata (store w') u = None).
  { intros w u result w' Hf. unfold finalizeCache in Hf.
    assert (Hput : ∀ b len type c',
      match put (cache w) u b len type with
      | inl e => (w, Some e)
      | inr cache' => (mkWorld cache' (clear (store w) u), None)
      end = (c', None) → getMetadata (store c') u = None).
    { intros b len type c' H. destruct (put _ _ _ _ _); [done|].
      injection H as <-. unfold getMetadata. simpl. apply lookup_delete_eq. }
    destruct result as [blob|].
    - by eapply Hput.
    - destruct (getMetadata (store w) u) as [m|]; [|done].
      destruct (strict_ne _ _); [done|].
      destruct (getStream _ _ _) as [values fin]. by eapply Hput. }
  split; [exact Hfin|].
  intros fuel fetch handler w u w' reqs Hhit Hd.
  unfold downloadFile in Hd. rewrite Hhit in Hd. unfold delegate in Hd.
  destruct (start _ _ _) as [r o].
  destruct o as [result|e| | |]; try done.
  destruct (finalizeCache _ _ _) as [w2 [e|]] eqn:Hf; [done|].
  injection Hd as <- _. by eapply Hfin.
Qed.

Lemma resolved_acquisition_leaves_no_metadata_witness :
  getMetadata
    (store (downloadFile 2 Servers.resumes None (mkWorld ∅ Sample.partial)
                         Sample.model_url).1.1)
    Sample.model_url
  = None.
Proof.
  destruct resolved_acquisition_leaves_no_metadata as [_ Hd].
  eapply (Hd 2%nat Servers.resumes None (mkWorld ∅ Sample.partial)
             Sample.model_url).
  - reflexivity.
  - vm_compute. reflexivity.
Defined.

Module Stale.
Import ChunkStore CacheStorage DownloadManager.
(** The cache already holds the resource (7 bytes), and the chunk store still
    holds the metadata and the first chunk of an abandoned download. *)
Definition world : World :=
  mkWorld {[ Sample.model_url :=
               mkCached (Sample.bytes "content") (Some "7")
                        (Some "application/octet-stream") ]}
          Sample.partial.
End Stale.

(** C7 as stated fails on the cached short circuit: [downloadFile] resolves
    without touching the chunk store, whose metadata for the URL stays. *)
Lemma cached_short_circuit_keeps_metadata :
  downloadFile 2 Servers.resumes None Stale.world Sample.model_url
  = (Stale.world, Resolved, []) ∧
  getMetadata (store Stale.world) Sample.model_url
  = Some (mkMetadata Sample.model_url (Num 10) 5 1 None).
Proof. split; vm_compute; reflexivity. Qed.

(** *** Two callers for one URL *)
Module Dedup.
Import DownloadScheduler.
Definition first := download init Sample.model_url (Some 1%nat).
Definition second := download first.1 Sample.model_url (Some 2%nat).
End Dedup.

(** C6 on the code: two callers ask for the same URL.  The second call of
    [waitForJob] replaces all three callbacks of the job, so when the job
    completes (or fails) only the second caller's promise is settled; the
    first caller's promise stays unsettled, and the job is gone from [jobs],
    so nothing will settle it later. *)
Lemma deduplicated_caller_is_never_settled :
  Dedup.first.2 = 0%nat ∧ Dedup.second.2 = 1%nat ∧
  (DownloadScheduler.promises
     <$> DownloadScheduler.settle Dedup.second.1 0 (Complete None))
  = Some [DownloadScheduler.Unsettled; DownloadScheduler.Fulfilled None] ∧
  (DownloadScheduler.promises
     <$> DownloadScheduler.settle Dedup.second.1 0 (Failed NetworkError))
  = Some [DownloadScheduler.Unsettled;
          DownloadScheduler.RejectedWith NetworkError] ∧
  (DownloadScheduler.jobs
     <$> DownloadScheduler.settle Dedup.second.1 0 (Complete None))
  = Some ∅.
Proof. vm_compute. repeat split; reflexivity. Qed.

(* ===================================================================== *)
(** * Further properties *)
(* ===================================================================== *)

(** ** Numbers written and read back as header values *)

Lemma digit_of_pretty_N_char (d : N) :
  (d < 10)%N → digit_of (pretty_N_char d) = Some (Z.of_N d).
Proof.
  intros Hd.
  assert (Hcases : (d = 0 ∨ d = 1 ∨ d = 2 ∨ d = 3 ∨ d = 4 ∨ d = 5 ∨ d = 6
                    ∨ d = 7 ∨ d = 8 ∨ d = 9)%N) by lia.
  destruct Hcases as [->|[->|[->|[->|[->|[->|[->|[->|[->| ->]]]]]]]]]; done.
Qed.

(** The digits of a positive number, read from the left, give the number. *)
Lemma digits_prefix_pretty_N_go (x : N) : ∀ s,
  (0 < x)%N →
  digits_prefix (pretty_N_go x s) None = digits_prefix s (Some (Z.of_N x)).
Proof.
  induction (N.lt_wf_0 x) as [x _ IH]. intros s Hx.
  rewrite pretty_N_go_step by done.
  pose proof (N.mod_lt x 10 ltac:(done)) as Hmod.
  pose proof (N.div_mod x 10 ltac:(done)) as Hdiv.
  destruct (decide (x `div` 10 = 0)%N) as [H0|Hpos].
  - rewrite H0, pretty_N_go_0. simpl.
    rewrite digit_of_pretty_N_char by done. simpl. do 2 f_equal. lia.
  - rewrite IH; [|apply N.div_lt; lia|by apply N.neq_0_lt_0]. simpl.
    rewrite digit_of_pretty_N_char by done. simpl. do 2 f_equal. lia.
Qed.

(** A positive number is written with a digit first. *)
Lemma pretty_N_go_head (x : N) : ∀ s,
  (0 < x)%N →
  ∃ d rest, (d < 10)%N ∧ pretty_N_go x s = String (pretty_N_char d) rest.
Proof.
  induction (N.lt_wf_0 x) as [x _ IH]. intros s Hx.
  rewrite pretty_N_go_step by done.
  destruct (decide (x `div` 10 = 0)%N) as [H0|Hpos].
  - rewrite H0, pretty_N_go_0. exists (x `mod` 10)%N, s. split; [|done].
    by apply N.mod_lt.
  - apply IH; [apply N.div_lt; lia|by apply N.neq_0_lt_0].
Qed.

Lemma parseInt_digit_first (d : N) (rest : string) :
  (d < 10)%N →
  parseInt (String (pretty_N_char d) rest)
  = match digits_prefix (String (pretty_N_char d) rest) None with
    | Some n => Num n
    | None => NaN
    end.
Proof.
  intros Hd.
  assert (Hcases : (d = 0 ∨ d = 1 ∨ d = 2 ∨ d = 3 ∨ d = 4 ∨ d = 5 ∨ d = 6
                    ∨ d = 7 ∨ d = 8 ∨ d = 9)%N) by lia.
  destruct Hcases as [->|[->|[->|[->|[->|[->|[->|[->|[->| ->]]]]]]]]];
    unfold parseInt; simpl;
    destruct (digits_prefix rest _) as [n|]; try done; f_equal; lia.
Qed.

Lemma parseInt_pretty_pos (p : positive) :
  parseInt (pretty (N.pos p)) = Num (Z.pos p).
Proof.
  unfold pretty, pretty_N. case_decide; [done|].
  destruct (pretty_N_go_head (N.pos p) "" ltac:(done)) as (d & rest & Hd & Hs).
  pose proof (digits_prefix_pretty_N_go (N.pos p) "" ltac:(done)) as Hdig.
  rewrite Hs in *. rewrite parseInt_digit_first by done.
  rewrite Hdig. done.
Qed.

Lemma parseInt_minus (s : string) :
  parseInt (String "-" s)
  = match digits_prefix s None with
    | Some n => Num (-1 * n)
    | None => NaN
    end.
Proof. done. Qed.

(** [parseInt(String(n), 10) === n] for every integer [n]. *)
Lemma parseInt_toString (z : Z) : parseInt (toString (Num z)) = Num z.
Proof.
  destruct z as [|p|p].
  - done.
  - apply parseInt_pretty_pos.
  - change (toString (Num (Z.neg p))) with (String "-" (pretty (N.pos p))).
    rewrite parseInt_minus.
    unfold pretty, pretty_N. case_decide; [done|].
    rewrite (digits_prefix_pretty_N_go (N.pos p) "") by done. simpl. done.
Qed.

Lemma toString_truthy (z : Z) : truthy (toString (Num z)) = true.
Proof.
  destruct z as [|p|p]; [reflexivity| |reflexivity].
  change (toString (Num (Z.pos p))) with (pretty (N.pos p)).
  unfold pretty, pretty_N. case_decide; [reflexivity|].
  destruct (pretty_N_go_head (N.pos p) "" ltac:(done)) as (d & rest & Hd & ->).
  reflexivity.
Qed.

Lemma toString_present (z : Z) :
  present (Some (toString (Num z))) = Some (toString (Num z)).
Proof. unfold present. by rewrite toString_truthy. Qed.

(** ** What a job leaves alone *)

(** [d'] differs from [d] at most in what it stores for [u]. *)
Definition Elsewhere (u : string) (d d' : DB) : Prop :=
  quota d' = quota d ∧
  ∀ u', u' ≠ u →
    metadata d' !! u' = metadata d !! u' ∧
    ∀ i, chunks d' !! (u', i) = chunks d !! (u', i).

Lemma Elsewhere_refl u d : Elsewhere u d d.
Proof. split; [done|]. intros u' _. done. Qed.

Lemma Elsewhere_trans u d1 d2 d3 :
  Elsewhere u d1 d2 → Elsewhere u d2 d3 → Elsewhere u d1 d3.
Proof.
  intros [Hq1 H1] [Hq2 H2]. split; [congruence|]. intros u' Hne.
  destruct (H1 u' Hne) as [Hm1 Hc1], (H2 u' Hne) as [Hm2 Hc2].
  split; [congruence|]. intros i. rewrite Hc2. apply Hc1.
Qed.

Lemma appendChunk_elsewhere d u chunk index total tag d' :
  appendChunk d u chunk index total tag = inr d' → Elsewhere u d d'.
Proof.
  unfold appendChunk. destruct (within_quota _ _); [|done].
  intros [= <-]. split; [done|]. intros u' Hne. simpl. split.
  - by rewrite lookup_insert_ne.
  - intros i. rewrite lookup_insert_ne; [done|]. congruence.
Qed.

Lemma clear_elsewhere d u : Elsewhere u d (clear d u).
Proof.
  split; [done|]. intros u' Hne. simpl. split.
  - by rewrite lookup_delete_ne.
  - intros i. destruct (chunks d !! (u', i)) as [b|] eqn:Hb.
    + apply map_lookup_filter_Some. split; [done|]. simpl. intros [? _]. done.
    + apply map_lookup_filter_None. by left.
Qed.

Lemma flush_frame total tag l l' thrown :
  flush total tag l = (l', thrown) →
  requests (run l') = requests (run l) ∧
  id (job (run l')) = id (job (run l)) ∧
  Elsewhere (id (job (run l))) (db (run l)) (db (run l')).
Proof.
  intros Hf. unfold flush in Hf.
  destruct (pendingChunks l) as [|p ps].
  { simplify_eq. split_and!; try done; apply Elsewhere_refl. }
  destruct (isMemoryMode (job (run l))).
  { simplify_eq. simpl. split_and!; try done; apply Elsewhere_refl. }
  destruct (appendChunk _ _ _ _ _ _) as [e|d'] eqn:Happ.
  2:{ simplify_eq. simpl. split_and!; try done.
      by eapply appendChunk_elsewhere. }
  case_bool_decide.
  2:{ simplify_eq. simpl. split_and!; try done; apply Elsewhere_refl. }
  destruct (quotaHandler (job (run l))) as [[|]|].
  - simpl in Hf. destruct (getStream _ _ _) as [values fin].
    destruct fin; simplify_eq; simpl; split_and!; try done;
      try apply Elsewhere_refl. apply clear_elsewhere.
  - simplify_eq. simpl. split_and!; try done; apply Elsewhere_refl.
  - simplify_eq. simpl. split_and!; try done; apply Elsewhere_refl.
Qed.

Lemma consume_frame total tag reads fin : ∀ l l' thrown,
  consume total tag reads fin l = (l', thrown) →
  requests (run l') = requests (run l) ∧
  id (job (run l')) = id (job (run l)) ∧
  Elsewhere (id (job (run l))) (db (run l)) (db (run l')).
Proof.
  induction reads as [|value reads IH]; intros l l' thrown Hc; simpl in Hc.
  - destruct fin as [e|].
    + simplify_eq. split_and!; try done; apply Elsewhere_refl.
    + by eapply flush_frame.
  - set (l1 := mkLoop _ _ _ _) in Hc.
    destruct (bufferSize <=? pendingSize l + size value).
    + destruct (flush total tag l1) as [l2 [e|]] eqn:Hf;
        apply flush_frame in Hf as (Hr & Hid & Hel); simpl in Hr, Hid, Hel.
      * simplify_eq. done.
      * apply IH in Hc as (Hr' & Hid' & Hel'). rewrite Hid in Hel'.
        split_and!; try congruence. by eapply Elsewhere_trans.
    + apply IH in Hc as (Hr' & Hid' & Hel'). done.
Qed.

Lemma receive_frame response meta s i r1 r' c :
  receive response meta s i r1 = (r', c) →
  requests r' = requests r1 ∧ id (job r') = id (job r1) ∧
  Elsewhere (id (job r1)) (db r1) (db r').
Proof.
  intros Hrecv. unfold receive in Hrecv.
  destruct (etag_changed _ _).
  { injection Hrecv as <- <-. simpl. split_and!; try done.
    apply clear_elsewhere. }
  set (ignored := (0 <? s) && (Http.status response =? 200)) in *.
  assert (Hel : Elsewhere (id (job r1)) (db r1)
                  (if ignored then clear (db r1) (id (job r1)) else db r1)).
  { destruct ignored; [apply clear_elsewhere|apply Elsewhere_refl]. }
  destruct (Http.body response) as [[reads fin]|].
  2:{ injection Hrecv as <- <-. simpl. done. }
  destruct (consume _ _ _ _ _) as [l thrown] eqn:Hc.
  apply consume_frame in Hc as (Hr & Hid & Hel'). simpl in Hr, Hid, Hel'.
  destruct thrown; injection Hrecv as <- <-; split_and!; try done;
    by eapply Elsewhere_trans.
Qed.

(** The request [_execute] sends first: ranged when the store records a
    positive number of bytes. *)
Definition first_request (d : DB) (u : string) : Request :=
  let startByte := (resumption d u).1.1 in
  mkRequest u (if 0 <? startByte then Some (range_header startByte) else None).

Lemma first_request_cleared d u :
  first_request (clear d u) u = mkRequest u None.
Proof.
  unfold first_request, resumption, getMetadata. simpl.
  by rewrite lookup_delete_eq.
Qed.

Lemma resumption_elsewhere d u : Elsewhere u d (resumption d u).2.
Proof.
  unfold resumption. destruct (getMetadata d u) as [m|]; simpl.
  - destruct (0 <? downloadedBytes m); simpl;
      [apply Elsewhere_refl|apply clear_elsewhere].
  - apply Elsewhere_refl.
Qed.

Lemma execute_frame fetch : ∀ fuel r r' c,
  _execute fuel fetch r = (r', c) →
  id (job r') = id (job r) ∧
  Elsewhere (id (job r)) (db r) (db r') ∧
  match fuel with
  | O => requests r' = requests r
  | S fuel' =>
      ∃ k, (k ≤ fuel')%nat ∧
        requests r'
        = requests r ++ first_request (db r) (id (job r))
                        :: replicate k (mkRequest (id (job r)) None)
  end.
Proof.
  induction fuel as [|fuel IH]; intros r r' c He.
  { simpl in He. injection He as <- <-. split_and!; try done. }
  simpl in He.
  pose proof (resumption_elsewhere (db r) (id (job r))) as Hel1.
  unfold first_request.
  destruct (resumption (db r) (id (job r))) as [[s i] d1] eqn:Hres.
  simpl in Hel1. simpl.
  set (req := mkRequest _ _) in *.
  destruct (fetch req) as [e|response].
  { injection He as <- <-. simpl. split_and!; try done.
    exists 0%nat. split; [lia|done]. }
  destruct (ok response); simpl in He.
  - apply receive_frame in He as (Hr & Hid & Hel). simpl in Hr, Hid, Hel.
    split_and!; try done.
    + by eapply Elsewhere_trans.
    + exists 0%nat. split; [lia|]. by rewrite Hr.
  - destruct (Http.status response =? 416).
    2:{ injection He as <- <-. simpl. split_and!; try done.
        exists 0%nat. split; [lia|done]. }
    assert (Hrec : ∀ r' c,
      _execute fuel fetch
        (mkRun (job r) (clear d1 (id (job r))) (requests r ++ [req])) = (r', c) →
      id (job r') = id (job r) ∧ Elsewhere (id (job r)) (db r) (db r') ∧
      ∃ k, (k ≤ fuel)%nat ∧
        requests r' = requests r ++ req :: replicate k (mkRequest (id (job r)) None)).
    { intros r2 c2 H2. apply IH in H2 as (Hid & Hel & Hreq).
      simpl in Hid, Hel, Hreq. split_and!; try done.
      - eapply Elsewhere_trans; [exact Hel1|].
        eapply Elsewhere_trans; [apply clear_elsewhere|done].
      - destruct fuel as [|fuel'].
        + exists 0%nat. split; [lia|]. by rewrite Hreq.
        + destruct Hreq as (k & Hk & Hreq). exists (S k). split; [lia|].
          rewrite Hreq, first_request_cleared, <- app_assoc. done. }
    match type of He with
    | match ?done with _ => _ end = _ => destruct done as [[serverSize|]|]
    end.
    + injection He as <- <-. simpl. split_and!; try done.
      exists 0%nat. split; [lia|done].
    + by eapply Hrec.
    + by eapply Hrec.
Qed.

Lemma start_frame fuel fetch r r' o :
  start fuel fetch r = (r', o) →
  id (job r') = id (job r) ∧ Elsewhere (id (job r)) (db r) (db r').
Proof.
  intros Hs. unfold start in Hs.
  destruct (status (job r));
    try (injection Hs as <- <-; split; [done|apply Elsewhere_refl]);
    (destruct (_execute _ _ _) as [r1 c] eqn:He;
     apply execute_frame in He as (Hid & Hel & _); simpl in Hid, Hel;
     destruct c as [|e|]; [| case_bool_decide |];
     injection Hs as <- <-; simpl; done).
Qed.

(** ** What a download changes, and where *)

Lemma drain_ext fuel d d' u n : ∀ i,
  (∀ i, chunks d' !! (u, i) = chunks d !! (u, i)) →
  drain fuel d' u n i = drain fuel d u n i.
Proof.
  induction fuel as [|fuel IH]; intros i Hc; [done|].
  simpl. unfold pull. rewrite Hc.
  destruct (n <=? i); [done|].
  destruct (chunks d !! (u, i)); [|done]. by rewrite IH.
Qed.

Lemma Elsewhere_reads u d d' u' :
  Elsewhere u d d' → u' ≠ u →
  getMetadata d' u' = getMetadata d u' ∧
  ∀ n, getStream d' u' n = getStream d u' n.
Proof.
  intros [_ Hel] Hne. destruct (Hel u' Hne) as [Hm Hc]. split; [done|].
  intros n. unfold getStream. by apply drain_ext.
Qed.

(** [finalizeCache] writes the cache entry of its URL and clears the store
    for it, or changes nothing. *)
Lemma finalizeCache_effect w u memoryBlob w' thrown :
  finalizeCache w u memoryBlob = (w', thrown) →
  match thrown with
  | None =>
      ∃ c, cache w' = <[u := c]> (cache w) ∧ store w' = clear (store w) u
  | Some _ => w' = w
  end.
Proof.
  intros Hf. unfold finalizeCache in Hf.
  assert (Hput : ∀ b len type w' thrown,
    match put (cache w) u b len type with
    | inl e => (w, Some e)
    | inr cache' => (mkWorld cache' (clear (store w) u), None)
    end = (w', thrown) →
    match thrown with
    | None =>
        ∃ c, cache w' = <[u := c]> (cache w) ∧ store w' = clear (store w) u
    | Some _ => w' = w
    end).
  { intros b len type w2 t H. unfold put in H.
    destruct b as [bytes|values [|e|]]; simplify_eq; simpl; eauto. }
  destruct memoryBlob as [blob|].
  - by eapply Hput.
  - destruct (getMetadata (store w) u) as [m|]; [|by simplify_eq].
    destruct (strict_ne _ _); [by simplify_eq|].
    destruct (getStream _ _ _) as [values fin]. by eapply Hput.
Qed.

(** The job that [delegate] creates. *)
Lemma delegate_job handler u :
  let j := match handler with
           | Some h => DownloadJob.setQuotaHandler (DownloadJob.new u) h
           | None => DownloadJob.new u
           end in
  id j = u ∧ isMemoryMode j = false ∧ status j = pending.
Proof. destruct handler; done. Qed.

(** X4: the cache changes only when a download succeeds, and only at the URL
    downloaded.  When [downloadFile] resolves, the cache holds a response
    for the URL (the caller reads it back with [cache.match]); when it
    rejects or never settles, the cache is as it was. *)
Theorem cache_changes_only_on_success fuel fetch handler w u :
  let '(w', settled, _) := downloadFile fuel fetch handler w u in
  (∀ u', u' ≠ u → cache w' !! u' = cache w !! u') ∧
  match settled with
  | Resolved => is_Some (cache w' !! u)
  | _ => cache w' = cache w
  end.
Proof.
  unfold downloadFile. destruct (cache_hit w u) eqn:Hhit.
  { split; [done|]. unfold cache_hit in Hhit.
    destruct (cache w !! u); [eauto|done]. }
  unfold delegate. destruct (start _ _ _) as [r o].
  destruct o as [result|e| | |]; try done.
  destruct (finalizeCache _ _ _) as [w2 thrown] eqn:Hf.
  apply finalizeCache_effect in Hf. destruct thrown as [e|].
  - subst w2. done.
  - destruct Hf as (c & Hc & _). simpl in Hc. rewrite Hc. split.
    + intros u' Hne. by rewrite lookup_insert_ne.
    + rewrite lookup_insert_eq. eauto.
Qed.

(** X5: downloads of different URLs do not disturb each other.  Whatever
    [downloadFile] does for [u] - resuming, restarting, clearing, failing -
    the cached response of another URL, its metadata record and the chunks
    its stream yields are as before. *)
Theorem download_leaves_other_urls_alone fuel fetch handler w u u' :
  u' ≠ u →
  let w' := (downloadFile fuel fetch handler w u).1.1 in
  cache w' !! u' = cache w !! u' ∧
  getMetadata (store w') u' = getMetadata (store w) u' ∧
  ∀ n, getStream (store w') u' n = getStream (store w) u' n.
Proof.
  intros Hne. simpl.
  assert (Hgoal : ∀ w', (∀ u', u' ≠ u → cache w' !! u' = cache w !! u') →
    Elsewhere u (store w) (store w') →
    cache w' !! u' = cache w !! u' ∧
    getMetadata (store w') u' = getMetadata (store w) u' ∧
    ∀ n, getStream (store w') u' n = getStream (store w) u' n).
  { intros w' Hc Hel. split; [by apply Hc|]. by eapply Elsewhere_reads. }
  unfold downloadFile. destruct (cache_hit w u).
  { simpl. apply Hgoal; [done|apply Elsewhere_refl]. }
  unfold delegate.
  destruct (delegate_job handler u) as (Hid & _ & _).
  destruct (start _ _ _) as [r o] eqn:Hs.
  apply start_frame in Hs as [_ Hel]. simpl in Hel. rewrite Hid in Hel.
  destruct o as [result|e| | |]; simpl;
    try (by apply (Hgoal (mkWorld (cache w) (db r)))).
  destruct (finalizeCache _ _ _) as [w2 thrown] eqn:Hf.
  apply finalizeCache_effect in Hf. simpl. destruct thrown as [e|].
  - subst w2. by apply (Hgoal (mkWorld (cache w) (db r))).
  - destruct Hf as (c & Hc & Hst). simpl in Hc, Hst. apply Hgoal.
    + intros u2 Hne2. rewrite Hc. by rewrite lookup_insert_ne.
    + rewrite Hst. eapply Elsewhere_trans; [done|apply clear_elsewhere].
Qed.

(** X6: a restart is always from byte zero.  Of the requests one call of
    [_execute] makes, only the first can carry a [Range] header (when the
    store records a positive number of bytes); every request after a 416
    answer is a plain request for the URL. *)
Theorem restart_requests_carry_no_range fuel fetch r :
  ∃ k, (k ≤ fuel)%nat ∧
    requests (_execute (S fuel) fetch r).1
    = requests r ++ first_request (db r) (id (job r))
                    :: replicate k (mkRequest (id (job r)) None).
Proof.
  destruct (_execute (S fuel) fetch r) as [r' c] eqn:He.
  apply execute_frame in He as (_ & _ & Hreq). done.
Qed.

(** ** Finalisation and the integrity check *)

Lemma start_layout fuel fetch r r' o cl :
  Layout (db r) (id (job r)) cl → isMemoryMode (job r) = false →
  start fuel fetch r = (r', o) →
  ∃ cl', Layout (db r') (id (job r)) cl'.
Proof.
  intros Hlay Hmem Hs. unfold start in Hs.
  destruct (status (job r));
    try (injection Hs as <- <-; by exists cl);
    (destruct (_execute _ _ _) as [r1 c] eqn:He;
     eapply (execute_layout _ _ _ _ _ cl) in He as (_ & _ & cl' & Hlay');
       [|done|done];
     exists cl'; destruct c as [|e|]; [| case_bool_decide |];
     injection Hs as <- <-; done).
Qed.

(** The response [finalizeCache] stores announces the size of its body. *)
Lemma finalizeCache_entry w u memoryBlob w' :
  (memoryBlob = None → ∃ cl, Layout (store w) u cl) →
  finalizeCache w u memoryBlob = (w', None) →
  ∃ b,
    cache w' = <[u := mkCached b (Some (toString (Num (size b))))
                               (Some "application/octet-stream")]> (cache w) ∧
    store w' = clear (store w) u.
Proof.
  intros Hlay Hf. unfold finalizeCache in Hf.
  destruct memoryBlob as [blob|].
  - simpl in Hf. injection Hf as <-. simpl. eauto.
  - destruct (Hlay eq_refl) as [cl Hcl].
    pose proof (lay_meta _ _ _ Hcl) as Hm. unfold getMetadata in Hf.
    destruct (metadata (store w) !! u) as [m|]; [|done].
    destruct Hm as [Hc Hd].
    destruct (totalBytes m) as [t|] eqn:Ht; simpl in Hf; [|done].
    destruct (Z.eqb_spec (downloadedBytes m) t) as [Heq|Hne]; simpl in Hf;
      [|done].
    rewrite Hc, (getStream_layout _ _ _ Hcl) in Hf. simpl in Hf.
    injection Hf as <-. simpl. exists (concat cl). split; [|done].
    by rewrite <- Heq, Hd.
Qed.

Lemma checkCacheIntegrity_entry c u b type :
  checkCacheIntegrity
    (<[u := mkCached b (Some (toString (Num (size b)))) type]> c) u
  = IntegrityOk.
Proof.
  unfold checkCacheIntegrity. rewrite lookup_insert_eq.
  cbn [content_length CacheStorage.content_length CacheStorage.body].
  rewrite toString_present, parseInt_toString. simpl.
  by rewrite Z.eqb_refl.
Qed.

Lemma cached_nonempty_entry b type :
  cached_nonempty (mkCached b (Some (toString (Num (size b)))) type)
  = (0 <? size b).
Proof.
  unfold cached_nonempty. cbn [CacheStorage.content_length].
  by rewrite toString_present, parseInt_toString.
Qed.

(** X7: what [finalizeCache] writes passes [checkCacheIntegrity].  From a
    memory blob always; from the chunk store when the store's accounting is
    right (the chunks are those the metadata counts). *)
Theorem finalized_download_passes_integrity_check w u memoryBlob w' :
  (memoryBlob = None → ∃ cl, Layout (store w) u cl) →
  finalizeCache w u memoryBlob = (w', None) →
  checkCacheIntegrity (cache w') u = IntegrityOk.
Proof.
  intros Hlay Hf.
  destruct (finalizeCache_entry _ _ _ _ Hlay Hf) as (b & -> & _).
  apply checkCacheIntegrity_entry.
Qed.

(** X8: a file that was downloaded is not fetched again.  When
    [downloadFile] resolves after running a job on a store whose accounting
    is right, the response it cached is non-empty exactly when every later
    call of [downloadFile] for the URL resolves at once, without a request
    and without touching cache or store; an empty file is never a cache hit,
    so it is downloaded again on every call. *)
Theorem downloaded_file_is_not_fetched_again fuel fetch handler w u cl w' reqs :
  Layout (store w) u cl → cache_hit w u = false →
  downloadFile fuel fetch handler w u = (w', Resolved, reqs) →
  ∃ c, cache w' !! u = Some c ∧
    checkCacheIntegrity (cache w') u = IntegrityOk ∧
    if bool_decide (CacheStorage.body c = []) then cache_hit w' u = false
    else ∀ fuel' fetch' handler',
           downloadFile fuel' fetch' handler' w' u = (w', Resolved, []).
Proof.
  intros Hlay Hhit Hd. unfold downloadFile in Hd. rewrite Hhit in Hd.
  unfold delegate in Hd.
  destruct (delegate_job handler u) as (Hid & Hmem & _).
  destruct (start _ _ _) as [r o] eqn:Hs.
  eapply (start_layout _ _ _ _ _ cl) in Hs as [cl' Hlay'];
    [|cbn [db job]; by rewrite Hid|done].
  cbn [db job] in Hlay'. rewrite Hid in Hlay'.
  destruct o as [result|e| | |]; try done.
  destruct (finalizeCache _ _ _) as [w2 [e|]] eqn:Hf; [done|].
  injection Hd as <- <-.
  apply finalizeCache_entry in Hf as (b & Hc & _); [|by eauto].
  simpl in Hc. eexists. split; [by rewrite Hc, lookup_insert_eq|].
  split; [rewrite Hc; apply checkCacheIntegrity_entry|].
  assert (Hhit' : cache_hit w2 u = (0 <? size b)).
  { unfold cache_hit. rewrite Hc, lookup_insert_eq.
    apply cached_nonempty_entry. }
  cbn [CacheStorage.body]. case_bool_decide as Hb.
  - rewrite Hhit', Hb. done.
  - intros fuel' fetch' handler'. unfold downloadFile. rewrite Hhit'.
    destruct (Z.ltb_spec 0 (size b)) as [_|Hz]; [done|].
    exfalso. apply Hb. apply size_zero_nil.
    pose proof (size_nonneg b). lia.
Qed.

(** ** [deleteFromCache] *)

(** [deleteFromCache(url)] (lines 278-287): [cache.delete(url)], then
    [store.clear(url)]. *)
Definition deleteFromCache (w : World) (u : string) : World :=
  mkWorld (delete u (cache w)) (clear (store w) u).

(** X9: after [deleteFromCache] the URL is downloaded afresh.  The integrity
    check reports the file missing, and the next [downloadFile] - with a
    positive budget of requests - does go to the network, with requests
    that carry no [Range] header: nothing of an earlier partial download is
    resumed.  Another URL's cached response and partial download stay. *)
Theorem deleteFromCache_forces_fresh_download w u :
  let w0 := deleteFromCache w u in
  checkCacheIntegrity (cache w0) u = Missing ∧
  getMetadata (store w0) u = None ∧
  (∀ fuel fetch handler,
     ∃ k, (k ≤ fuel)%nat ∧
       (downloadFile (S fuel) fetch handler w0 u).2
       = replicate (S k) (mkRequest u None)) ∧
  (∀ u', u' ≠ u →
     cache w0 !! u' = cache w !! u' ∧
     getMetadata (store w0) u' = getMetadata (store w) u' ∧
     ∀ n, getStream (store w0) u' n = getStream (store w) u' n).
Proof.
  simpl. split_and!.
  - unfold checkCacheIntegrity, deleteFromCache. simpl.
    by rewrite lookup_delete_eq.
  - unfold getMetadata. simpl. by rewrite lookup_delete_eq.
  - intros fuel fetch handler.
    unfold downloadFile, cache_hit, deleteFromCache. simpl.
    rewrite lookup_delete_eq. unfold delegate.
    destruct (delegate_job handler u) as (Hid & _ & Hpend).
    set (j := match handler with Some h => _ | None => _ end) in *.
    clearbody j.
    assert (Hreq : ∃ k, (k ≤ fuel)%nat ∧
      requests (start (S fuel) fetch (mkRun j (clear (store w) u) [])).1
      = replicate (S k) (mkRequest u None)).
    { unfold start. cbn [job db requests]. rewrite Hpend.
      destruct (_execute _ _ _) as [r1 c] eqn:He.
      apply execute_frame in He as (_ & _ & k & Hk & Hreq).
      cbn [job db requests set_status id] in Hreq.
      rewrite Hid, first_request_cleared in Hreq. simpl in Hreq.
      exists k. split; [done|].
      destruct c as [|e|]; [| case_bool_decide |]; simpl; done. }
    destruct Hreq as (k & Hk & Hreq). exists k. split; [done|].
    destruct (start _ _ _) as [r o]. simpl in Hreq.
    destruct o as [result|e| | |]; try done.
    by destruct (finalizeCache _ _ _) as [w2 thrown].
  - intros u' Hne. split; [by apply lookup_delete_ne|].
    apply (Elsewhere_reads u); [apply clear_elsewhere|done].
Qed.

(** ** The restart after 416 *)

(** One pass through the body of [_execute]: the result, or the run the
    recursive call starts from. *)
Definition execute_once (fetch : Fetch) (r : Run) : Run * Completion + Run :=
  let u := id (job r) in
  let meta := getMetadata (db r) u in
  let '(startByte, chunkIndex0, db1) := resumption (db r) u in
  let req := first_request (db r) u in
  let r1 := mkRun (job r) db1 (requests r ++ [req]) in
  match fetch req with
  | inl e => inl (r1, Threw e)
  | inr response =>
      if ok response then inl (receive response meta startByte chunkIndex0 r1)
      else if Http.status response =? 416 then
        match server_size (headers response) with
        | Some (Num serverSize) =>
            if startByte >=? serverSize then
              inl (mkRun (set_progress (job r1)
                            (mkProgress serverSize (Num serverSize)))
                         (db r1) (requests r1),
                   Returned)
            else inr (mkRun (job r1) (clear (db r1) u) (requests r1))
        | _ => inr (mkRun (job r1) (clear (db r1) u) (requests r1))
        end
      else inl (r1, Threw (FetchFailed (Http.status response)))
  end.

Lemma execute_unfold fuel fetch r :
  _execute (S fuel) fetch r
  = match execute_once fetch r with
    | inl result => result
    | inr r2 => _execute fuel fetch r2
    end.
Proof.
  simpl. unfold execute_once, first_request.
  destruct (resumption (db r) (id (job r))) as [[s i] d1]. simpl.
  destruct (fetch _) as [e|response]; [done|].
  destruct (ok response); simpl; [done|].
  destruct (Http.status response =? 416); [|done].
  destruct (server_size (headers response)) as [[n|]|]; try done.
  simpl. rewrite Z.geb_leb. destruct (n <=? s); done.
Qed.

Lemma receive_completes response meta s i r1 :
  (receive response meta s i r1).2 ≠ OutOfFuel.
Proof.
  unfold receive. destruct (etag_changed _ _); [done|].
  destruct (Http.body response) as [[reads fin]|]; [|done].
  destruct (consume _ _ _ _ _) as [l [e|]]; done.
Qed.

Lemma execute_once_completes fetch r result :
  execute_once fetch r = inl result → result.2 ≠ OutOfFuel.
Proof.
  unfold execute_once.
  destruct (resumption (db r) (id (job r))) as [[s i] d1].
  destruct (fetch _) as [e|response]; [by intros [= <-]|].
  destruct (ok response).
  { intros [= <-]. apply receive_completes. }
  destruct (Http.status response =? 416); [|by intros [= <-]].
  destruct (server_size (headers response)) as [[n|]|]; try done.
  destruct (s >=? n); [by intros [= <-]|done].
Qed.

(** A restart begins with a cleared store and the same job. *)
Lemma execute_once_restart fetch r r2 :
  execute_once fetch r = inr r2 →
  job r2 = job r ∧ getMetadata (db r2) (id (job r)) = None ∧
  requests r2 = requests r ++ [first_request (db r) (id (job r))] ∧
  ∃ answer, fetch (first_request (db r) (id (job r))) = inr answer ∧
            Http.status answer = 416.
Proof.
  unfold execute_once.
  destruct (resumption (db r) (id (job r))) as [[s i] d1].
  destruct (fetch _) as [e|response]; [done|].
  destruct (ok response); [done|].
  destruct (Z.eqb_spec (Http.status response) 416) as [H416|]; [|done].
  assert (Hclear : getMetadata (clear d1 (id (job r))) (id (job r)) = None).
  { unfold getMetadata. simpl. apply lookup_delete_eq. }
  destruct (server_size (headers response)) as [[n|]|].
  - destruct (s >=? n); [done|]. intros [= <-]. simpl. eauto 10.
  - intros [= <-]. simpl. eauto 10.
  - intros [= <-]. simpl. eauto 10.
Qed.

Lemma first_request_fresh d u :
  getMetadata d u = None → first_request d u = mkRequest u None.
Proof. intros Hm. unfold first_request, resumption. by rewrite Hm. Qed.

(** X10: the restart happens at most once.  When the server never answers a
    request without [Range] with 416, [_execute] recurses at most once: a
    recursion depth of 2 is never exhausted, a larger budget changes
    nothing, and at most two requests are made. *)
Theorem restart_happens_at_most_once fetch r :
  (∀ answer, fetch (mkRequest (id (job r)) None) = inr answer →
     Http.status answer ≠ 416) →
  (_execute 2 fetch r).2 ≠ OutOfFuel ∧
  (length (requests (_execute 2 fetch r).1) ≤ length (requests r) + 2)%nat ∧
  ∀ fuel, _execute (S (S fuel)) fetch r = _execute 2 fetch r.
Proof.
  intros Hplain.
  assert (Hsecond : ∀ r2, execute_once fetch r = inr r2 →
    ∃ result, execute_once fetch r2 = inl result).
  { intros r2 H2. apply execute_once_restart in H2 as (Hj & Hm & _ & _).
    destruct (execute_once fetch r2) as [result|r3] eqn:H3; [eauto|].
    apply execute_once_restart in H3 as (_ & _ & _ & answer & Hf & H416).
    rewrite Hj, first_request_fresh in Hf by done.
    by destruct (Hplain answer Hf). }
  split_and!.
  - rewrite execute_unfold.
    destruct (execute_once fetch r) as [result|r2] eqn:H1.
    + by eapply execute_once_completes.
    + destruct (Hsecond r2 eq_refl) as [result H2].
      rewrite execute_unfold, H2. by eapply execute_once_completes.
  - destruct (_execute 2 fetch r) as [r' c] eqn:He.
    apply execute_frame in He as (_ & _ & k & Hk & Hreq). simpl.
    rewrite Hreq, length_app. simpl. rewrite length_replicate. lia.
  - intros fuel. rewrite !(execute_unfold _ fetch r).
    destruct (execute_once fetch r) as [result|r2] eqn:H1; [done|].
    destruct (Hsecond r2 eq_refl) as [result H2].
    by rewrite !execute_unfold, H2.
Qed.

(** X11: a server that answers every request for the URL with 416 and no
    usable [Content-Range] keeps the job restarting for ever: whatever the
    budget, it is used up, one request per restart, and the promise of
    [downloadFile] is not settled. *)
Theorem persistent_416_never_settles fetch handler w u :
  cache_hit w u = false →
  (∀ req, req_url req = u →
     ∃ answer, fetch req = inr answer ∧ Http.status answer = 416 ∧
               server_size (headers answer) = None) →
  ∀ fuel,
    (downloadFile fuel fetch handler w u).1.2 = NeverSettles ∧
    length (downloadFile fuel fetch handler w u).2 = fuel.
Proof.
  intros Hhit Hsrv fuel.
  assert (Hloop : ∀ fuel r, id (job r) = u →
    (_execute fuel fetch r).2 = OutOfFuel ∧
    length (requests (_execute fuel fetch r).1)
    = (length (requests r) + fuel)%nat).
  { clear fuel. induction fuel as [|fuel IH]; intros r Hid.
    { simpl. split; [done|lia]. }
    rewrite execute_unfold.
    assert (Hone : ∃ d, execute_once fetch r
      = inr (mkRun (job r) d
               (requests r ++ [first_request (db r) (id (job r))]))).
    { unfold execute_once.
      destruct (resumption (db r) (id (job r))) as [[s i] d1].
      destruct (Hsrv (first_request (db r) (id (job r)))) as (a & -> & H416 & Hsz).
      { by rewrite <- Hid. }
      unfold ok. rewrite H416, Hsz. simpl. eauto. }
    destruct Hone as [d ->].
    destruct (IH (mkRun (job r) d
                    (requests r ++ [first_request (db r) (id (job r))])))
      as [Hc Hlen]; [done|].
    split; [done|]. rewrite Hlen. simpl. rewrite length_app. simpl. lia. }
  unfold downloadFile. rewrite Hhit. unfold delegate.
  destruct (delegate_job handler u) as (Hid & _ & Hpend).
  set (j := match handler with Some h => _ | None => _ end) in *.
  clearbody j. unfold start. cbn [job db requests]. rewrite Hpend.
  destruct (Hloop fuel (mkRun (set_status j running None) (store w) []))
    as [Hc Hlen]; [done|].
  destruct (_execute _ _ _) as [r1 c]. simpl in Hc, Hlen. subst c.
  simpl. split; [done|lia].
Qed.

(** X12: an empty file cannot be downloaded.  When nothing is stored for the
    URL and the server answers with an ok response whose body ends without
    a byte, the job completes without having written a chunk - and hence
    without a metadata record - and [downloadFile] rejects with "Metadata
    missing"; nothing is cached. *)
Theorem empty_response_is_rejected fuel fetch handler w u response :
  cache_hit w u = false → getMetadata (store w) u = None →
  fetch (mkRequest u None) = inr response → ok response = true →
  Http.body response = Some ([], None) →
  downloadFile (S fuel) fetch handler w u
  = (w, Rejected (MetadataMissing u), [mkRequest u None]).
Proof.
  intros Hhit Hm Hf Hok Hbody.
  unfold downloadFile. rewrite Hhit. unfold delegate.
  destruct (delegate_job handler u) as (Hid & Hmem & Hpend).
  set (j := match handler with Some h => _ | None => _ end) in *.
  clearbody j. rewrite start_pending by done.
  cbn [job db requests].
  rewrite execute_fresh with (response := response);
    cbn [job db requests set_status id]; rewrite ?Hid; try done.
  unfold receive. cbn [job db requests set_status id etag_changed].
  rewrite Hbody. simpl. rewrite Hmem. simpl.
  unfold finalizeCache. simpl. rewrite Hm. destruct w. done.
Qed.

(** ** Writing chunks and streaming them back *)

(** The chunks [parts] appended one after the other from [index] on, as a
    job appends them. *)
Fixpoint appendChunks (d : DB) (u : string) (parts : list Bytes) (index : Z)
    (total : num) (tag : option string) : Error + DB :=
  match parts with
  | [] => inr d
  | chunk :: parts' =>
      match appendChunk d u chunk index total tag with
      | inl e => inl e
      | inr d' => appendChunks d' u parts' (index + 1) total tag
      end
  end.

Lemma appendChunks_layout u total tag parts : ∀ d cl d',
  Layout d u cl →
  appendChunks d u parts (Z.of_nat (length cl)) total tag = inr d' →
  Layout d' u (cl ++ parts) ∧
  (parts ≠ [] → ∃ m, metadata d' !! u = Some m ∧ totalBytes m = total).
Proof.
  induction parts as [|chunk parts IH]; intros d cl d' Hlay Ha; simpl in Ha.
  { injection Ha as <-. rewrite app_nil_r. done. }
  destruct (appendChunk _ _ _ _ _ _) as [e|d1] eqn:H1; [done|].
  apply (appendChunk_layout _ _ _ _ _ _ _ Hlay) in H1 as (Hlay1 & _ & Hm1).
  replace (Z.of_nat (length cl) + 1) with (Z.of_nat (length (cl ++ [chunk])))
    in Ha by (rewrite length_app; simpl; lia).
  pose proof (IH _ _ _ Hlay1 Ha) as [Hlay' Hm']. rewrite <- app_assoc in Hlay'.
  split; [done|]. intros _. destruct parts as [|c2 parts'].
  - simpl in Ha. by injection Ha as <-.
  - by apply Hm'.
Qed.

(** X13: appended chunks stream back.  After [clear(url)], chunks appended at
    the indices 0, 1, ... are yielded by [getStream] in that order, and the
    metadata record counts them, sums their sizes and carries the total last
    supplied. *)
Theorem appended_chunks_stream_back d u parts total tag d' :
  appendChunks (clear d u) u parts 0 total tag = inr d' →
  getStream d' u (Z.of_nat (length parts)) = (parts, Closed) ∧
  match getMetadata d' u with
  | Some m =>
      chunkCount m = Z.of_nat (length parts) ∧
      downloadedBytes m = size (concat parts) ∧
      totalBytes m = total ∧ parts ≠ []
  | None => parts = []
  end.
Proof.
  intros Ha.
  pose proof (appendChunks_layout u total tag parts _ [] d' (clear_layout d u) Ha)
    as [Hlay Hm].
  simpl in Hlay. split; [by apply getStream_layout|].
  pose proof (lay_meta _ _ _ Hlay) as Hmeta. unfold getMetadata.
  destruct parts as [|c parts'].
  - simpl in Ha. injection Ha as <-. simpl. by rewrite lookup_delete_eq.
  - destruct Hm as (m & Hm & Ht); [done|]. rewrite Hm in *.
    destruct Hmeta as [Hc Hd]. done.
Qed.

(** ** A well-behaved server *)





Lemma execute_resume fuel fetch r m answer :
  getMetadata (db r) (id (job r)) = Some m → 0 < downloadedBytes m →
  fetch (ranged (id (job r)) (downloadedBytes m)) = inr answer →
  ok answer = true →
  _execute (S fuel) fetch r
  = receive answer (Some m) (downloadedBytes m) (chunkCount m)
      (mkRun (job r) (db r)
             (requests r ++ [ranged (id (job r)) (downloadedBytes m)])).
Proof.
  intros Hm Hpos Hf Hok. simpl.
  rewrite (resumption_resume _ _ _ Hm Hpos).
  destruct (Z.ltb_spec 0 (downloadedBytes m)) as [_|]; [|lia].
  unfold ranged in Hf. rewrite Hf, Hok, Hm. done.
Qed.




(** X15: a changed validator discards the partial download.  When the store
    holds part of a download under one validator and the answer to the
    ranged request carries another, the job clears the store and fails
    with "ETag mismatch, restart required": [downloadFile] rejects, nothing
    is cached, and the next call asks for the whole file. *)
Theorem changed_validator_discards_partial_download
    fuel fetch handler w u m answer :
  cache_hit w u = false →
  getMetadata (store w) u = Some m → 0 < downloadedBytes m →
  fetch (ranged u (downloadedBytes m)) = inr answer → ok answer = true →
  etag_changed (Some m) (etag_header (headers answer)) = true →
  downloadFile (S fuel) fetch handler w u
  = (mkWorld (cache w) (clear (store w) u), Rejected ETagMismatch,
     [ranged u (downloadedBytes m)]) ∧
  first_request (clear (store w) u) u = mkRequest u None.
Proof.
  intros Hhit Hm Hpos Hf Hok Htag. split; [|apply first_request_cleared].
  unfold downloadFile. rewrite Hhit. unfold delegate.
  destruct (delegate_job handler u) as (Hid & Hmem & Hpend).
  set (j := match handler with Some h => _ | None => _ end) in *.
  clearbody j. rewrite start_pending by done. cbn [job db requests].
  rewrite (execute_resume _ _ _ m answer);
    cbn [job db requests set_status id]; rewrite ?Hid; try done.
  unfold receive. rewrite Htag. cbn [job db requests set_status id].
  rewrite Hid. simpl. done.
Qed.


(** ** The memory fallback *)

Lemma receive_mode response meta s i r1 cl1 r' :
  Layout (db r1) (id (job r1)) cl1 → isMemoryMode (job r1) = false →
  i = Z.of_nat (length cl1) →
  receive response meta s i r1 = (r', Returned) →
  isMemoryMode (job r') = false.
Proof.
  intros Hlay Hmem Hi Hrecv. unfold receive in Hrecv.
  destruct (etag_changed _ _); [done|].
  set (ignored := (0 <? s) && (Http.status response =? 200)) in *.
  set (cl2 := if ignored then [] else cl1).
  assert (Hlay2 : Layout (if ignored then clear (db r1) (id (job r1)) else db r1)
                         (id (job r1)) cl2).
  { unfold cl2. destruct ignored; [apply clear_layout|done]. }
  destruct (Http.body response) as [[reads fin]|]; [|done].
  destruct (consume _ _ _ _ _) as [l thrown] eqn:Hc.
  eapply (consume_spec _ _ (id (job r1)) _ _ cl2) in Hc
    as (_ & _ & _ & _ & cl' & _ & Hres).
  2:{ unfold Sound. simpl. split_and!; try done.
      unfold cl2. destruct ignored; simpl; done. }
  destruct thrown as [e|]; [done|]. injection Hrecv as <-.
  by destruct Hres as (_ & Hmem' & _).
Qed.

Lemma execute_mode fetch : ∀ fuel r r' cl,
  Layout (db r) (id (job r)) cl → isMemoryMode (job r) = false →
  _execute fuel fetch r = (r', Returned) →
  isMemoryMode (job r') = false.
Proof.
  induction fuel as [|fuel IH]; intros r r' cl Hlay Hmem He; [done|].
  rewrite execute_unfold in He. unfold execute_once in He.
  destruct (resumption (db r) (id (job r))) as [[s i] d1] eqn:Hres.
  destruct (resumption_spec _ _ _ _ _ _ Hlay Hres)
    as (_ & cl1 & Hlay1 & _ & Hi & _).
  destruct (fetch _) as [e|response]; [done|].
  destruct (ok response).
  { by eapply (receive_mode _ _ _ _ _ cl1) in He. }
  destruct (Http.status response =? 416); [|done].
  assert (Hrec : _execute fuel fetch
                   (mkRun (job r) (clear d1 (id (job r)))
                      (requests r ++ [first_request (db r) (id (job r))]))
                 = (r', Returned) → isMemoryMode (job r') = false).
  { intros H. eapply (IH _ _ []) in H; [done| |done]. apply clear_layout. }
  destruct (server_size (headers response)) as [[n|]|]; [|by apply Hrec..].
  destruct (s >=? n); [|by apply Hrec].
  by injection He as <-.
Qed.

(** X16: the memory fallback is never delivered.  A job that starts in store
    mode on a store whose accounting is right never completes with a blob
    from memory: whatever the quota, the handler and the server do, a
    completed run leaves its result to the chunk store. *)
Theorem memory_fallback_is_never_delivered fuel fetch r cl result :
  Layout (db r) (id (job r)) cl → isMemoryMode (job r) = false →
  (start fuel fetch r).2 = Complete result → result = None.
Proof.
  intros Hlay Hmem Hs. unfold start in Hs.
  destruct (status (job r)); try done;
    (destruct (_execute _ _ _) as [r1 c] eqn:He;
     destruct c as [|e|]; [|by case_bool_decide|done];
     eapply (execute_mode _ _ _ _ cl) in He; [|done|done];
     simpl in Hs; rewrite He in Hs; by injection Hs as <-).
Qed.


(** ** The scheduler: which job a URL has, and whose promise it settles *)
Section Tracking.
Import DownloadJob DownloadScheduler.

(** A job that has not completed or failed. *)
Definition live (o : JobObject) : Prop :=
  status (the_job o) = pending ∨ status (the_job o) = running ∨
  status (the_job o) = paused.

(** What [processQueue] may do to a job object: nothing, or start it when it
    was pending. *)
Definition started_or_same (o o' : JobObject) : Prop :=
  callbacks o' = callbacks o ∧
  (the_job o' = the_job o ∨
   (status (the_job o) = pending ∧
    the_job o' = set_status (the_job o) running None)).

Lemma started_or_same_refl o : started_or_same o o.
Proof. split; [done|by left]. Qed.

Lemma started_or_same_facts o o' :
  started_or_same o o' →
  id (the_job o') = id (the_job o) ∧ (live o' ↔ live o) ∧
  (status (the_job o') = paused ↔ status (the_job o) = paused).
Proof.
  unfold live. intros [_ [Heq|[Hp Heq]]]; rewrite Heq; [done|].
  simpl. rewrite Hp. split; [done|]. split; [|done].
  split; intros _; eauto.
Qed.

Lemma processQueue_loop_started q : ∀ h a q' h' a',
  queued_pending q h → NoDup q →
  processQueue_loop q h a = (q', h', a') →
  length h' = length h ∧
  (q' = [] ∨ MAX_CONCURRENT ≤ a') ∧
  ∀ r o, h !! r = Some o → ∃ o', h' !! r = Some o' ∧ started_or_same o o'.
Proof.
  induction q as [|r0 q IH]; intros h a q' h' a' Hq Hnd Hp; simpl in Hp.
  - assert (Heq : (q', h', a') = ([], h, a)) by (by destruct (_ <=? _)).
    injection Heq as -> -> ->. split; [done|]. split; [by left|].
    intros r o Ho. exists o. split; [done|apply started_or_same_refl].
  - destruct (Z.leb_spec MAX_CONCURRENT a) as [Hfull|Hfree].
    { injection Hp as <- <- <-. split; [done|]. split; [by right|].
      intros r o Ho. exists o. split; [done|apply started_or_same_refl]. }
    destruct (Hq r0) as (o0 & Ho0 & Hpend); [by left|].
    apply NoDup_cons in Hnd as [Hnotin Hnd].
    assert (Hstart : start_ref h r0
                     = <[r0 := mkJobObject (set_status (the_job o0) running None)
                                           (callbacks o0)]> h).
    { unfold start_ref, start_sync. rewrite Ho0, Hpend. done. }
    rewrite Hstart in Hp.
    apply IH in Hp as (Hlen & Hdrain & Hrel); [| |done].
    2:{ intros r' Hr'. destruct (Hq r') as (o' & Ho' & Hp'); [by right|].
        exists o'. split; [|done].
        rewrite list_lookup_insert_ne; [done|]. intros ->. done. }
    rewrite length_insert in Hlen. split; [done|]. split; [done|].
    intros r o Ho. destruct (decide (r = r0)) as [->|Hne].
    + destruct (Hrel r0 (mkJobObject (set_status (the_job o0) running None)
                           (callbacks o0)))
        as (o' & Ho' & Hcb & Hjob).
      { apply list_lookup_insert_eq. by eapply lookup_lt_Some. }
      assert (o = o0) as -> by congruence.
      exists o'. split; [done|]. split; [done|]. right. split; [done|].
      destruct Hjob as [Heq|[Hbad _]]; [done|]. done.
    + apply Hrel. by rewrite list_lookup_insert_ne.
Qed.

Lemma processQueue_started s :
  queued_pending (queue s) (heap s) → NoDup (queue s) →
  let s' := processQueue s in
  jobs s' = jobs s ∧ promises s' = promises s ∧
  length (heap s') = length (heap s) ∧
  (queue s' = [] ∨ MAX_CONCURRENT ≤ activeCount s') ∧
  ∀ r o, heap s !! r = Some o →
    ∃ o', heap s' !! r = Some o' ∧ started_or_same o o'.
Proof.
  intros Hq Hnd. unfold processQueue.
  destruct (processQueue_loop _ _ _) as [[q' h'] a'] eqn:Hp.
  apply processQueue_loop_started in Hp as (Hlen & Hdrain & Hrel); try done.
Qed.

(** From the new heap back to the old one. *)
Lemma heap_back (R : JobObject → JobObject → Prop) (h h' : list JobObject) :
  length h' = length h →
  (∀ r o, h !! r = Some o → ∃ o', h' !! r = Some o' ∧ R o o') →
  ∀ r o', h' !! r = Some o' → ∃ o, h !! r = Some o ∧ R o o'.
Proof.
  intros Hlen Hrel r o' Ho'.
  assert (Hlt : (r < length h)%nat).
  { rewrite <- Hlen. by eapply lookup_lt_Some. }
  apply lookup_lt_is_Some_2 in Hlt as [o Ho].
  destruct (Hrel r o Ho) as (o2 & Ho2 & HR).
  exists o. split; [done|]. congruence.
Qed.

(** What ties the maps of the scheduler together. *)
Record Tracking (s : Scheduler) : Prop := mkTracking {
  trk_live : ∀ r o, heap s !! r = Some o → live o →
               jobs s !! id (the_job o) = Some r;
  trk_jobs : ∀ u r, jobs s !! u = Some r →
               ∃ o, heap s !! r = Some o ∧ id (the_job o) = u ∧ live o;
  trk_bound : ∀ r o c, heap s !! r = Some o → callbacks o = Some c →
                (promise c < length (promises s))%nat;
  trk_inj : ∀ r1 r2 o1 o2 c1 c2,
              heap s !! r1 = Some o1 → heap s !! r2 = Some o2 →
              callbacks o1 = Some c1 → callbacks o2 = Some c2 →
              promise c1 = promise c2 → r1 = r2;
  trk_unsettled : ∀ r o c, heap s !! r = Some o → callbacks o = Some c →
                    live o → promises s !! promise c = Some Unsettled
}.

Lemma init_tracking : Tracking init.
Proof. split; simpl; intros; simplify_eq. Qed.

Lemma tracking_started s s' :
  Tracking s → jobs s' = jobs s → promises s' = promises s →
  length (heap s') = length (heap s) →
  (∀ r o, heap s !! r = Some o →
     ∃ o', heap s' !! r = Some o' ∧ started_or_same o o') →
  Tracking s'.
Proof.
  intros [Hlive Hjobs Hbound Hinj Huns] Hj Hp Hlen Hrel.
  pose proof (heap_back _ _ _ Hlen Hrel) as Hback.
  split; rewrite ?Hj, ?Hp.
  - intros r o' Ho' Hl. destruct (Hback r o' Ho') as (o & Ho & HR).
    destruct (started_or_same_facts _ _ HR) as (Hid & Hlv & _).
    rewrite Hid. apply Hlive; [done|]. by apply Hlv.
  - intros u r Hu. destruct (Hjobs u r Hu) as (o & Ho & Hid & Hl).
    destruct (Hrel r o Ho) as (o' & Ho' & HR).
    destruct (started_or_same_facts _ _ HR) as (Hid' & Hlv & _).
    exists o'. split; [done|]. split; [congruence|]. by apply Hlv.
  - intros r o' c Ho' Hc. destruct (Hback r o' Ho') as (o & Ho & [Hcb _]).
    eapply Hbound; [done|]. congruence.
  - intros r1 r2 o1' o2' c1 c2 H1 H2 Hc1 Hc2 Heq.
    destruct (Hback r1 o1' H1) as (o1 & Ho1 & [Hcb1 _]).
    destruct (Hback r2 o2' H2) as (o2 & Ho2 & [Hcb2 _]).
    eapply (Hinj r1 r2 o1 o2 c1 c2); congruence.
  - intros r o' c Ho' Hc Hl. destruct (Hback r o' Ho') as (o & Ho & HR).
    destruct (started_or_same_facts _ _ HR) as (_ & Hlv & _).
    destruct HR as [Hcb _].
    eapply Huns; [done|congruence|by apply Hlv].
Qed.

Lemma waitForJob_tracking s r l o :
  Tracking s → heap s !! r = Some o →
  Tracking (waitForJob s r l).1 ∧
  heap (waitForJob s r l).1 !! r
  = Some (mkJobObject (the_job o)
            (Some (mkCallbacks (waitForJob s r l).2 l))) ∧
  promises (waitForJob s r l).1 !! (waitForJob s r l).2 = Some Unsettled.
Proof.
  intros [Hlive Hjobs Hbound Hinj Huns] Ho. unfold waitForJob. rewrite Ho.
  simpl.
  assert (Hr : (r < length (heap s))%nat) by (by eapply lookup_lt_Some).
  assert (Hget : ∀ r' o', <[r := mkJobObject (the_job o)
                                    (Some (mkCallbacks (length (promises s)) l))]>
                            (heap s) !! r' = Some o' →
    (r' = r ∧ o' = mkJobObject (the_job o)
                     (Some (mkCallbacks (length (promises s)) l))) ∨
    (r' ≠ r ∧ heap s !! r' = Some o')).
  { intros r' o' H. destruct (decide (r' = r)) as [->|Hne].
    - rewrite list_lookup_insert_eq in H by done. left. by simplify_eq.
    - rewrite list_lookup_insert_ne in H by done. by right. }
  split_and!.
  - split; simpl.
    + intros r' o' H Hl. destruct (Hget r' o' H) as [[-> ->]|[Hne H']].
      * simpl. by apply Hlive.
      * by apply Hlive.
    + intros u r' Hu. destruct (Hjobs u r' Hu) as (o' & Ho' & Hid & Hl).
      destruct (decide (r' = r)) as [->|Hne].
      * eexists. split; [by apply list_lookup_insert_eq|].
        simplify_eq. done.
      * exists o'. by rewrite list_lookup_insert_ne.
    + intros r' o' c H Hc. rewrite length_app. simpl.
      destruct (Hget r' o' H) as [[-> ->]|[Hne H']].
      * simpl in Hc. simplify_eq. simpl. lia.
      * specialize (Hbound r' o' c H' Hc). lia.
    + intros r1 r2 o1 o2 c1 c2 H1 H2 Hc1 Hc2 Heq.
      destruct (Hget r1 o1 H1) as [[-> ->]|[Hne1 H1']];
        destruct (Hget r2 o2 H2) as [[-> ->]|[Hne2 H2']]; try done.
      * simpl in Hc1. simplify_eq. simpl in Heq.
        specialize (Hbound r2 o2 c2 H2' Hc2). lia.
      * simpl in Hc2. simplify_eq. simpl in Heq.
        specialize (Hbound r1 o1 c1 H1' Hc1). lia.
      * by eapply (Hinj r1 r2 o1 o2 c1 c2).
    + intros r' o' c H Hc Hl.
      destruct (Hget r' o' H) as [[-> ->]|[Hne H']].
      * simpl in Hc. simplify_eq. simpl.
        by rewrite lookup_app_r, Nat.sub_diag.
      * rewrite lookup_app_l by (by eapply Hbound). by eapply Huns.
  - by apply list_lookup_insert_eq.
  - by rewrite lookup_app_r, Nat.sub_diag.
Qed.

(** The state of [download] for an untracked URL, before [processQueue]. *)
Lemma enqueue_tracking s u j :
  Tracking s → jobs s !! u = None → id j = u → status j = pending →
  Tracking (mkScheduler (heap s ++ [mkJobObject j None])
              (<[u := length (heap s)]> (jobs s)) (queue s ++ [length (heap s)])
              (activeCount s) (quotaHandler s) (promises s)).
Proof.
  intros [Hlive Hjobs Hbound Hinj Huns] Hnone Hid Hpend.
  assert (Hget : ∀ r o, (heap s ++ [mkJobObject j None]) !! r = Some o →
    heap s !! r = Some o ∨ (r = length (heap s) ∧ o = mkJobObject j None)).
  { intros r o H. apply lookup_app_Some in H as [H|[Hge H]]; [by left|].
    right. destruct (r - length (heap s))%nat eqn:E; simpl in H;
      [|by rewrite lookup_nil in H].
    split; [lia|]. by simplify_eq. }
  split; simpl.
  - intros r o H Hl. destruct (Hget r o H) as [H'|[-> ->]].
    + pose proof (Hlive r o H' Hl) as Hj.
      rewrite lookup_insert_ne; [done|]. intros Heq. congruence.
    + simpl. rewrite Hid. by rewrite lookup_insert_eq.
  - intros u' r Hu. destruct (decide (u' = u)) as [->|Hne].
    + rewrite lookup_insert_eq in Hu. simplify_eq.
      exists (mkJobObject j None). split; [by apply list_lookup_middle|].
      split; [done|]. left. done.
    + rewrite lookup_insert_ne in Hu by done.
      destruct (Hjobs u' r Hu) as (o & Ho & Hido & Hl).
      exists o. split; [by apply lookup_app_l_Some|done].
  - intros r o c H Hc. destruct (Hget r o H) as [H'|[-> ->]]; [eauto|done].
  - intros r1 r2 o1 o2 c1 c2 H1 H2 Hc1 Hc2 Heq.
    destruct (Hget r1 o1 H1) as [H1'|[-> ->]]; [|done].
    destruct (Hget r2 o2 H2) as [H2'|[-> ->]]; [|done].
    by eapply (Hinj r1 r2 o1 o2 c1 c2).
  - intros r o c H Hc Hl.
    destruct (Hget r o H) as [H'|[-> ->]]; [eauto|done].
Qed.

Lemma enqueue_queue s j :
  SchedInv s → status j = pending →
  queued_pending (queue s ++ [length (heap s)]) (heap s ++ [mkJobObject j None]) ∧
  NoDup (queue s ++ [length (heap s)]).
Proof.
  intros [Hq Hnd _ _ _] Hpend. split.
  - intros r Hr. apply elem_of_app in Hr as [Hr|Hr].
    + destruct (Hq r Hr) as (o & Ho & Hp). exists o.
      split; [|done]. by apply lookup_app_l_Some.
    + apply list_elem_of_singleton in Hr as ->.
      eexists. split; [by apply list_lookup_middle|]. done.
  - apply NoDup_app. split; [done|]. split.
    + intros r Hr Hr'. apply list_elem_of_singleton in Hr' as ->.
      destruct (Hq _ Hr) as (o & Ho & _). apply lookup_lt_Some in Ho. lia.
    + apply NoDup_singleton.
Qed.

(** The job [download] creates. *)
Lemma scheduler_job s u :
  let j := match quotaHandler s with
           | Some h => DownloadJob.setQuotaHandler (DownloadJob.new u) h
           | None => DownloadJob.new u
           end in
  id j = u ∧ status j = pending.
Proof. destruct (quotaHandler s); done. Qed.

Lemma download_tracking s u l :
  SchedInv s → Tracking s → Tracking (download s u l).1.
Proof.
  intros Hinv Htrk. unfold download.
  destruct (jobs s !! u) as [r|] eqn:Hj.
  - destruct (trk_jobs _ Htrk u r Hj) as (o & Ho & _).
    by destruct (waitForJob_tracking s r l o Htrk Ho).
  - destruct (scheduler_job s u) as [Hid Hpend].
    set (j := match quotaHandler s with Some h => _ | None => _ end) in *.
    clearbody j.
    pose proof (enqueue_tracking s u j Htrk Hj Hid Hpend) as Htrk1.
    destruct (enqueue_queue s j Hinv Hpend) as [Hq1 Hnd1].
    set (s1 := mkScheduler _ _ _ _ _ _) in *.
    destruct (processQueue_started s1 Hq1 Hnd1) as (Hjobs & Hprom & Hlen & _ & Hrel).
    pose proof (tracking_started s1 (processQueue s1) Htrk1 Hjobs Hprom Hlen Hrel)
      as Htrk2.
    destruct (Hrel (length (heap s)) (mkJobObject j None)) as (o' & Ho' & _).
    { unfold s1. simpl. by apply list_lookup_middle. }
    by destruct (waitForJob_tracking _ _ l o' Htrk2 Ho').
Qed.

(** A running job ends: its object is updated, and - when it completed or
    failed - its URL is forgotten. *)
Lemma finish_tracking s r obj st e :
  Tracking s → heap s !! r = Some obj → status (the_job obj) = running →
  st = completed ∨ st = error →
  Tracking (mkScheduler
              (<[r := mkJobObject (set_status (the_job obj) st e) (callbacks obj)]>
                 (heap s))
              (delete (id (the_job obj)) (jobs s)) (queue s) (activeCount s - 1)
              (quotaHandler s) (promises s)).
Proof.
  intros [Hlive Hjobs Hbound Hinj Huns] Hobj Hrun Hst.
  assert (Hr : (r < length (heap s))%nat) by (by eapply lookup_lt_Some).
  assert (Hlobj : live obj) by (right; left; done).
  set (obj' := mkJobObject (set_status (the_job obj) st e) (callbacks obj)).
  assert (Hdead : ¬ live obj').
  { unfold live, obj'. simpl.
    destruct Hst as [-> | ->]; intros [H|[H|H]]; discriminate. }
  assert (Hget : ∀ r' o', <[r := obj']> (heap s) !! r' = Some o' →
    (r' = r ∧ o' = obj') ∨ (r' ≠ r ∧ heap s !! r' = Some o')).
  { intros r' o' H. destruct (decide (r' = r)) as [->|Hne].
    - rewrite list_lookup_insert_eq in H by done. left. by simplify_eq.
    - rewrite list_lookup_insert_ne in H by done. by right. }
  split; simpl.
  - intros r' o' H Hl. destruct (Hget r' o' H) as [[-> ->]|[Hne H']]; [done|].
    pose proof (Hlive r' o' H' Hl) as Hj.
    rewrite lookup_delete_ne; [done|]. intros Heq.
    pose proof (Hlive r obj Hobj Hlobj) as Hj'. rewrite Heq in Hj'. congruence.
  - intros u r' Hu. apply lookup_delete_Some in Hu as [Hne Hu].
    destruct (Hjobs u r' Hu) as (o & Ho & Hid & Hl).
    exists o. split; [|done]. rewrite list_lookup_insert_ne; [done|].
    intros ->. by simplify_eq.
  - intros r' o' c H Hc. destruct (Hget r' o' H) as [[-> ->]|[Hne H']]; eauto.
  - intros r1 r2 o1 o2 c1 c2 H1 H2 Hc1 Hc2 Heq.
    destruct (Hget r1 o1 H1) as [[-> ->]|[Hne1 H1']];
      destruct (Hget r2 o2 H2) as [[-> ->]|[Hne2 H2']]; try done.
    + by eapply (Hinj r r2 obj o2 c1 c2).
    + by eapply (Hinj r1 r o1 obj c1 c2).
    + by eapply (Hinj r1 r2 o1 o2 c1 c2).
  - intros r' o' c H Hc Hl.
    destruct (Hget r' o' H) as [[-> ->]|[Hne H']]; [done|eauto].
Qed.

Lemma settle_promise_other ps p v q :
  q ≠ p → settle_promise ps p v !! q = ps !! q.
Proof.
  intros Hne. unfold settle_promise.
  destruct (ps !! p) as [[| |]|]; try done. by rewrite list_lookup_insert_ne.
Qed.

Lemma settle_promise_length ps p v :
  length (settle_promise ps p v) = length ps.
Proof.
  unfold settle_promise.
  destruct (ps !! p) as [[| |]|]; try done. by rewrite length_insert.
Qed.

Lemma settle_promise_unsettled ps p v :
  ps !! p = Some Unsettled → settle_promise ps p v !! p = Some v.
Proof.
  intros Hp. unfold settle_promise. rewrite Hp.
  apply list_lookup_insert_eq. by eapply lookup_lt_Some.
Qed.

(** The closure a finished job invokes: facts about the state it leaves. *)
Lemma closure_tracking s r obj st e v c :
  SchedInv s → Tracking s → heap s !! r = Some obj →
  status (the_job obj) = running → callbacks obj = Some c →
  st = completed ∨ st = error →
  let s1 := set_job s r (mkJobObject (set_status (the_job obj) st e)
                                     (callbacks obj)) in
  let s' := closure s1 (id (the_job obj)) c v in
  Tracking s' ∧
  promises s' = settle_promise (promises s) (promise c) v ∧
  promises s !! promise c = Some Unsettled ∧
  jobs s' = delete (id (the_job obj)) (jobs s) ∧
  length (heap s') = length (heap s) ∧
  (queue s' = [] ∨ MAX_CONCURRENT ≤ activeCount s') ∧
  (∀ r' o, r' ≠ r → heap s !! r' = Some o →
     ∃ o', heap s' !! r' = Some o' ∧ started_or_same o o') ∧
  ∃ o', heap s' !! r = Some o' ∧ status (the_job o') = st ∧
        callbacks o' = callbacks obj.
Proof.
  intros Hinv Htrk Hobj Hrun Hc Hst. simpl. unfold closure, set_job. simpl.
  pose proof (finish_tracking s r obj st e Htrk Hobj Hrun Hst) as Htrk0.
  set (obj' := mkJobObject (set_status (the_job obj) st e) (callbacks obj)) in *.
  set (s0 := mkScheduler (<[r := obj']> (heap s)) _ _ _ _ _) in *.
  assert (Hr : (r < length (heap s))%nat) by (by eapply lookup_lt_Some).
  destruct Hinv as [Hq Hnd _ _ _].
  assert (Hq0 : queued_pending (queue s0) (heap s0)).
  { unfold s0. simpl. by eapply queued_pending_set_running. }
  destruct (processQueue_started s0 Hq0 Hnd) as (Hjobs & Hprom & Hlen & Hdrain & Hrel).
  pose proof (tracking_started s0 (processQueue s0) Htrk0 Hjobs Hprom Hlen Hrel)
    as Htrk1.
  assert (Huns : promises s !! promise c = Some Unsettled).
  { eapply (trk_unsettled _ Htrk r obj c); [done|done|]. right. by left. }
  destruct (Hrel r obj') as (o1 & Ho1 & Hcb1 & Hjob1).
  { unfold s0. simpl. by apply list_lookup_insert_eq. }
  assert (Hjob1' : the_job o1 = the_job obj').
  { destruct Hjob1 as [?|[Hbad _]]; [done|].
    unfold obj' in Hbad. simpl in Hbad. destruct Hst; congruence. }
  split_and!.
  - destruct Htrk1 as [Hlive Hjobs' Hbound Hinj Huns'].
    split; simpl; try done.
    + intros r' o' c' H Hc'. rewrite settle_promise_length. eauto.
    + intros r' o' c' H Hc' Hl. rewrite settle_promise_other; [eauto|].
      intros Heq. assert (r' = r) as ->.
      { eapply (Hinj r' r o' o1 c' c); try done. by rewrite Hcb1. }
      simplify_eq. unfold live in Hl. rewrite Hjob1' in Hl.
      unfold obj' in Hl. simpl in Hl.
      destruct Hst as [-> | ->]; destruct Hl as [H'|[H'|H']]; discriminate.
  - simpl. by rewrite Hprom.
  - done.
  - simpl. by rewrite Hjobs.
  - simpl. rewrite Hlen. unfold s0. simpl. by rewrite length_insert.
  - done.
  - intros r' o Hne Ho. apply Hrel. unfold s0. simpl.
    by rewrite list_lookup_insert_ne.
  - exists o1. split; [done|]. rewrite Hjob1'. done.
Qed.

Lemma settle_tracking s r o s' :
  SchedInv s → Tracking s → settle s r o = Some s' → Tracking s'.
Proof.
  intros Hinv Htrk Hs. unfold settle in Hs.
  destruct (heap s !! r) as [obj|] eqn:Hobj; [|done].
  case_bool_decide as Hrun; [|done].
  destruct (inv_callbacks _ Hinv _ _ Hobj) as [c Hc].
  destruct o as [result|e| | |]; simplify_eq.
  - rewrite Hc.
    pose proof (closure_tracking s r obj completed None (Fulfilled result) c
                  Hinv Htrk Hobj Hrun Hc (or_introl eq_refl)) as Hcl.
    cbv zeta in Hcl. rewrite Hc in Hcl. apply Hcl.
  - rewrite Hc.
    pose proof (closure_tracking s r obj error (Some e) (RejectedWith e) c
                  Hinv Htrk Hobj Hrun Hc (or_intror eq_refl)) as Hcl.
    cbv zeta in Hcl. rewrite Hc in Hcl. apply Hcl.
  - (* paused: the job stays tracked *)
    destruct Htrk as [Hlive Hjobs Hbound Hinj Huns].
    assert (Hr : (r < length (heap s))%nat) by (by eapply lookup_lt_Some).
    set (obj' := mkJobObject (set_status (the_job obj) paused None) (callbacks obj)).
    assert (Hlobj : live obj) by (right; left; done).
    assert (Hget : ∀ r' o', <[r := obj']> (heap s) !! r' = Some o' →
      (r' = r ∧ o' = obj') ∨ (r' ≠ r ∧ heap s !! r' = Some o')).
    { intros r' o' H. destruct (decide (r' = r)) as [->|Hne].
      - rewrite list_lookup_insert_eq in H by done. left. by simplify_eq.
      - rewrite list_lookup_insert_ne in H by done. by right. }
    split; simpl.
    + intros r' o' H Hl. destruct (Hget r' o' H) as [[-> ->]|[Hne H']].
      * simpl. by apply Hlive.
      * by apply Hlive.
    + intros u r' Hu. destruct (Hjobs u r' Hu) as (o' & Ho' & Hid & Hl).
      destruct (decide (r' = r)) as [->|Hne].
      * exists obj'. split; [by apply list_lookup_insert_eq|].
        simplify_eq. split; [done|]. right. by right.
      * exists o'. by rewrite list_lookup_insert_ne.
    + intros r' o' c' H Hc'.
      destruct (Hget r' o' H) as [[-> ->]|[Hne H']]; eauto.
    + intros r1 r2 o1 o2 c1 c2 H1 H2 Hc1 Hc2 Heq.
      destruct (Hget r1 o1 H1) as [[-> ->]|[Hne1 H1']];
        destruct (Hget r2 o2 H2) as [[-> ->]|[Hne2 H2']]; try done.
      * by eapply (Hinj r r2 obj o2 c1 c2).
      * by eapply (Hinj r1 r o1 obj c1 c2).
      * by eapply (Hinj r1 r2 o1 o2 c1 c2).
    + intros r' o' c' H Hc' Hl.
      destruct (Hget r' o' H) as [[-> ->]|[Hne H']]; eauto.
Qed.

Lemma reachable_tracking s : reachable s → Tracking s.
Proof.
  induction 1 as [|s h _ IH|s u l Hs IH|s r o s' Hs IH Hset].
  - apply init_tracking.
  - destruct IH. split; done.
  - apply download_tracking; [by apply reachable_inv|done].
  - eapply settle_tracking; [by apply reachable_inv|done|done].
Qed.



(** The states the scheduler can move to from [s]. *)
Inductive evolves (s : Scheduler) : Scheduler → Prop :=
| evolves_refl : evolves s s
| evolves_handler s' h : evolves s s' → evolves s (setQuotaHandler s' h)
| evolves_download s' u l : evolves s s' → evolves s (download s' u l).1
| evolves_settle s' r o s'' :
    evolves s s' → settle s' r o = Some s'' → evolves s s''.

Lemma evolves_reachable s s' : reachable s → evolves s s' → reachable s'.
Proof.
  intros Hs. induction 1 as [|s' h _ IH|s' u l _ IH|s' r o s'' _ IH Hset].
  - done.
  - by constructor.
  - by constructor.
  - by econstructor.
Qed.

(** *** No idle slot while a job waits *)

Lemma waitForJob_queue s r l :
  queue (waitForJob s r l).1 = queue s ∧
  activeCount (waitForJob s r l).1 = activeCount s ∧
  jobs (waitForJob s r l).1 = jobs s ∧
  length (heap (waitForJob s r l).1) = length (heap s).
Proof.
  unfold waitForJob. simpl. split_and!; try done.
  destruct (heap s !! r); [by rewrite length_insert|done].
Qed.

Lemma reachable_drained s :
  reachable s → queue s = [] ∨ MAX_CONCURRENT ≤ activeCount s.
Proof.
  induction 1 as [|s h _ IH|s u l Hs IH|s r o s' Hs IH Hset].
  - by left.
  - done.
  - unfold download. destruct (jobs s !! u) as [r|].
    + by destruct (waitForJob_queue s r l) as (-> & -> & _).
    + destruct (scheduler_job s u) as [Hid Hpend].
      set (j := match quotaHandler s with Some h => _ | None => _ end) in *.
      clearbody j.
      destruct (enqueue_queue s j (reachable_inv s Hs) Hpend) as [Hq1 Hnd1].
      set (s1 := mkScheduler _ _ _ _ _ _) in *.
      destruct (processQueue_started s1 Hq1 Hnd1) as (_ & _ & _ & Hdrain & _).
      by destruct (waitForJob_queue (processQueue s1) (length (heap s)) l)
        as (-> & -> & _).
  - pose proof (reachable_inv s Hs) as Hinv.
    pose proof (reachable_tracking s Hs) as Htrk.
    unfold settle in Hset.
    destruct (heap s !! r) as [obj|] eqn:Hobj; [|done].
    case_bool_decide as Hrun; [|done].
    destruct (inv_callbacks _ Hinv _ _ Hobj) as [c Hc].
    destruct o as [result|e| | |]; simplify_eq.
    + pose proof (closure_tracking s r obj completed None (Fulfilled result) c
                    Hinv Htrk Hobj Hrun Hc (or_introl eq_refl)) as Hcl.
      cbv zeta in Hcl. rewrite Hc in *. apply Hcl.
    + pose proof (closure_tracking s r obj error (Some e) (RejectedWith e) c
                    Hinv Htrk Hobj Hrun Hc (or_intror eq_refl)) as Hcl.
      cbv zeta in Hcl. rewrite Hc in *. apply Hcl.
    + done.
Qed.

(** X17: no slot is idle while a job waits.  In every state the scheduler can
    reach, a non-empty queue means that all [MAX_CONCURRENT] slots are
    taken - by running jobs and by jobs that were aborted. *)
Theorem no_idle_slot_while_jobs_wait s :
  reachable s → queue s ≠ [] →
  activeCount s = MAX_CONCURRENT ∧
  running_count s + paused_count s = MAX_CONCURRENT.
Proof.
  intros Hs Hq. destruct (reachable_drained s Hs) as [Hnil|Hfull]; [done|].
  destruct (reachable_inv s Hs) as [_ _ _ Hact Hb]. lia.
Qed.

(** *** One job per URL *)

(** X18: at most one job per URL is alive.  In every reachable state the map
    [jobs] points at the one job object for a URL that has not completed or
    failed, and [download] for such a URL creates no job: it subscribes the
    caller to the job there is. *)
Theorem one_live_job_per_url s r o l :
  reachable s → heap s !! r = Some o → live o →
  jobs s !! id (the_job o) = Some r ∧
  (∀ r' o', heap s !! r' = Some o' → live o' →
     id (the_job o') = id (the_job o) → r' = r) ∧
  length (heap (download s (id (the_job o)) l).1) = length (heap s).
Proof.
  intros Hs Ho Hl. pose proof (reachable_tracking s Hs) as Htrk.
  pose proof (trk_live _ Htrk r o Ho Hl) as Hj. split_and!.
  - done.
  - intros r' o' Ho' Hl' Hid.
    pose proof (trk_live _ Htrk r' o' Ho' Hl') as Hj'. congruence.
  - unfold download. rewrite Hj. apply waitForJob_queue.
Qed.

(** *** Whose promise a job settles *)

(** X19: [download] subscribes its caller.  The promise it returns is new and
    unsettled, and it is the promise that the callbacks of the job tracked
    for the URL will settle. *)
Theorem download_subscribes_caller s u l :
  reachable s →
  let s' := (download s u l).1 in
  let p := (download s u l).2 in
  p = length (promises s) ∧ promises s' !! p = Some Unsettled ∧
  ∃ r o, jobs s' !! u = Some r ∧ heap s' !! r = Some o ∧
         id (the_job o) = u ∧ live o ∧
         callbacks o = Some (mkCallbacks p l).
Proof.
  intros Hs. simpl.
  pose proof (reachable_tracking s Hs) as Htrk.
  pose proof (reachable_tracking _ (reach_download s u l Hs)) as Htrk'.
  unfold download in *. destruct (jobs s !! u) as [r|] eqn:Hj.
  - destruct (trk_jobs _ Htrk u r Hj) as (o & Ho & Hid & Hl).
    destruct (waitForJob_tracking s r l o Htrk Ho) as (_ & Hheap & Hp).
    destruct (waitForJob_queue s r l) as (_ & _ & Hjobs & _).
    split; [done|]. split; [done|].
    eexists r, _. rewrite Hjobs. split; [done|]. split; [exact Hheap|]. done.
  - destruct (scheduler_job s u) as [Hid Hpend].
    set (j := match quotaHandler s with Some h => _ | None => _ end) in *.
    clearbody j.
    pose proof (enqueue_tracking s u j Htrk Hj Hid Hpend) as Htrk1.
    destruct (enqueue_queue s j (reachable_inv s Hs) Hpend) as [Hq1 Hnd1].
    set (s1 := mkScheduler _ _ _ _ _ _) in *.
    destruct (processQueue_started s1 Hq1 Hnd1)
      as (Hjobs & Hprom & Hlen & _ & Hrel).
    pose proof (tracking_started s1 (processQueue s1) Htrk1 Hjobs Hprom Hlen Hrel)
      as Htrk2.
    destruct (Hrel (length (heap s)) (mkJobObject j None)) as (o' & Ho' & HR).
    { unfold s1. simpl. by apply list_lookup_middle. }
    destruct (started_or_same_facts _ _ HR) as (Hid' & Hlv & _).
    destruct (waitForJob_tracking _ _ l o' Htrk2 Ho') as (_ & Hheap & Hp).
    destruct (waitForJob_queue (processQueue s1) (length (heap s)) l)
      as (_ & _ & Hjobs' & _).
    split; [unfold waitForJob; simpl; by rewrite Hprom|].
    split; [done|].
    eexists (length (heap s)), _. rewrite Hjobs', Hjobs.
    split; [unfold s1; simpl; by rewrite lookup_insert_eq|].
    split; [exact Hheap|]. simpl in Hid'. simpl. split; [congruence|].
    split; [|done]. apply Hlv. by left.
Qed.

(** X20: a job settles the promise of its latest subscriber.  When a running
    job completes or fails, the promise named by the callbacks it holds -
    unsettled until then - is fulfilled with the job's result or rejected
    with its error, and the URL is no longer tracked; when the job is
    aborted, the promise stays unsettled and the job stays tracked. *)
Theorem job_settles_its_subscriber s r o c :
  reachable s → heap s !! r = Some o → status (the_job o) = running →
  callbacks o = Some c →
  promises s !! promise c = Some Unsettled ∧
  (∀ result, ∃ s',
     settle s r (Complete result) = Some s' ∧
     promises s' !! promise c = Some (Fulfilled result) ∧
     jobs s' !! id (the_job o) = None) ∧
  (∀ e, ∃ s',
     settle s r (Failed e) = Some s' ∧
     promises s' !! promise c = Some (RejectedWith e) ∧
     jobs s' !! id (the_job o) = None) ∧
  ∃ s',
    settle s r Paused = Some s' ∧
    promises s' !! promise c = Some Unsettled ∧
    jobs s' !! id (the_job o) = Some r.
Proof.
  intros Hs Ho Hrun Hc.
  pose proof (reachable_inv s Hs) as Hinv.
  pose proof (reachable_tracking s Hs) as Htrk.
  assert (Hl : live o) by (right; by left).
  pose proof (trk_unsettled _ Htrk r o c Ho Hc Hl) as Huns.
  split; [done|]. unfold settle. rewrite Ho, Hc.
  rewrite bool_decide_eq_true_2 by done. split_and!.
  - intros result. eexists. split; [done|].
    pose proof (closure_tracking s r o completed None (Fulfilled result) c
                  Hinv Htrk Ho Hrun Hc (or_introl eq_refl)) as Hcl.
    cbv zeta in Hcl. rewrite Hc in Hcl.
    destruct Hcl as (_ & -> & _ & -> & _).
    split; [by apply settle_promise_unsettled|apply lookup_delete_eq].
  - intros e. eexists. split; [done|].
    pose proof (closure_tracking s r o error (Some e) (RejectedWith e) c
                  Hinv Htrk Ho Hrun Hc (or_intror eq_refl)) as Hcl.
    cbv zeta in Hcl. rewrite Hc in Hcl.
    destruct Hcl as (_ & -> & _ & -> & _).
    split; [by apply settle_promise_unsettled|apply lookup_delete_eq].
  - eexists. split; [done|]. simpl. split; [done|].
    by apply (trk_live _ Htrk).
Qed.

(** *** Promises nobody will settle *)

(** No job holds the promise [p]. *)
Definition orphaned (p : nat) (s : Scheduler) : Prop :=
  (p < length (promises s))%nat ∧
  ∀ r o c, heap s !! r = Some o → callbacks o = Some c → promise c ≠ p.

Lemma waitForJob_orphaned s r l p :
  orphaned p s →
  orphaned p (waitForJob s r l).1 ∧
  promises (waitForJob s r l).1 !! p = promises s !! p.
Proof.
  intros [Hp Hnone]. unfold waitForJob. simpl. split.
  - split; simpl.
    + rewrite length_app. simpl. lia.
    + intros r' o' c H Hc. destruct (heap s !! r) as [o|] eqn:Ho; [|eauto].
      destruct (decide (r' = r)) as [->|Hne].
      * rewrite list_lookup_insert_eq in H by (by eapply lookup_lt_Some).
        simplify_eq/=. lia.
      * rewrite list_lookup_insert_ne in H by done. eauto.
  - by rewrite lookup_app_l.
Qed.

Lemma started_orphaned s s' p :
  orphaned p s → promises s' = promises s →
  length (heap s') = length (heap s) →
  (∀ r o, heap s !! r = Some o →
     ∃ o', heap s' !! r = Some o' ∧ started_or_same o o') →
  orphaned p s'.
Proof.
  intros [Hp Hnone] Hprom Hlen Hrel. split; [by rewrite Hprom|].
  intros r o' c Ho' Hc.
  destruct (heap_back _ _ _ Hlen Hrel r o' Ho') as (o & Ho & [Hcb _]).
  eapply Hnone; [done|]. congruence.
Qed.

Lemma step_orphaned p s :
  reachable s → orphaned p s →
  (∀ h, orphaned p (setQuotaHandler s h)) ∧
  (∀ u l, orphaned p (download s u l).1 ∧
          promises (download s u l).1 !! p = promises s !! p) ∧
  (∀ r o s', settle s r o = Some s' →
     orphaned p s' ∧ promises s' !! p = promises s !! p).
Proof.
  intros Hs Horph.
  pose proof (reachable_inv s Hs) as Hinv.
  pose proof (reachable_tracking s Hs) as Htrk.
  split_and!.
  - intros h. done.
  - intros u l. unfold download. destruct (jobs s !! u) as [r|] eqn:Hj.
    { by apply waitForJob_orphaned. }
    destruct (scheduler_job s u) as [Hid Hpend].
    set (j := match quotaHandler s with Some h => _ | None => _ end) in *.
    clearbody j.
    destruct (enqueue_queue s j Hinv Hpend) as [Hq1 Hnd1].
    set (s1 := mkScheduler _ _ _ _ _ _) in *.
    assert (Horph1 : orphaned p s1).
    { destruct Horph as [Hp Hnone]. split; [done|]. unfold s1. simpl.
      intros r o c H Hc. apply lookup_app_Some in H as [H|[Hge H]]; [eauto|].
      destruct (r - length (heap s))%nat; simpl in H;
        [by simplify_eq|by rewrite lookup_nil in H]. }
    destruct (processQueue_started s1 Hq1 Hnd1)
      as (Hjobs & Hprom & Hlen & _ & Hrel).
    pose proof (started_orphaned s1 (processQueue s1) p Horph1 Hprom Hlen Hrel)
      as Horph2.
    destruct (waitForJob_orphaned (processQueue s1) (length (heap s)) l p Horph2)
      as [Horph3 Hsame].
    split; [done|]. by rewrite Hsame, Hprom.
  - intros r o s' Hset. unfold settle in Hset.
    destruct (heap s !! r) as [obj|] eqn:Hobj; [|done].
    case_bool_decide as Hrun; [|done].
    destruct (inv_callbacks _ Hinv _ _ Hobj) as [c Hc].
    assert (Hne : promise c ≠ p) by (by eapply (proj2 Horph)).
    assert (Hfin : ∀ st e v, st = completed ∨ st = error →
      let s' := closure (set_job s r (mkJobObject (set_status (the_job obj) st e)
                                        (Some c)))
                        (id (the_job obj)) c v in
      orphaned p s' ∧ promises s' !! p = promises s !! p).
    { intros st e v Hst. cbv zeta.
      pose proof (closure_tracking s r obj st e v c
                    Hinv Htrk Hobj Hrun Hc Hst) as Hcl.
      cbv zeta in Hcl. rewrite Hc in Hcl.
      destruct Hcl as (_ & Hprom & _ & _ & Hlen & _ & Hrel & o1 & Ho1 & _ & Hcb1).
      destruct Horph as [Hp Hnone]. split.
      - split; [by rewrite Hprom, settle_promise_length|].
        intros r' o' c' Ho' Hc'.
        destruct (decide (r' = r)) as [->|Hner].
        + assert (c' = c) as -> by congruence. done.
        + assert (Hlt : (r' < length (heap s))%nat).
          { rewrite <- Hlen. by eapply lookup_lt_Some. }
          apply lookup_lt_is_Some_2 in Hlt as [o0 Ho0].
          destruct (Hrel r' o0 Hner Ho0) as (o2 & Ho2 & Hcb2 & _).
          eapply (Hnone r' o0 c'); [done|]. congruence.
      - rewrite Hprom. by apply settle_promise_other. }
    destruct o as [result|e| | |]; simplify_eq.
    + rewrite Hc. by apply Hfin; left.
    + rewrite Hc. by apply Hfin; right.
    + simpl. split; [|done]. destruct Horph as [Hp Hnone]. split; [done|].
      simpl. intros r' o' c' Ho' Hc'.
      destruct (decide (r' = r)) as [->|Hner].
      * rewrite list_lookup_insert_eq in Ho' by (by eapply lookup_lt_Some).
        simplify_eq. simpl in Hc'. assert (c' = c) as -> by congruence. done.
      * rewrite list_lookup_insert_ne in Ho' by done. eauto.
Qed.

Lemma evolves_orphaned p s s' :
  reachable s → orphaned p s → evolves s s' →
  orphaned p s' ∧ promises s' !! p = promises s !! p.
Proof.
  intros Hs Horph Hev.
  induction Hev as [|s' h Hev IH|s' u l Hev IH|s' r o s'' Hev IH Hset].
  - done.
  - destruct IH as [IH1 IH2]. split; [|done].
    by apply (step_orphaned p s' (evolves_reachable _ _ Hs Hev) IH1).
  - destruct IH as [IH1 IH2].
    destruct (step_orphaned p s' (evolves_reachable _ _ Hs Hev) IH1)
      as (_ & Hd & _).
    destruct (Hd u l) as [H1 H2]. split; [done|congruence].
  - destruct IH as [IH1 IH2].
    destruct (step_orphaned p s' (evolves_reachable _ _ Hs Hev) IH1)
      as (_ & _ & Hst).
    destruct (Hst r o s'' Hset) as [H1 H2]. split; [done|congruence].
Qed.

(** X21: a replaced subscriber is never settled.  When [download] is called
    for a URL that has a job, the promise handed to the job's previous
    subscriber is dropped by [setCallbacks]: whatever happens afterwards -
    further downloads, jobs completing, failing or being aborted - that
    promise stays unsettled. *)
Theorem replaced_subscriber_is_never_settled s u r o c l s' :
  reachable s → jobs s !! u = Some r → heap s !! r = Some o →
  callbacks o = Some c →
  evolves (download s u l).1 s' →
  promises s' !! promise c = Some Unsettled.
Proof.
  intros Hs Hj Ho Hc Hev.
  pose proof (reachable_tracking s Hs) as Htrk.
  destruct (trk_jobs _ Htrk u r Hj) as (o0 & Ho0 & _ & Hl).
  assert (o0 = o) as -> by congruence.
  pose proof (trk_unsettled _ Htrk r o c Ho Hc Hl) as Huns.
  pose proof (trk_bound _ Htrk r o c Ho Hc) as Hb.
  assert (Horph : orphaned (promise c) (download s u l).1 ∧
                  promises (download s u l).1 !! promise c = Some Unsettled).
  { unfold download. rewrite Hj. unfold waitForJob. rewrite Ho. simpl. split.
    - split; simpl.
      + rewrite length_app. simpl. lia.
      + intros r' o' c' Ho' Hc'. destruct (decide (r' = r)) as [->|Hne].
        * rewrite list_lookup_insert_eq in Ho' by (by eapply lookup_lt_Some).
          simplify_eq/=. lia.
        * rewrite list_lookup_insert_ne in Ho' by done.
          intros Heq. apply Hne.
          by eapply (trk_inj _ Htrk r' r o' o c' c).
    - by rewrite lookup_app_l. }
  destruct Horph as [Horph Huns'].
  destruct (evolves_orphaned (promise c) _ s' (reach_download s u l Hs) Horph Hev)
    as [_ Hsame].
  congruence.
Qed.

(** *** Aborted jobs *)

Lemma filter_length_mono {A} (P : A → Prop) `{!∀ x, Decision (P x)}
    (h : list A) : ∀ h',
  (∀ r o, h !! r = Some o → P o → ∃ o', h' !! r = Some o' ∧ P o') →
  (length (filter P h) ≤ length (filter P h'))%nat.
Proof.
  induction h as [|a h IH]; intros h' Hrel; [simpl; lia|].
  rewrite filter_cons. destruct h' as [|a' h'].
  - destruct (decide (P a)) as [Ha|Hna].
    + destruct (Hrel 0%nat a eq_refl Ha) as (o' & Ho' & _). done.
    + apply IH. intros r o Ho Hp.
      destruct (Hrel (S r) o Ho Hp) as (o' & Ho' & _). done.
  - rewrite filter_cons.
    assert (Htail : (length (filter P h) ≤ length (filter P h'))%nat).
    { apply IH. intros r o Ho Hp. apply (Hrel (S r) o Ho Hp). }
    destruct (decide (P a)) as [Ha|Hna].
    + destruct (Hrel 0%nat a eq_refl Ha) as (o' & Ho' & Hp').
      simpl in Ho'. simplify_eq. rewrite decide_True by done. simpl. lia.
    + destruct (decide (P a')); simpl; lia.
Qed.

(** Job objects that are paused in [h] are paused in [h']. *)
Definition keeps_paused (h h' : list JobObject) : Prop :=
  ∀ r o, h !! r = Some o → status (the_job o) = paused →
    ∃ o', h' !! r = Some o' ∧ status (the_job o') = paused.

Lemma keeps_paused_trans h1 h2 h3 :
  keeps_paused h1 h2 → keeps_paused h2 h3 → keeps_paused h1 h3.
Proof.
  intros H12 H23 r o Ho Hp. destruct (H12 r o Ho Hp) as (o2 & Ho2 & Hp2).
  by apply (H23 r o2).
Qed.

Lemma started_keeps_paused h h' :
  (∀ r o, h !! r = Some o → ∃ o', h' !! r = Some o' ∧ started_or_same o o') →
  keeps_paused h h'.
Proof.
  intros Hrel r o Ho Hp. destruct (Hrel r o Ho) as (o' & Ho' & HR).
  exists o'. split; [done|].
  by apply (started_or_same_facts _ _ HR).
Qed.

Lemma waitForJob_keeps_paused s r l :
  keeps_paused (heap s) (heap (waitForJob s r l).1).
Proof.
  unfold waitForJob. simpl. intros r' o' Ho' Hp.
  destruct (heap s !! r) as [o|] eqn:Ho; [|eauto].
  destruct (decide (r' = r)) as [->|Hne].
  - eexists. split; [apply list_lookup_insert_eq; by eapply lookup_lt_Some|].
    simpl. congruence.
  - exists o'. by rewrite list_lookup_insert_ne.
Qed.

Lemma step_keeps_paused s :
  reachable s →
  (∀ u l, keeps_paused (heap s) (heap (download s u l).1)) ∧
  (∀ r o s', settle s r o = Some s' → keeps_paused (heap s) (heap s')).
Proof.
  intros Hs.
  pose proof (reachable_inv s Hs) as Hinv.
  pose proof (reachable_tracking s Hs) as Htrk.
  split.
  - intros u l. unfold download. destruct (jobs s !! u) as [r|].
    { apply waitForJob_keeps_paused. }
    destruct (scheduler_job s u) as [Hid Hpend].
    set (j := match quotaHandler s with Some h => _ | None => _ end) in *.
    clearbody j.
    destruct (enqueue_queue s j Hinv Hpend) as [Hq1 Hnd1].
    set (s1 := mkScheduler _ _ _ _ _ _) in *.
    destruct (processQueue_started s1 Hq1 Hnd1) as (_ & _ & _ & _ & Hrel).
    eapply keeps_paused_trans; [|apply waitForJob_keeps_paused].
    eapply keeps_paused_trans; [|by apply started_keeps_paused].
    intros r o Ho Hp. exists o. split; [|done]. unfold s1. simpl.
    by apply lookup_app_l_Some.
  - intros r o s' Hset. unfold settle in Hset.
    destruct (heap s !! r) as [obj|] eqn:Hobj; [|done].
    case_bool_decide as Hrun; [|done].
    destruct (inv_callbacks _ Hinv _ _ Hobj) as [c Hc].
    assert (Hfin : ∀ st e v, st = completed ∨ st = error →
      keeps_paused (heap s)
        (heap (closure (set_job s r (mkJobObject (set_status (the_job obj) st e)
                                       (Some c)))
                       (id (the_job obj)) c v))).
    { intros st e v Hst.
      pose proof (closure_tracking s r obj st e v c
                    Hinv Htrk Hobj Hrun Hc Hst) as Hcl.
      cbv zeta in Hcl. rewrite Hc in Hcl.
      destruct Hcl as (_ & _ & _ & _ & _ & _ & Hrel & _).
      intros r' o' Ho' Hp. destruct (decide (r' = r)) as [->|Hne].
      - simplify_eq. congruence.
      - destruct (Hrel r' o' Hne Ho') as (o2 & Ho2 & HR).
        exists o2. split; [done|]. by apply (started_or_same_facts _ _ HR). }
    destruct o as [result|e| | |]; simplify_eq.
    + rewrite Hc. by apply Hfin; left.
    + rewrite Hc. by apply Hfin; right.
    + simpl. intros r' o' Ho' Hp. destruct (decide (r' = r)) as [->|Hne].
      * simplify_eq. congruence.
      * exists o'. by rewrite list_lookup_insert_ne.
Qed.

(** X22: an aborted job keeps its slot for good.  Nothing the scheduler does
    restarts or forgets a paused job: it stays paused in every later state,
    so the number of paused jobs never falls, and the number of jobs that
    can run at once is [MAX_CONCURRENT] less the jobs aborted so far. *)
Theorem aborted_jobs_keep_their_slots s s' :
  reachable s → evolves s s' →
  keeps_paused (heap s) (heap s') ∧
  paused_count s ≤ paused_count s' ∧
  running_count s' ≤ MAX_CONCURRENT - paused_count s.
Proof.
  intros Hs Hev.
  assert (Hkeep : keeps_paused (heap s) (heap s')).
  { induction Hev as [|s' h Hev IH|s' u l Hev IH|s' r o s'' Hev IH Hset].
    - intros r o Ho Hp. eauto.
    - done.
    - eapply keeps_paused_trans; [exact IH|].
      by apply (step_keeps_paused s' (evolves_reachable _ _ Hs Hev)).
    - eapply keeps_paused_trans; [exact IH|].
      by eapply (step_keeps_paused s' (evolves_reachable _ _ Hs Hev)). }
  split; [done|].
  assert (Hmono : paused_count s ≤ paused_count s').
  { unfold paused_count, count_status.
    apply inj_le. apply filter_length_mono. exact Hkeep. }
  split; [done|].
  destruct (reachable_inv s' (evolves_reachable _ _ Hs Hev)) as [_ _ _ Hact Hb].
  lia.
Qed.

End Tracking.

(* ===================================================================== *)
(** * The earlier downloader *)
(* ===================================================================== *)

(** ** db.ts *)
Module PartialDownloads.

(** A record of the [partial_downloads] object store ([lastUpdated] is a
    reading of the wall clock that nothing consults).  An [etag] that is
    [undefined] is [None]. *)
Record PartialDownload : Type := mkPartial {
  url : string;
  contentLength : num;
  chunks : list Bytes;
  downloadedBytes : Z;
  etag : option string
}.

#[global] Instance PartialDownload_eq_dec : EqDecision PartialDownload.
Proof. solve_decision. Defined.

(** The database [texpen-downloads]: the object store, keyed by the [url] of
    the record, and the origin's quota in bytes ([None]: unlimited). *)
Record DB : Type := mkDB {
  records : gmap string PartialDownload;
  quota : option Z
}.

Definition empty : DB := mkDB ∅ None.

(** Bytes held by the store. *)
Definition usage (rs : gmap string PartialDownload) : Z :=
  map_fold (fun _ r acc => acc + size (concat (chunks r))) 0 rs.

Definition within_quota (q : option Z) (rs : gmap string PartialDownload)
    : bool :=
  match q with
  | None => true
  | Some limit => usage rs <=? limit
  end.

(** [saveChunk(url, chunk, totalSize, etag)] (lines 30-56): one read-write
    transaction; it aborts with [QuotaExceededError], changing nothing, when
    the record would outgrow the quota. *)
Definition saveChunk (db : DB) (u : string) (chunk : Bytes) (totalSize : num)
    (tag : option string) : Error + DB :=
  let fresh := mkPartial u totalSize [chunk] (size chunk) tag in
  let record :=
    match records db !! u with
    | Some record =>
        if bool_decide (etag record ≠ tag) then fresh
        else mkPartial (url record) (contentLength record)
                       (chunks record ++ [chunk])
                       (downloadedBytes record + size chunk) (etag record)
    | None => fresh
    end in
  (* [store.put(record)]: the key is the record's [url] *)
  let records' := <[url record := record]> (records db) in
  if within_quota (quota db) records' then inr (mkDB records' (quota db))
  else inl QuotaExceededError.

(** [getPartialDownload(url)] (lines 58-61) *)
Definition getPartialDownload (db : DB) (u : string) : option PartialDownload :=
  records db !! u.

(** [clearPartialDownload(url)] (lines 63-66) *)
Definition clearPartialDownload (db : DB) (u : string) : DB :=
  mkDB (delete u (records db)) (quota db).

End PartialDownloads.

(** ** DownloadManager.ts, the manager that fetches by itself *)
Module LegacyManager.
Import Http CacheStorage PartialDownloads.

(** What [fetch] answers: the response, and its [Content-Type], which this
    manager copies to the cached response. *)
Record Answer : Type := mkAnswer {
  response : Response;
  content_type_header : option string
}.

Definition Fetch : Type := Request -> Error + Answer.

(** What [downloadFile] can throw. *)
Inductive Failure : Type :=
| FailedToFetch (url : string) (status : Z)  (* "Failed to fetch <url>: ..." *)
| BodyIsNull                                 (* "Response body is null" *)
| Thrown (e : Error).                        (* what fetch, read() or put rejected with *)

#[global] Instance Failure_eq_dec : EqDecision Failure.
Proof. solve_decision. Defined.

Inductive Settled : Type :=
| Resolved
| Rejected (f : Failure)
| NeverSettles.

#[global] Instance Settled_eq_dec : EqDecision Settled.
Proof. solve_decision. Defined.

(** The cache and the store of partial downloads.  (The map of
    [AbortController]s is read by [cancelDownload] only, whose effect on a
    download in flight is the [AbortError] that [fetch] or [read()] rejects
    with; it is left out, and so are the progress callbacks.) *)
Record World : Type := mkWorld {
  cache : gmap string CachedResponse;
  partial_downloads : DB
}.

(** [isCached(url)] (lines 21-30) *)
Definition isCached (w : World) (u : string) : bool :=
  bool_decide (is_Some (cache w !! u)).

(** The [catch] block (lines 147-154): an [AbortError] is logged and
    swallowed, anything else is rethrown. *)
Definition caught (w : World) (f : Failure) (reqs : list Request)
    : World * Settled * list Request :=
  match f with
  | Thrown e =>
      if bool_decide (name e = "AbortError") then (w, Resolved, reqs)
      else (w, Rejected f, reqs)
  | _ => (w, Rejected f, reqs)
  end.

(** The read loop (lines 110-125): every value read is saved as a chunk of
    its own. *)
Fixpoint read_loop (db : DB) (u : string) (reads : list Bytes)
    (totalSize : num) (tag : option string) : DB * option Error :=
  match reads with
  | [] => (db, None)
  | value :: reads' =>
      match saveChunk db u (Blob [value]) totalSize tag with
      | inl e => (db, Some e)
      | inr db' => read_loop db' u reads' totalSize tag
      end
  end.

(** [downloadFile(url, onProgress)] (lines 40-155).  [fuel] bounds the
    depth of the recursion after a 416 answer. *)
Fixpoint downloadFile (fuel : nat) (fetch : Fetch) (w : World) (u : string)
    : World * Settled * list Request :=
  match fuel with
  | O => (w, NeverSettles, [])
  | S fuel' =>
      (* 1. Check existing cache *)
      if isCached w u then (w, Resolved, [])
      else
        (* 2. Check for partial *)
        let partial := getPartialDownload (partial_downloads w) u in
        let startByte :=
          match partial with
          | Some p => downloadedBytes p
          | None => 0
          end in
        let existingChunks :=
          match partial with
          | Some p => chunks p
          | None => []
          end in
        (* 3. Fetch *)
        let req :=
          mkRequest u (if 0 <? startByte
                       then Some (DownloadJob.range_header startByte)
                       else None) in
        match fetch req with
        | inl e => caught w (Thrown e) [req]
        | inr answer =>
            let r := response answer in
            if negb (ok r) then
              if Http.status r =? 416 then
                let w1 :=
                  mkWorld (cache w)
                          (clearPartialDownload (partial_downloads w) u) in
                let '(w', settled, reqs) := downloadFile fuel' fetch w1 u in
                (w', settled, req :: reqs)
              else caught w (FailedToFetch u (Http.status r)) [req]
            else
              let totalSize :=
                add (Num startByte)
                    (match present (Http.content_length (headers r)) with
                     | Some contentLength => parseInt contentLength
                     | None => Num 0
                     end) in
              let tag := present (etag_header (headers r)) in
              (* 200 although a range was asked for *)
              let ignored := (0 <? startByte) && (Http.status r =? 200) in
              let existingChunks' := if ignored then [] else existingChunks in
              let db1 :=
                if ignored then clearPartialDownload (partial_downloads w) u
                else partial_downloads w in
              match Http.body r with
              | None => caught (mkWorld (cache w) db1) BodyIsNull [req]
              | Some (reads, fin) =>
                  match read_loop db1 u reads totalSize tag with
                  | (db2, Some e) =>
                      caught (mkWorld (cache w) db2) (Thrown e) [req]
                  | (db2, None) =>
                      match fin with
                      | Some e =>
                          caught (mkWorld (cache w) db2) (Thrown e) [req]
                      | None =>
                          (* 4. Assemble and cache *)
                          let fullBlob :=
                            Blob (existingChunks'
                                  ++ map (fun v => Blob [v]) reads) in
                          let contentType :=
                            match present (content_type_header answer) with
                            | Some t => t
                            | None => "application/octet-stream"
                            end in
                          match put (cache w) u (FromBlob fullBlob)
                                    (Some (toString (Num (size fullBlob))))
                                    (Some contentType) with
                          | inl e =>
                              caught (mkWorld (cache w) db2) (Thrown e) [req]
                          | inr cache' =>
                              (mkWorld cache' (clearPartialDownload db2 u),
                               Resolved, [req])
                          end
                      end
                  end
              end
        end
  end.

End LegacyManager.

(** ** Properties of the earlier downloader *)
Section Legacy.
Import Http CacheStorage PartialDownloads LegacyManager.

Lemma Blob_singleton (v : Bytes) : Blob [v] = v.
Proof. unfold Blob. simpl. apply app_nil_r. Qed.

Lemma concat_map_Blob (reads : list Bytes) :
  concat (map (fun v => Blob [v]) reads) = concat reads.
Proof.
  f_equal. induction reads as [|v reads IH]; [done|].
  cbn [map]. by rewrite Blob_singleton, IH.
Qed.

(** A record that is filed under its URL, carries the validator [tag] and
    counts the bytes of its chunks. *)
Definition accounted (u : string) (tag : option string) (p : PartialDownload)
    : Prop :=
  url p = u ∧ etag p = tag ∧ downloadedBytes p = size (concat (chunks p)).

(** The chunks stored for [u]. *)
Definition stored (db : DB) (u : string) : list Bytes :=
  match getPartialDownload db u with
  | Some p => chunks p
  | None => []
  end.

Lemma saveChunk_accounted db u chunk total tag db' :
  (∀ p, getPartialDownload db u = Some p → accounted u tag p) →
  saveChunk db u chunk total tag = inr db' →
  quota db' = quota db ∧
  ∃ p', getPartialDownload db' u = Some p' ∧ accounted u tag p' ∧
        chunks p' = stored db u ++ [chunk].
Proof.
  intros Hacc Hs. unfold saveChunk, stored, getPartialDownload in *.
  destruct (within_quota _ _); [|done]. injection Hs as <-. simpl.
  split; [done|].
  destruct (records db !! u) as [p|] eqn:Hp.
  - destruct (Hacc p eq_refl) as (Hu & Htag & Hd).
    rewrite bool_decide_eq_false_2 by (intros Hne; by apply Hne).
    simpl. rewrite Hu, lookup_insert_eq. eexists. split; [done|].
    split; [|done]. unfold accounted. simpl.
    rewrite concat_snoc, size_app, Hd. done.
  - simpl. rewrite lookup_insert_eq. eexists. split; [done|].
    split; [|done]. unfold accounted. simpl. by rewrite app_nil_r.
Qed.

Lemma saveChunk_unlimited db u chunk total tag :
  quota db = None → ∃ db', saveChunk db u chunk total tag = inr db'.
Proof. intros Hq. unfold saveChunk. rewrite Hq. simpl. eauto. Qed.

(** The read loop appends the values it saved, in order. *)
Lemma read_loop_spec u total tag reads : ∀ db db' thrown,
  (∀ p, getPartialDownload db u = Some p → accounted u tag p) →
  read_loop db u reads total tag = (db', thrown) →
  quota db' = quota db ∧
  (∀ p, getPartialDownload db' u = Some p → accounted u tag p) ∧
  (quota db = None → thrown = None) ∧
  (∀ e, thrown = Some e → e = QuotaExceededError) ∧
  ∃ k, (k ≤ length reads)%nat ∧ stored db' u = stored db u ++ take k reads ∧
       (thrown = None → k = length reads).
Proof.
  induction reads as [|v reads IH]; intros db db' thrown Hacc Hl;
    cbn [read_loop] in Hl.
  { injection Hl as <- <-. split_and!; try done.
    exists 0%nat. by rewrite app_nil_r. }
  rewrite Blob_singleton in Hl.
  destruct (saveChunk db u v total tag) as [e|db1] eqn:Hs.
  { injection Hl as <- <-. split_and!; try done.
    - intros Hq. destruct (saveChunk_unlimited db u v total tag Hq). congruence.
    - intros e' [= <-]. unfold saveChunk in Hs.
      destruct (within_quota _ _); congruence.
    - exists 0%nat. split; [lia|]. by rewrite app_nil_r. }
  destruct (saveChunk_accounted _ _ _ _ _ _ Hacc Hs) as (Hq1 & p1 & Hp1 & Hacc1 & Hch1).
  apply IH in Hl as (Hq & Hacc' & Hlim & Herr & k & Hk & Hst & Hall).
  2:{ intros p Hp. congruence. }
  split; [congruence|]. split; [done|].
  split; [intros Hn; apply Hlim; congruence|]. split; [done|].
  exists (S k). split; [simpl; lia|]. split.
  - rewrite Hst. unfold stored at 1. rewrite Hp1, Hch1.
    by rewrite <- app_assoc.
  - intros Ht. by rewrite (Hall Ht).
Qed.

(** The server's answers, as the v2 job sees them. *)
Definition plain_fetch (fetch : LegacyManager.Fetch) : Http.Fetch :=
  fun req =>
    match fetch req with
    | inl e => inl e
    | inr answer => inr (response answer)
    end.

(** Every ok answer carries the validator [tag]. *)
Definition stable_validator (tag : option string) (fetch : LegacyManager.Fetch)
    : Prop :=
  ∀ req answer, fetch req = inr answer → ok (response answer) = true →
    present (etag_header (headers (response answer))) = tag.

(** No request is aborted. *)
Definition never_aborted (fetch : LegacyManager.Fetch) : Prop :=
  ∀ req,
    match fetch req with
    | inl e => name e ≠ "AbortError"
    | inr answer =>
        match Http.body (response answer) with
        | Some (_, Some e) => name e ≠ "AbortError"
        | _ => True
        end
    end.

(** The store holds a prefix of [B] for [u], under the validator [tag], and
    a cached response for [u], if there is one, is [B]. *)
Definition LegacyInv (B : Bytes) (tag : option string) (u : string)
    (w : LegacyManager.World) : Prop :=
  (∀ p, getPartialDownload (partial_downloads w) u = Some p →
     accounted u tag p) ∧
  (∃ rest, B = concat (stored (partial_downloads w) u) ++ rest) ∧
  ∀ c, LegacyManager.cache w !! u = Some c → CacheStorage.body c = B.

Lemma clearPartialDownload_stored db u :
  getPartialDownload (clearPartialDownload db u) u = None ∧
  stored (clearPartialDownload db u) u = [].
Proof.
  unfold stored, getPartialDownload, clearPartialDownload. simpl.
  by rewrite lookup_delete_eq.
Qed.

Lemma caught_spec w f reqs w' settled reqs' :
  caught w f reqs = (w', settled, reqs') →
  w' = w ∧ reqs' = reqs ∧
  (settled = LegacyManager.Resolved →
   ∃ e, f = Thrown e ∧ name e = "AbortError").
Proof.
  unfold caught. destruct f as [u s| |e].
  - intros [= <- <- <-]. done.
  - intros [= <- <- <-]. done.
  - case_bool_decide; intros [= <- <- <-]; [eauto|done].
Qed.

Lemma legacy_downloadFile_spec B tag u fetch :
  honors B u (plain_fetch fetch) → stable_validator tag fetch →
  ∀ fuel w w' settled reqs,
    LegacyInv B tag u w →
    LegacyManager.downloadFile fuel fetch w u = (w', settled, reqs) →
    LegacyInv B tag u w' ∧
    (settled = LegacyManager.Resolved → never_aborted fetch →
     CacheStorage.body <$> LegacyManager.cache w' !! u = Some B).
Proof.
  intros Hh Htag. induction fuel as [|fuel IH];
    intros w w' settled reqs Hinv Hd; cbn [LegacyManager.downloadFile] in Hd.
  { injection Hd as <- <- <-. done. }
  destruct Hinv as (Hacc & [rest HB] & Hcache).
  unfold isCached in Hd. case_bool_decide as Hc.
  { injection Hd as <- <- <-. split; [by split_and!; eauto|].
    intros _ _. destruct Hc as [c Hc]. rewrite Hc. simpl. f_equal.
    by apply Hcache. }
  assert (Hnocache : ∀ d,
    LegacyInv B tag u (LegacyManager.mkWorld (LegacyManager.cache w) d)
    ↔ (∀ p, getPartialDownload d u = Some p → accounted u tag p) ∧
      ∃ rest, B = concat (stored d u) ++ rest).
  { intros d. unfold LegacyInv. simpl. split; [by intros (? & ? & _)|].
    intros [? ?]. split_and!; try done. }
  set (s := match getPartialDownload (partial_downloads w) u with
            | Some p => downloadedBytes p | None => 0 end) in *.
  set (existing := match getPartialDownload (partial_downloads w) u with
                   | Some p => chunks p | None => [] end) in *.
  assert (Hexist : existing = stored (partial_downloads w) u) by done.
  assert (Hs : s = size (concat existing)).
  { unfold s, existing.
    destruct (getPartialDownload (partial_downloads w) u) as [p|] eqn:Hp; [|done].
    by destruct (Hacc p eq_refl) as (_ & _ & ?). }
  rewrite <- Hexist in HB.
  set (req := mkRequest u _) in *.
  assert (Hw : LegacyInv B tag u w).
  { split_and!; try done. exists rest. by rewrite <- Hexist. }
  destruct (fetch req) as [e|answer] eqn:Hf.
  { apply caught_spec in Hd as (-> & -> & Hres). split; [done|].
    intros Hr Hna. destruct (Hres Hr) as (e' & [= <-] & Hname).
    specialize (Hna req). rewrite Hf in Hna. done. }
  assert (Hpf : plain_fetch fetch req = inr (response answer)).
  { unfold plain_fetch. by rewrite Hf. }
  pose proof (Hh req (response answer) eq_refl Hpf) as Hsrv.
  destruct (ok (response answer)) eqn:Hok; cbn [negb] in Hd.
  2:{ destruct (Http.status (response answer) =? 416).
      - destruct (LegacyManager.downloadFile fuel fetch _ u)
          as [[w2 s2] reqs2] eqn:Hrec.
        injection Hd as <- <- <-.
        apply IH in Hrec; [done|].
        apply Hnocache.
        destruct (clearPartialDownload_stored (partial_downloads w) u) as [Hg Hst].
        rewrite Hg, Hst. split; [done|]. by exists B.
      - apply caught_spec in Hd as (-> & -> & Hres). split; [done|].
        intros Hr _. by destruct (Hres Hr) as (e' & ? & _). }
  pose proof (Htag req answer Hf Hok) as Htag'. rewrite Htag' in Hd.
  set (ignored := (0 <? s) && (Http.status (response answer) =? 200)) in *.
  set (db1 := if ignored then clearPartialDownload (partial_downloads w) u
              else partial_downloads w) in *.
  set (existing' := if ignored then [] else existing) in *.
  (* what the response is to deliver *)
  assert (Htarget : ∃ target, B = concat existing' ++ target ∧
                              good_body target (response answer)).
  { unfold existing', ignored.
    destruct (Z.ltb_spec 0 s) as [Hpos|Hzero];
      unfold req in Hsrv; cbn [range andb] in Hsrv; cbn [andb].
    - destruct (Hsrv s Hpos eq_refl) as [_ Hgood]. specialize (Hgood eq_refl).
      destruct (Http.status (response answer) =? 200).
      + by exists B.
      + exists rest. split; [done|].
        rewrite HB, Hs, drop_size_app in Hgood. done.
    - destruct Hsrv as [_ Hgood]. specialize (Hgood eq_refl).
      assert (Hnil : concat existing = []).
      { apply size_zero_nil. pose proof (size_nonneg (concat existing)). lia. }
      exists B. by rewrite Hnil. }
  destruct Htarget as (target & HB' & Hgood).
  assert (Hacc1 : ∀ p, getPartialDownload db1 u = Some p → accounted u tag p).
  { unfold db1. destruct ignored; [|done].
    intros p. by rewrite (proj1 (clearPartialDownload_stored _ u)). }
  assert (Hst1 : stored db1 u = existing').
  { unfold db1, existing'. destruct ignored; [|done].
    apply clearPartialDownload_stored. }
  unfold good_body in Hgood.
  destruct (Http.body (response answer)) as [[reads fin]|] eqn:Hbody.
  2:{ apply caught_spec in Hd as (-> & -> & Hres). split.
      - apply Hnocache. split; [done|]. rewrite Hst1. by exists target.
      - intros Hr _. by destruct (Hres Hr) as (e' & ? & _). }
  destruct Hgood as (rest' & Ht & Hfin).
  destruct (read_loop db1 u reads _ tag) as [db2 thrown] eqn:Hloop.
  apply read_loop_spec in Hloop as (Hq2 & Hacc2 & _ & Herr & k & Hk & Hst2 & Hall);
    [|done].
  rewrite Hst1 in Hst2.
  assert (Hpre2 : ∃ rest2, B = concat (stored db2 u) ++ rest2).
  { exists (concat (drop k reads) ++ rest').
    rewrite Hst2, HB', Ht, concat_app, <- !app_assoc. f_equal.
    rewrite app_assoc, <- concat_app, take_drop. done. }
  assert (Hinv2 : LegacyInv B tag u (LegacyManager.mkWorld (LegacyManager.cache w) db2)).
  { by apply Hnocache. }
  destruct thrown as [e|].
  { apply caught_spec in Hd as (-> & -> & Hres). split; [done|].
    intros Hr _. destruct (Hres Hr) as (e' & [= <-] & Hname).
    by rewrite (Herr e eq_refl) in Hname. }
  destruct fin as [e|].
  { apply caught_spec in Hd as (-> & -> & Hres). split; [done|].
    intros Hr Hna. destruct (Hres Hr) as (e' & [= <-] & Hname).
    specialize (Hna req). rewrite Hf, Hbody in Hna. done. }
  unfold put in Hd. cbv beta iota in Hd.
  pose proof (f_equal (fun x => x.1.1) Hd) as Hw'.
  pose proof (f_equal (fun x => x.1.2) Hd) as Hs'.
  cbn [fst snd] in Hw', Hs'. subst w' settled. clear Hd.
  rewrite (Hfin eq_refl), app_nil_r in Ht.
  assert (Hfull : Blob (existing' ++ map (fun v => Blob [v]) reads) = B).
  { unfold Blob at 1. rewrite concat_app, concat_map_Blob. by rewrite HB', Ht. }
  rewrite Hfull. split.
  - split_and!; simpl.
    + intros p. by rewrite (proj1 (clearPartialDownload_stored _ u)).
    + rewrite (proj2 (clearPartialDownload_stored _ u)). by exists B.
    + intros c. rewrite lookup_insert_eq. by intros [= <-].
  - intros _ _. simpl. by rewrite lookup_insert_eq.
Qed.

(** X23: the earlier manager's round trip.  Let the server serve [B] at [u],
    honour [Range] and send one validator throughout, and let no request
    be aborted.  If the store holds a prefix of [B] under that validator,
    it still does after [downloadFile], however the call ends; and when the
    call resolves, the cache holds exactly [B]. *)
Theorem legacy_download_round_trip B tag u fetch fuel w :
  honors B u (plain_fetch fetch) → stable_validator tag fetch →
  never_aborted fetch → LegacyInv B tag u w →
  LegacyInv B tag u (LegacyManager.downloadFile fuel fetch w u).1.1 ∧
  ((LegacyManager.downloadFile fuel fetch w u).1.2 = LegacyManager.Resolved →
   CacheStorage.body
     <$> LegacyManager.cache (LegacyManager.downloadFile fuel fetch w u).1.1 !! u
   = Some B).
Proof.
  intros Hh Htag Hna Hinv.
  destruct (LegacyManager.downloadFile fuel fetch w u) as [[w' settled] reqs] eqn:Hd.
  destruct (legacy_downloadFile_spec B tag u fetch Hh Htag fuel w w' settled reqs
              Hinv Hd) as [Hinv' Hres].
  split; [done|]. intros Hr. by apply Hres.
Qed.

Lemma read_loop_error u total tag reads : ∀ db db' e,
  read_loop db u reads total tag = (db', Some e) → e = QuotaExceededError.
Proof.
  induction reads as [|v reads IH]; intros db db' e Hl; cbn [read_loop] in Hl.
  { done. }
  destruct (saveChunk db u (Blob [v]) total tag) as [e'|db1] eqn:Hs.
  - injection Hl as _ <-. unfold saveChunk in Hs.
    destruct (within_quota _ _); congruence.
  - by eapply IH.
Qed.

Lemma saveChunk_quota db u chunk total tag db' :
  saveChunk db u chunk total tag = inr db' → quota db' = quota db.
Proof.
  unfold saveChunk. destruct (within_quota _ _); [|done]. by intros [= <-].
Qed.

Lemma read_loop_unlimited u total tag reads : ∀ db,
  quota db = None → ∃ db', read_loop db u reads total tag = (db', None).
Proof.
  induction reads as [|v reads IH]; intros db Hq; cbn [read_loop]; [eauto|].
  destruct (saveChunk_unlimited db u (Blob [v]) total tag Hq) as [db1 Hs].
  rewrite Hs. apply IH. by rewrite (saveChunk_quota _ _ _ _ _ _ Hs).
Qed.

(** The request the earlier manager sends for [u]. *)
Definition legacy_request (w : LegacyManager.World) (u : string) : Request :=
  let startByte :=
    match getPartialDownload (partial_downloads w) u with
    | Some p => downloadedBytes p
    | None => 0
    end in
  mkRequest u (if 0 <? startByte
               then Some (DownloadJob.range_header startByte) else None).

(** X24: the earlier manager resolves when it is aborted.  [downloadFile]
    swallows an [AbortError]: when the request is aborted the promise
    resolves although nothing was cached, so a caller that reads the cache
    next finds nothing.  Aborts apart, a resolved call has always left a
    response for the URL in the cache. *)
Theorem legacy_abort_resolves_uncached :
  (∀ fuel fetch w u e,
     isCached w u = false → name e = "AbortError" →
     fetch (legacy_request w u) = inl e →
     LegacyManager.downloadFile (S fuel) fetch w u
     = (w, LegacyManager.Resolved, [legacy_request w u]) ∧
     LegacyManager.cache w !! u = None) ∧
  (∀ fuel fetch w u w' reqs,
     never_aborted fetch →
     LegacyManager.downloadFile fuel fetch w u
     = (w', LegacyManager.Resolved, reqs) →
     is_Some (LegacyManager.cache w' !! u)).
Proof.
  split.
  - intros fuel fetch w u e Hc Hname Hf.
    cbn [LegacyManager.downloadFile]. rewrite Hc.
    unfold legacy_request in Hf. rewrite Hf. unfold caught.
    rewrite bool_decide_eq_true_2 by done. split; [done|].
    unfold isCached in Hc. apply bool_decide_eq_false in Hc.
    by apply eq_None_not_Some.
  - intros fuel fetch. induction fuel as [|fuel IH]; intros w u w' reqs Hna Hd;
      cbn [LegacyManager.downloadFile] in Hd; [done|].
    unfold isCached in Hd. case_bool_decide as Hc.
    { by injection Hd as <- _. }
    set (req := mkRequest u _) in *.
    pose proof (Hna req) as Hreq.
    destruct (fetch req) as [e|answer].
    { apply caught_spec in Hd as (_ & _ & Hres).
      destruct (Hres eq_refl) as (e' & [= <-] & Hname). done. }
    destruct (ok (response answer)); cbn [negb] in Hd.
    2:{ destruct (Http.status (response answer) =? 416).
        - destruct (LegacyManager.downloadFile fuel fetch _ u)
            as [[w2 s2] reqs2] eqn:Hrec.
          injection Hd as -> -> _. by eapply IH.
        - apply caught_spec in Hd as (_ & _ & Hres).
          by destruct (Hres eq_refl) as (e' & ? & _). }
    destruct (Http.body (response answer)) as [[reads fin]|].
    2:{ apply caught_spec in Hd as (_ & _ & Hres).
        by destruct (Hres eq_refl) as (e' & ? & _). }
    destruct (read_loop _ u reads _ _) as [db2 [e|]] eqn:Hloop.
    { apply caught_spec in Hd as (_ & _ & Hres).
      destruct (Hres eq_refl) as (e' & [= <-] & Hname).
      by rewrite (read_loop_error _ _ _ _ _ _ _ Hloop) in Hname. }
    destruct fin as [e|].
    { apply caught_spec in Hd as (_ & _ & Hres).
      destruct (Hres eq_refl) as (e' & [= <-] & Hname). done. }
    unfold put in Hd. cbv beta iota in Hd.
    pose proof (f_equal (fun x => x.1.1) Hd) as Hw'.
    cbn [fst snd] in Hw'. subst w'.
    cbn [LegacyManager.cache]. rewrite lookup_insert_eq. eauto.
Qed.

(** X25: the earlier manager does not validate what it resumes.  Whatever
    validator the stored record and the response carry, a partial response
    to the ranged request is appended to the stored chunks and the whole is
    cached: when the file changed on the server, the cached response mixes
    the old beginning with the new end. *)
Theorem legacy_resume_ignores_validators fuel fetch w u p answer reads :
  isCached w u = false →
  getPartialDownload (partial_downloads w) u = Some p →
  0 < downloadedBytes p → quota (partial_downloads w) = None →
  fetch (legacy_request w u) = inr answer →
  ok (response answer) = true → Http.status (response answer) ≠ 200 →
  Http.body (response answer) = Some (reads, None) →
  ∃ w' len type,
    LegacyManager.downloadFile (S fuel) fetch w u
    = (w', LegacyManager.Resolved, [legacy_request w u]) ∧
    LegacyManager.cache w' !! u
    = Some (mkCached (concat (chunks p) ++ concat reads) len type) ∧
    getPartialDownload (partial_downloads w') u = None.
Proof.
  intros Hc Hp Hpos Hq Hf Hok H200 Hbody.
  cbn [LegacyManager.downloadFile]. rewrite Hc.
  unfold legacy_request in *. rewrite Hp in *. rewrite Hf, Hok.
  cbn [negb]. rewrite Hbody.
  assert (Hign : (0 <? downloadedBytes p)
                 && (Http.status (response answer) =? 200) = false).
  { destruct (Z.eqb_spec (Http.status (response answer)) 200); [done|].
    by rewrite andb_false_r. }
  rewrite Hign.
  match goal with
  | |- context [read_loop ?d u reads ?t ?g] =>
      destruct (read_loop_unlimited u t g reads d Hq) as [db2 ->]
  end.
  unfold put. cbv beta iota.
  eexists _, _, _. split; [done|]. cbn [LegacyManager.cache partial_downloads].
  split.
  - rewrite lookup_insert_eq. do 2 f_equal.
    unfold Blob at 1. by rewrite concat_app, concat_map_Blob.
  - apply clearPartialDownload_stored.
Qed.

End Legacy.

(** ** Further scenarios *)

Module Origin.
Import Http.
(** Serves "startend!!": the whole to a plain request, the last five bytes,
    in two pieces, to a ranged one. *)
Definition server : Fetch := fun req =>
  match range req with
  | None =>
      inr (mkResponse 200 (Servers.plain "10")
             (Some ([Sample.bytes "startend!!"], None)))
  | Some _ =>
      inr (mkResponse 206 (Servers.plain "5")
             (Some ([Sample.bytes "en"; Sample.bytes "d!!"], None)))
  end.

(** Answers every request with 416 and no [Content-Range]. *)
Definition unsatisfiable : Fetch := fun _ =>
  inr (mkResponse 416 (mkHeaders None None None) None).

(** Answers with an empty file. *)
Definition hollow : Fetch := fun _ =>
  inr (mkResponse 200 (Servers.plain "0") (Some ([], None))).

(** The file changed: the answer to the ranged request carries a new
    validator. *)
Definition changed : Fetch := fun _ =>
  inr (mkResponse 206 (mkHeaders (Some "5") None (Some "v2"))
         (Some ([Sample.bytes "END!!"], None))).

(** "start" stored under the validator "v1". *)
Definition tagged : DB :=
  mkDB {[ Sample.model_url :=
            mkMetadata Sample.model_url (Num 10) 5 1 (Some "v1") ]}
       {[ (Sample.model_url, 0) := Sample.bytes "start" ]}
       None.

Definition other_url : string := "https://example.com/vocab.json".

(** Partial downloads of two URLs. *)
Definition two : DB :=
  mkDB {[ Sample.model_url := mkMetadata Sample.model_url (Num 10) 5 1 None;
          other_url := mkMetadata other_url (Num 4) 2 1 None ]}
       {[ (Sample.model_url, 0) := Sample.bytes "start";
          (other_url, 0) := Sample.bytes "{}" ]}
       None.
End Origin.

Lemma download_leaves_other_urls_alone_witness :
  let w := mkWorld ∅ Origin.two in
  let w' := (downloadFile 2 Origin.server None w Sample.model_url).1.1 in
  (CacheStorage.body <$> cache w' !! Sample.model_url
   = Some (Sample.bytes "startend!!")) ∧
  cache w' !! Origin.other_url = cache w !! Origin.other_url ∧
  getMetadata (store w') Origin.other_url
  = getMetadata (store w) Origin.other_url ∧
  ∀ n, getStream (store w') Origin.other_url n
       = getStream (store w) Origin.other_url n.
Proof.
  intros w w'. split; [vm_compute; reflexivity|].
  apply (download_leaves_other_urls_alone 2 Origin.server None w
           Sample.model_url Origin.other_url).
  discriminate.
Defined.

Module Finished.
(** A download whose only chunk is complete. *)
Definition world : World :=
  mkWorld ∅
    (mkDB {[ Sample.model_url := mkMetadata Sample.model_url (Num 5) 5 1 None ]}
          {[ (Sample.model_url, 0) := Sample.bytes "start" ]}
          None).
End Finished.

Lemma finalized_download_passes_integrity_check_witness :
  checkCacheIntegrity
    (cache (finalizeCache Finished.world Sample.model_url None).1)
    Sample.model_url
  = IntegrityOk.
Proof.
  apply (finalized_download_passes_integrity_check Finished.world
           Sample.model_url None).
  - intros _. exists [Sample.bytes "start"].
    apply (single_chunk_layout _ _ (Sample.bytes "start")).
  - vm_compute. reflexivity.
Defined.

Lemma downloaded_file_is_not_fetched_again_witness :
  let w := mkWorld ∅ Sample.partial in
  let w' := (downloadFile 2 Servers.resumes None w Sample.model_url).1.1 in
  ∃ c, cache w' !! Sample.model_url = Some c ∧
    checkCacheIntegrity (cache w') Sample.model_url = IntegrityOk ∧
    if bool_decide (CacheStorage.body c = []) then
      cache_hit w' Sample.model_url = false
    else ∀ fuel' fetch' handler',
           downloadFile fuel' fetch' handler' w' Sample.model_url
           = (w', Resolved, []).
Proof.
  intros w w'.
  apply (downloaded_file_is_not_fetched_again 2 Servers.resumes None w
           Sample.model_url [Sample.bytes "start"] w'
           [mkRequest Sample.model_url (Some "bytes=5-")]).
  - apply partial_layout.
  - reflexivity.
  - vm_compute. reflexivity.
Defined.

Lemma restart_happens_at_most_once_witness :
  let r := mkRun (DownloadJob.new Sample.model_url) (Shrunk.hundred 200) [] in
  let fetch := Shrunk.server (Some "bytes */150") in
  (_execute 2 fetch r).2 = Returned ∧
  (_execute 2 fetch r).2 ≠ OutOfFuel ∧
  (length (requests (_execute 2 fetch r).1) ≤ length (requests r) + 2)%nat ∧
  ∀ fuel, _execute (S (S fuel)) fetch r = _execute 2 fetch r.
Proof.
  intros r fetch. split; [vm_compute; reflexivity|].
  apply (restart_happens_at_most_once fetch r).
  intros answer Hf. vm_compute in Hf. injection Hf as <-. discriminate.
Defined.

Lemma persistent_416_never_settles_witness :
  let w := mkWorld ∅ Sample.partial in
  (downloadFile 7 Origin.unsatisfiable None w Sample.model_url).1.2
  = NeverSettles ∧
  length (downloadFile 7 Origin.unsatisfiable None w Sample.model_url).2
  = 7%nat.
Proof.
  intros w.
  apply (persistent_416_never_settles Origin.unsatisfiable None w
           Sample.model_url).
  - reflexivity.
  - intros req _. eexists. split; [reflexivity|]. split; reflexivity.
Defined.

Lemma empty_response_is_rejected_witness :
  downloadFile 1 Origin.hollow None (mkWorld ∅ ChunkStore.empty) Sample.model_url
  = (mkWorld ∅ ChunkStore.empty, Rejected (MetadataMissing Sample.model_url),
     [mkRequest Sample.model_url None]).
Proof.
  apply (empty_response_is_rejected 0 Origin.hollow None
           (mkWorld ∅ ChunkStore.empty) Sample.model_url
           (mkResponse 200 (Servers.plain "0") (Some ([], None))));
    reflexivity.
Defined.

Lemma appended_chunks_stream_back_witness :
  let parts := [Sample.bytes "ab"; Sample.bytes "cde"] in
  let d' :=
    match appendChunks (clear Sample.partial Sample.model_url)
            Sample.model_url parts 0 (Num 5) None with
    | inr d => d
    | inl _ => ChunkStore.empty
    end in
  getStream d' Sample.model_url 2 = (parts, Closed) ∧
  match getMetadata d' Sample.model_url with
  | Some m =>
      chunkCount m = 2 ∧ downloadedBytes m = size (concat parts) ∧
      totalBytes m = Num 5 ∧ parts ≠ []
  | None => parts = []
  end.
Proof.
  intros parts d'.
  apply (appended_chunks_stream_back Sample.partial Sample.model_url parts
           (Num 5) None d').
  vm_compute. reflexivity.
Defined.




Lemma changed_validator_discards_partial_download_witness :
  downloadFile 1 Origin.changed None (mkWorld ∅ Origin.tagged) Sample.model_url
  = (mkWorld ∅ (clear Origin.tagged Sample.model_url), Rejected ETagMismatch,
     [ranged Sample.model_url 5]) ∧
  first_request (clear Origin.tagged Sample.model_url) Sample.model_url
  = mkRequest Sample.model_url None.
Proof.
  apply (changed_validator_discards_partial_download 0 Origin.changed None
           (mkWorld ∅ Origin.tagged) Sample.model_url
           (mkMetadata Sample.model_url (Num 10) 5 1 (Some "v1"))
           (mkResponse 206 (mkHeaders (Some "5") None (Some "v2"))
              (Some ([Sample.bytes "END!!"], None))));
    reflexivity.
Defined.

Lemma memory_fallback_is_never_delivered_witness :
  let r :=
    mkRun (DownloadJob.setQuotaHandler (DownloadJob.new Sample.model_url) true)
          Sample.partial [] in
  ∃ result, (start 2 Servers.resumes r).2 = Complete result ∧ result = None.
Proof.
  intros r. exists None. split; [vm_compute; reflexivity|].
  apply (memory_fallback_is_never_delivered 2 Servers.resumes r
           [Sample.bytes "start"] None).
  - apply partial_layout.
  - reflexivity.
  - vm_compute. reflexivity.
Defined.

(** *** The scheduler at work *)
Module Busy.
Import DownloadScheduler.
(** Four downloads: three jobs run, the fourth waits. *)
Definition four : Scheduler :=
  (download (download (download (download init "a" None).1
                                "b" None).1 "c" None).1 "d" None).1.

(** The job the first caller of [Dedup] started. *)
Definition job : JobObject :=
  mkJobObject
    (mkJob Sample.model_url running (mkProgress 0 (Num 0)) None [] false None)
    (Some (mkCallbacks 0 (Some 1%nat))).

(** The same job once the second caller has subscribed. *)
Definition job' : JobObject :=
  mkJobObject (the_job job) (Some (mkCallbacks 1 (Some 2%nat))).

(** The job of [Dedup] has completed. *)
Definition finished : Scheduler :=
  default init (settle Dedup.second.1 0 (Complete None)).

(** The job of the first caller was aborted; then "b" is asked for. *)
Definition aborted : Scheduler :=
  default init (settle Dedup.first.1 0 Paused).
Definition later : Scheduler := (download aborted "b" None).1.
End Busy.

Lemma no_idle_slot_while_jobs_wait_witness :
  DownloadScheduler.queue Busy.four = [3%nat] ∧
  DownloadScheduler.activeCount Busy.four = DownloadScheduler.MAX_CONCURRENT ∧
  DownloadScheduler.running_count Busy.four
  + DownloadScheduler.paused_count Busy.four
  = DownloadScheduler.MAX_CONCURRENT.
Proof.
  split; [vm_compute; reflexivity|].
  apply (no_idle_slot_while_jobs_wait Busy.four).
  - repeat constructor.
  - vm_compute. discriminate.
Defined.

Lemma one_live_job_per_url_witness :
  let s := Dedup.first.1 in
  DownloadScheduler.jobs s !! Sample.model_url = Some 0%nat ∧
  (∀ r' o', DownloadScheduler.heap s !! r' = Some o' → live o' →
     id (DownloadScheduler.the_job o') = Sample.model_url → r' = 0%nat) ∧
  length (DownloadScheduler.heap
            (DownloadScheduler.download s Sample.model_url (Some 2%nat)).1)
  = length (DownloadScheduler.heap s).
Proof.
  intros s.
  apply (one_live_job_per_url s 0 Busy.job (Some 2%nat)).
  - repeat constructor.
  - vm_compute. reflexivity.
  - right. left. reflexivity.
Defined.

Lemma download_subscribes_caller_witness :
  let s := Dedup.first.1 in
  let s' := (DownloadScheduler.download s Sample.model_url (Some 2%nat)).1 in
  let p := (DownloadScheduler.download s Sample.model_url (Some 2%nat)).2 in
  p = length (DownloadScheduler.promises s) ∧
  DownloadScheduler.promises s' !! p = Some DownloadScheduler.Unsettled ∧
  ∃ r o, DownloadScheduler.jobs s' !! Sample.model_url = Some r ∧
         DownloadScheduler.heap s' !! r = Some o ∧
         id (DownloadScheduler.the_job o) = Sample.model_url ∧ live o ∧
         DownloadScheduler.callbacks o
         = Some (DownloadScheduler.mkCallbacks p (Some 2%nat)).
Proof.
  intros s.
  apply (download_subscribes_caller s Sample.model_url (Some 2%nat)).
  repeat constructor.
Defined.

Lemma job_settles_its_subscriber_witness :
  let s := Dedup.second.1 in
  let c := DownloadScheduler.mkCallbacks 1 (Some 2%nat) in
  DownloadScheduler.promises s !! 1%nat = Some DownloadScheduler.Unsettled ∧
  (∀ result, ∃ s',
     DownloadScheduler.settle s 0 (Complete result) = Some s' ∧
     DownloadScheduler.promises s' !! 1%nat
     = Some (DownloadScheduler.Fulfilled result) ∧
     DownloadScheduler.jobs s' !! Sample.model_url = None) ∧
  (∀ e, ∃ s',
     DownloadScheduler.settle s 0 (Failed e) = Some s' ∧
     DownloadScheduler.promises s' !! 1%nat
     = Some (DownloadScheduler.RejectedWith e) ∧
     DownloadScheduler.jobs s' !! Sample.model_url = None) ∧
  ∃ s',
    DownloadScheduler.settle s 0 Paused = Some s' ∧
    DownloadScheduler.promises s' !! 1%nat = Some DownloadScheduler.Unsettled ∧
    DownloadScheduler.jobs s' !! Sample.model_url = Some 0%nat.
Proof.
  intros s c.
  apply (job_settles_its_subscriber s 0 Busy.job' c).
  - repeat constructor.
  - vm_compute. reflexivity.
  - reflexivity.
  - reflexivity.
Defined.

Lemma replaced_subscriber_is_never_settled_witness :
  DownloadScheduler.promises Busy.finished
  = [DownloadScheduler.Unsettled; DownloadScheduler.Fulfilled None] ∧
  DownloadScheduler.promises Busy.finished !! 0%nat
  = Some DownloadScheduler.Unsettled.
Proof.
  split; [vm_compute; reflexivity|].
  apply (replaced_subscriber_is_never_settled Dedup.first.1 Sample.model_url
           0 Busy.job (DownloadScheduler.mkCallbacks 0 (Some 1%nat))
           (Some 2%nat) Busy.finished).
  - repeat constructor.
  - vm_compute. reflexivity.
  - vm_compute. reflexivity.
  - reflexivity.
  - eapply (evolves_settle _ _ 0%nat (Complete None)); [apply evolves_refl|].
    vm_compute. reflexivity.
Defined.

Lemma aborted_jobs_keep_their_slots_witness :
  DownloadScheduler.paused_count Busy.aborted = 1 ∧
  keeps_paused (DownloadScheduler.heap Busy.aborted)
               (DownloadScheduler.heap Busy.later) ∧
  DownloadScheduler.paused_count Busy.aborted
  ≤ DownloadScheduler.paused_count Busy.later ∧
  DownloadScheduler.running_count Busy.later
  ≤ DownloadScheduler.MAX_CONCURRENT
    - DownloadScheduler.paused_count Busy.aborted.
Proof.
  split; [vm_compute; reflexivity|].
  apply (aborted_jobs_keep_their_slots Busy.aborted Busy.later).
  - eapply (DownloadScheduler.reach_settle Dedup.first.1 0%nat Paused).
    + repeat constructor.
    + vm_compute. reflexivity.
  - apply evolves_download, evolves_refl.
Defined.

(** *** The earlier manager at work *)
Module Earlier.
Import PartialDownloads LegacyManager.

(** "start" received under the validator "v1". *)
Definition record : PartialDownload :=
  mkPartial Sample.model_url (Num 10) [Sample.bytes "start"] 5 (Some "v1").

Definition world : LegacyManager.World :=
  LegacyManager.mkWorld ∅ (PartialDownloads.mkDB {[ Sample.model_url := record ]} None).

(** Serves the rest of "startend!!" from byte 5 on, with the validator
    given. *)
Definition server (tag : string) (rest : list Bytes) (fin : option Error)
    : LegacyManager.Fetch := fun req =>
  if bool_decide (range req = Some "bytes=5-") then
    inr (mkAnswer (mkResponse 206 (mkHeaders (Some "5") None (Some tag))
                     (Some (rest, fin)))
           (Some "application/onnx"))
  else inl NetworkError.
End Earlier.

Lemma earlier_server_honors (reads : list Bytes) (fin : option Error) rest :
  drop 5 (Sample.bytes "startend!!") = concat reads ++ rest →
  (fin = None → rest = []) →
  honors (Sample.bytes "startend!!") Sample.model_url
    (plain_fetch (Earlier.server "v1" reads fin)).
Proof.
  intros Hbody Hfin req r _ Hf. unfold plain_fetch, Earlier.server in Hf.
  case_bool_decide as Hr; [|done]. injection Hf as <-. rewrite Hr.
  intros s Hs Hhdr. change "bytes=5-" with (range_header 5) in Hhdr.
  apply range_header_inj in Hhdr as <-.
  split; [done|]. intros _. simpl. exists rest. done.
Qed.

Lemma legacy_download_round_trip_witness :
  let fetch :=
    Earlier.server "v1" [Sample.bytes "en"; Sample.bytes "d!!"] None in
  (LegacyManager.downloadFile 1 fetch Earlier.world Sample.model_url).1.2
  = LegacyManager.Resolved ∧
  CacheStorage.body
    <$> LegacyManager.cache
          (LegacyManager.downloadFile 1 fetch Earlier.world Sample.model_url).1.1
        !! Sample.model_url
  = Some (Sample.bytes "startend!!").
Proof.
  intros fetch. split; [vm_compute; reflexivity|].
  apply (legacy_download_round_trip (Sample.bytes "startend!!") (Some "v1")
           Sample.model_url fetch 1 Earlier.world).
  - apply (earlier_server_honors [Sample.bytes "en"; Sample.bytes "d!!"] None []);
      reflexivity.
  - intros req answer Hf _. unfold fetch, Earlier.server in Hf.
    case_bool_decide; [|done]. by injection Hf as <-.
  - intros req. unfold fetch, Earlier.server. by case_bool_decide.
  - split; [|split].
    + intros p Hp. vm_compute in Hp. injection Hp as <-. done.
    + exists (Sample.bytes "end!!"). reflexivity.
    + intros c Hc. vm_compute in Hc. discriminate.
  - vm_compute. reflexivity.
Defined.

Lemma legacy_resume_ignores_validators_witness :
  ∃ w' len type,
    LegacyManager.downloadFile 1 (Earlier.server "v2" [Sample.bytes "END!!"] None)
      Earlier.world Sample.model_url
    = (w', LegacyManager.Resolved, [legacy_request Earlier.world Sample.model_url]) ∧
    LegacyManager.cache w' !! Sample.model_url
    = Some (mkCached (concat [Sample.bytes "start"]
                      ++ concat [Sample.bytes "END!!"]) len type) ∧
    PartialDownloads.getPartialDownload (LegacyManager.partial_downloads w')
      Sample.model_url = None.
Proof.
  apply (legacy_resume_ignores_validators 0
           (Earlier.server "v2" [Sample.bytes "END!!"] None)
           Earlier.world Sample.model_url Earlier.record
           (LegacyManager.mkAnswer
              (mkResponse 206 (mkHeaders (Some "5") None (Some "v2"))
                 (Some ([Sample.bytes "END!!"], None)))
              (Some "application/onnx"))
           [Sample.bytes "END!!"]);
    try reflexivity.
  discriminate.
Defined.

Lemma legacy_abort_resolves_uncached_witness :
  let fetch : LegacyManager.Fetch := fun _ => inl AbortError in
  LegacyManager.downloadFile 1 fetch Earlier.world Sample.model_url
  = (Earlier.world, LegacyManager.Resolved,
     [legacy_request Earlier.world Sample.model_url]) ∧
  LegacyManager.cache Earlier.world !! Sample.model_url = None.
Proof.
  intros fetch. destruct legacy_abort_resolves_uncached as [Habort _].
  apply (Habort 0%nat fetch Earlier.world Sample.model_url AbortError);
    reflexivity.
Defined.
